(** * Import-graph analysis of [app.py]: a shallow embedding and its properties

    Definitions, bottom-up:
    - [PyStr]: the [str] methods the parser uses ([strip], [split],
      [startswith], [endswith]) and [readlines] of a text-mode file;
    - [Extractor]: [parse_imports];
    - [Nx]: the part of networkx the program calls ([DiGraph.add_edge],
      [in_degree], [edge_dfs], [find_cycle]), and [NxSpec]: the notions its
      properties are stated with (edges, walks, cycles, invariants);
    - [App]: [build_import_graph], [identify_critical_nodes],
      [identify_circular_dependencies], [draw_insights] and the [index]
      handler; [BuildSpec]: the edges of a build as a list.

    Properties: [ExtractorFacts], [NxFacts], [BuildFacts], [AppFacts] for
    the parser and the build; [DfsFacts] (the search ends, and what it
    yields), [SearchFacts] (a reported cycle is a simple cycle),
    [CompleteFacts] (nothing is reported only when there is no cycle);
    [GraphClaims] and [CycleClaims] for the analysis.

    [Viz] holds the pure parts of [visualize_graph] (node sizes, the
    highlighted nodes and edges, the legend lists); [ParserExtras],
    [BuildExtras] and [AnalysisExtras] hold further properties of the
    parser, the build, the analysis and the [/] route.

    Python exceptions are values of [exn]; a computation that may raise
    returns a [result]. *)

From Stdlib Require Import List String Ascii Arith Bool Lia PeanoNat.
From Stdlib Require Import DecimalString Decimal.
Import ListNotations.
Local Open Scope string_scope.
Local Open Scope list_scope.
Local Open Scope nat_scope.

(** ** Exceptions and results *)

Inductive exn : Type :=
| OSError (path : string)          (* open() failed for [path], or its read did *)
| UnicodeDecodeError               (* readlines() met bytes that are not text *)
| TemplateNotFound (name : string) (* render_template found no such template *)
| NetworkXNoCycle                  (* nx.find_cycle found nothing *)
| KeyError (key : string)          (* set.remove of an absent element *)
| RecursionBudget.                 (* the bounded loop of the model ran dry *)

Inductive result (A : Type) : Type :=
| Ok (a : A)
| Raise (e : exn).
Arguments Ok {A} a.
Arguments Raise {A} e.

Definition bind {A B : Type} (r : result A) (k : A -> result B) : result B :=
  match r with
  | Ok a => k a
  | Raise e => Raise e
  end.

Notation "x <- r ;; k" := (bind r (fun x => k))
  (at level 61, r at next level, right associativity).

(** ** Python strings *)

Module PyStr.

Definition LF : ascii := "010"%char.
Definition CR : ascii := "013"%char.

(** [str.isspace] on one character, for code points below 256:
    TAB, LF, VT, FF, CR, FS, GS, RS, US, SPACE, NEL and NBSP. *)
Definition isspace (c : ascii) : bool :=
  let n := nat_of_ascii c in
  ((9 <=? n) && (n <=? 13)) || ((28 <=? n) && (n <=? 32))
  || (n =? 133) || (n =? 160).

Definition is_empty (s : string) : bool :=
  match s with EmptyString => true | _ => false end.

Fixpoint lstrip (s : string) : string :=
  match s with
  | EmptyString => EmptyString
  | String c r => if isspace c then lstrip r else s
  end.

Fixpoint rstrip (s : string) : string :=
  match s with
  | EmptyString => EmptyString
  | String c r =>
      let r' := rstrip r in
      if is_empty r' && isspace c then EmptyString else String c r'
  end.

(** [s.strip()] *)
Definition strip (s : string) : string := rstrip (lstrip s).

(** [s.startswith(p)] *)
Definition startswith (s p : string) : bool := String.prefix p s.

(** [s.endswith(p)] *)
Definition endswith (s p : string) : bool :=
  let n := String.length s in
  let k := String.length p in
  (k <=? n) && String.eqb (String.substring (n - k) k s) p.

(** [s.split()]: maximal runs of non-whitespace characters; [cur] is the
    token being read. *)
Fixpoint split_from (cur : string) (s : string) : list string :=
  match s with
  | EmptyString => if is_empty cur then [] else [cur]
  | String c r =>
      if isspace c
      then (if is_empty cur then split_from EmptyString r
            else cur :: split_from EmptyString r)
      else split_from (cur ++ String c EmptyString)%string r
  end.

Definition split (s : string) : list string := split_from EmptyString s.

(** [sep.join(l)] *)
Fixpoint join (sep : string) (l : list string) : string :=
  match l with
  | [] => EmptyString
  | [x] => x
  | x :: r => (x ++ sep ++ join sep r)%string
  end.

(** Text mode with [newline=None]: CR LF and a lone CR are read as LF. *)
Fixpoint universal_newlines (s : string) : string :=
  match s with
  | EmptyString => EmptyString
  | String c r =>
      if Ascii.eqb c CR
      then match r with
           | String c' r' =>
               if Ascii.eqb c' LF
               then String LF (universal_newlines r')
               else String LF (universal_newlines r)
           | EmptyString => String LF EmptyString
           end
      else String c (universal_newlines r)
  end.

(** Lines of a text, each keeping its terminating LF. *)
Fixpoint lines_from (cur : string) (s : string) : list string :=
  match s with
  | EmptyString => if is_empty cur then [] else [cur]
  | String c r =>
      if Ascii.eqb c LF
      then (cur ++ String LF EmptyString)%string :: lines_from EmptyString r
      else lines_from (cur ++ String c EmptyString)%string r
  end.

(** [file.readlines()] on the decoded contents of a file. *)
Definition readlines (contents : string) : list string :=
  lines_from EmptyString (universal_newlines contents).

(** [str(n)] for a non-negative [int]. *)
Definition str_of_nat (n : nat) : string :=
  NilEmpty.string_of_uint (Nat.to_uint n).

End PyStr.

(** ** The operating system, as the program sees it

    [os.walk(top)] yields triples [(root, dirs, files)]; opening a path
    in text mode and reading it gives its text, or raises: [OSError] when
    the file cannot be opened or read, [UnicodeDecodeError] when its bytes
    do not decode. *)

Definition walk_entry : Type := (string * list string * list string)%type.

Record filesystem : Type := {
  os_walk : string -> list walk_entry;
  open_read : string -> result string
}.

(** [os.path.join(root, file)] for a non-absolute [file]. *)
Definition os_path_join (root file : string) : string :=
  if PyStr.is_empty root || PyStr.endswith root "/"
  then (root ++ file)%string
  else (root ++ "/" ++ file)%string.

(** ** The import extractor *)

Module Extractor.
Import PyStr.

(** One iteration of the [for line in lines] loop: the new value of
    [imports]. *)
Definition parse_line (imports : list string) (line : string) : list string :=
  let line := strip line in
  if startswith line "import " then
    let parts := split line in
    if 1 <? List.length parts
    then imports ++ [nth 1 parts ""]
    else imports
  else if startswith line "from " then
    let parts := split line in
    if (3 <? List.length parts) && String.eqb (nth 2 parts "") "import"
    then imports ++ [(nth 1 parts "" ++ "." ++ nth 3 parts "")%string]
    else imports
  else imports.

(** [with open(file_path, "r") as file: lines = file.readlines()]: what
    the open or the read raises goes to the caller as it is. *)
Definition parse_imports (fs : filesystem) (file_path : string)
  : result (list string) :=
  contents <- open_read fs file_path ;;
  Ok (fold_left parse_line (readlines contents) []).

(** The contract of the extractor in the words of its description.

    "After trimming whitespace": [t] is [line] without the whitespace at
    its two ends.  This is stated on the characters of the line, not with
    [strip].  The whitespace characters below code point 256 are TAB, LF,
    VT, FF, CR, FS, GS, RS, US, SPACE, NEL and NBSP. *)
Definition whitespace_codes : list nat :=
  [9; 10; 11; 12; 13; 28; 29; 30; 31; 32; 133; 160].

Fixpoint all_space (s : string) : bool :=
  match s with
  | EmptyString => true
  | String c r => isspace c && all_space r
  end.

Definition trimmed (line t : string) : Prop :=
  (exists pre post,
      line = (pre ++ t ++ post)%string
      /\ all_space pre = true /\ all_space post = true)
  /\ (forall c r, t = String c r -> isspace c = false)
  /\ (forall r c, t = (r ++ String c "")%string -> isspace c = false).

(** What a trimmed line contributes, by the shape of its token list. *)
Definition spec_trimmed_names (t : string) : list string :=
  if startswith t "import " then
    match split t with
    | _ :: name :: _ => [name]
    | _ => []
    end
  else if startswith t "from " then
    match split t with
    | _ :: pkg :: kw :: sym :: _ =>
        if String.eqb kw "import" then [(pkg ++ "." ++ sym)%string] else []
    | _ => []
    end
  else [].

Definition spec_line_names (line : string) : list string :=
  spec_trimmed_names (strip line).

Definition spec_extract (contents : string) : list string :=
  flat_map spec_line_names (readlines contents).

End Extractor.

(** ** The part of networkx the program uses *)

Module Nx.

(** *** Insertion-ordered dictionaries and sets with string keys *)

Definition dict (V : Type) : Type := list (string * V).

Fixpoint dict_get {V : Type} (d : dict V) (k : string) : option V :=
  match d with
  | [] => None
  | (k', v) :: r => if String.eqb k' k then Some v else dict_get r k
  end.

Definition dict_mem {V : Type} (d : dict V) (k : string) : bool :=
  match dict_get d k with Some _ => true | None => false end.

(** [d[k]] where a missing key reads as [default]; the graphs the program
    builds are only read at keys they have (see [well_formed] below). *)
Definition getitem {V : Type} (d : dict V) (k : string) (default : V) : V :=
  match dict_get d k with Some v => v | None => default end.

(** [d[k] = v]: an existing key keeps its position, a new one goes last. *)
Fixpoint dict_set {V : Type} (d : dict V) (k : string) (v : V) : dict V :=
  match d with
  | [] => [(k, v)]
  | (k', v') :: r =>
      if String.eqb k' k then (k', v) :: r else (k', v') :: dict_set r k v
  end.

Definition set_mem (x : string) (s : list string) : bool :=
  existsb (String.eqb x) s.

(** [s.add(x)]; also [d[x] = {}] on a dict whose values are all empty,
    which is then kept as the list of its keys. *)
Definition set_add (x : string) (s : list string) : list string :=
  if set_mem x s then s else s ++ [x].

Fixpoint set_remove (x : string) (s : list string) : list string :=
  match s with
  | [] => []
  | y :: r => if String.eqb x y then r else y :: set_remove x r
  end.

(** [s.update(t)] *)
Definition set_update (s t : list string) : list string :=
  fold_left (fun acc x => set_add x acc) t s.

(** *** [nx.DiGraph]

    No node or edge ever carries an attribute, so every attribute dict is
    empty: [_node] and the inner adjacency dicts are kept as their key
    lists, in insertion order. *)

Record DiGraph : Type := {
  _node : list string;
  _succ : dict (list string);
  _pred : dict (list string)
}.

(** [nx.DiGraph()] *)
Definition empty_graph : DiGraph :=
  {| _node := []; _succ := []; _pred := [] |}.

(** The [if u not in self._succ] block of [add_edge]. *)
Definition add_endpoint (g : DiGraph) (u : string) : DiGraph :=
  if dict_mem (_succ g) u then g
  else {| _node := set_add u (_node g);
          _succ := dict_set (_succ g) u [];
          _pred := dict_set (_pred g) u [] |}.

(** [G.add_edge(u, v)] *)
Definition add_edge (g : DiGraph) (u v : string) : DiGraph :=
  let g := add_endpoint g u in
  let g := add_endpoint g v in
  {| _node := _node g;
     _succ := dict_set (_succ g) u (set_add v (getitem (_succ g) u []));
     _pred := dict_set (_pred g) v (set_add u (getitem (_pred g) v [])) |}.

(** [len(G.nodes)] *)
Definition number_of_nodes (g : DiGraph) : nat := List.length (_node g).

(** [len(G.edges)]: the sum of the sizes of the successor dicts. *)
Definition number_of_edges (g : DiGraph) : nat :=
  list_sum (map (fun kv => List.length (snd kv)) (_succ g)).

(** [G.in_degree()]: pairs [(n, len(G._pred[n]))] in node order. *)
Definition in_degree (g : DiGraph) : list (string * nat) :=
  map (fun n => (n, List.length (getitem (_pred g) n []))) (_node g).

(** *** Oriented edges, as [edge_dfs] yields them with
    [orientation='original'] *)

Inductive direction : Type := forward | reverse.

Abbreviation edge := (string * string * direction)%type.

Definition tailhead (e : edge) : string * string := fst e.
Definition edge_tail (e : edge) : string := fst (fst e).
Definition edge_head (e : edge) : string := snd (fst e).

(** [edge_id]: the edge without its direction tag. *)
Definition edge_id (e : edge) : string * string := fst e.

Definition pair_eqb (p q : string * string) : bool :=
  String.eqb (fst p) (fst q) && String.eqb (snd p) (snd q).

Definition edge_seen (id : string * string) (s : list (string * string)) : bool :=
  existsb (pair_eqb id) s.

(** [edges_from(node)]: the out-edges of [node], in adjacency order. *)
Definition edges_from (g : DiGraph) (node : string) : list edge :=
  map (fun nbr => (node, nbr, forward)) (getitem (_succ g) node []).

(** *** [nx.edge_dfs(G, source, orientation='original')]

    The state of the generator.  [stack] has its top first; [edges] maps
    a visited node to what its iterator has still to give. *)

Record dfs_state : Type := {
  stack : list string;
  visited_edges : list (string * string);
  visited_nodes : list string;
  edges : dict (list edge)
}.

Definition dfs_start (source : string) : dfs_state :=
  {| stack := [source]; visited_edges := []; visited_nodes := [];
     edges := [] |}.

(** The [if current_node not in visited_nodes] block. *)
Definition dfs_visit (g : DiGraph) (st : dfs_state) (current_node : string)
  : dfs_state :=
  if set_mem current_node (visited_nodes st) then st
  else {| stack := stack st;
          visited_edges := visited_edges st;
          visited_nodes := set_add current_node (visited_nodes st);
          edges := dict_set (edges st) current_node (edges_from g current_node) |}.

(** The [while stack] loop; the result lists the edges it yields.  Each
    turn of the loop takes one unit of [fuel]. *)
Fixpoint dfs_loop (fuel : nat) (g : DiGraph) (st : dfs_state)
  : result (list edge) :=
  match fuel with
  | 0 => Raise RecursionBudget
  | S fuel' =>
      match stack st with
      | [] => Ok []
      | current_node :: below =>
          let st := dfs_visit g st current_node in
          match getitem (edges st) current_node [] with
          | [] =>
              (* StopIteration: stack.pop() *)
              dfs_loop fuel' g
                {| stack := below;
                   visited_edges := visited_edges st;
                   visited_nodes := visited_nodes st;
                   edges := edges st |}
          | e :: rest =>
              let its := dict_set (edges st) current_node rest in
              if edge_seen (edge_id e) (visited_edges st)
              then dfs_loop fuel' g
                     {| stack := stack st;
                        visited_edges := visited_edges st;
                        visited_nodes := visited_nodes st;
                        edges := its |}
              else
                ys <- dfs_loop fuel' g
                        {| stack := edge_head e :: stack st;
                           visited_edges := visited_edges st ++ [edge_id e];
                           visited_nodes := visited_nodes st;
                           edges := its |} ;;
                Ok (e :: ys)
          end
      end
  end.

(** Turns of the loop that a search of [g] can take at most. *)
Definition dfs_budget (g : DiGraph) : nat := 2 * number_of_edges g + 2.

(** The generator touches nothing but its own state, so the list of all
    the edges it would yield stands for it; [find_cycle] reads them in
    order and may stop early. *)
Definition edge_dfs (g : DiGraph) (source : string) : result (list edge) :=
  dfs_loop (dfs_budget g) g (dfs_start source).

(** *** [nx.find_cycle(G, orientation='original')] *)

(** The local variables of one turn of the [for start_node] loop;
    [path] is the list the source calls [edges], last edge first. *)
Record search : Type := {
  path : list edge;
  seen : list string;
  active_nodes : list string;
  previous_head : option string
}.

Definition search_start (start_node : string) : search :=
  {| path := []; seen := [start_node]; active_nodes := [start_node];
     previous_head := None |}.

(** The [while True] loop that undoes a backtracking step. *)
Fixpoint backtrack (tail : string) (path : list edge) (active : list string)
  : result (list edge * list string) :=
  match path with
  | [] => Ok ([], [tail])                       (* IndexError *)
  | popped_edge :: path' =>
      let popped_head := edge_head popped_edge in
      if set_mem popped_head active then
        let active' := set_remove popped_head active in
        match path' with
        | last_edge :: _ =>
            if String.eqb tail (edge_head last_edge)
            then Ok (path', active')
            else backtrack tail path' active'
        | [] => backtrack tail path' active'
        end
      else Raise (KeyError popped_head)
  end.

(** The [if previous_head is not None and tail != previous_head] block:
    the path and the active nodes after it. *)
Definition rewind (tail : string) (s : search)
  : result (list edge * list string) :=
  match previous_head s with
  | Some ph =>
      if negb (String.eqb tail ph)
      then backtrack tail (path s) (active_nodes s)
      else Ok (path s, active_nodes s)
  | None => Ok (path s, active_nodes s)
  end.

(** The [for edge in nx.edge_dfs(...)] loop over the yielded edges [ys].
    [inr (cycle, final_node)] is the [break]; [inl] is the loop running to
    its end. *)
Fixpoint scan (explored : list string) (ys : list edge) (s : search)
  : result (search + list edge * string) :=
  match ys with
  | [] => Ok (inl s)
  | e :: ys' =>
      let (tail, head) := tailhead e in
      if set_mem head explored then scan explored ys' s
      else
        pa <- rewind tail s ;;
        let path1 := e :: fst pa in
        if set_mem head (snd pa)
        then Ok (inr (List.rev path1, head))
        else scan explored ys'
               {| path := path1;
                  seen := set_add head (seen s);
                  active_nodes := set_add head (snd pa);
                  previous_head := Some head |}
  end.

(** The [for start_node in G.nbunch_iter(None)] loop with its [else]. *)
Fixpoint search_from (g : DiGraph) (explored : list string)
    (nodes : list string) : result (list edge * string) :=
  match nodes with
  | [] => Raise NetworkXNoCycle
  | start_node :: nodes' =>
      if set_mem start_node explored then search_from g explored nodes'
      else
        ys <- edge_dfs g start_node ;;
        r <- scan explored ys (search_start start_node) ;;
        match r with
        | inr found => Ok found
        | inl s => search_from g (set_update explored (seen s)) nodes'
        end
  end.

(** The closing loop: drop the edges before the one leaving
    [final_node]; [cycle[i:]] with [i] the last index when none does. *)
Fixpoint drop_lead (final_node : string) (cycle : list edge) : list edge :=
  match cycle with
  | [] => []
  | e :: rest =>
      if String.eqb (edge_tail e) final_node then cycle
      else match rest with
           | [] => cycle
           | _ :: _ => drop_lead final_node rest
           end
  end.

Definition find_cycle (g : DiGraph) : result (list edge) :=
  found <- search_from g [] (_node g) ;;
  Ok (drop_lead (snd found) (fst found)).

End Nx.

(** ** Notions used to state properties of graphs *)

Module NxSpec.
Import Nx.

Definition keys {V : Type} (d : dict V) : list string := map fst d.

(** [add_edge] for each pair of [es], in order, starting from [g]. *)
Definition add_edges (g : DiGraph) (es : list (string * string)) : DiGraph :=
  fold_left (fun g e => add_edge g (fst e) (snd e)) es g.

(** *** The graph a sequence of [add_edge] calls builds *)

Definition graph_of (es : list (string * string)) : DiGraph :=
  add_edges empty_graph es.

Definition succs (g : DiGraph) (u : string) : list string :=
  getitem (_succ g) u [].
Definition preds (g : DiGraph) (v : string) : list string :=
  getitem (_pred g) v [].

(** [u -> v] is an edge of [g]. *)
Definition has_edge (g : DiGraph) (u v : string) : Prop := In v (succs g u).

(** What every graph made by [add_edge] satisfies. *)
Record well_formed (g : DiGraph) : Prop := {
  wf_succ_keys : keys (_succ g) = _node g;
  wf_pred_keys : keys (_pred g) = _node g;
  wf_nodes : NoDup (_node g);
  wf_succ_nodup : forall u, NoDup (succs g u);
  wf_pred_nodup : forall v, NoDup (preds g v);
  wf_pred_succ : forall u v, In u (preds g v) <-> In v (succs g u);
  wf_endpoints : forall u v, In v (succs g u) -> In u (_node g) /\ In v (_node g)
}.

Definition pair_dec (x y : string * string) : {x = y} + {x <> y}.
Proof. decide equality; apply string_dec. Defined.

(** The first occurrences of the pairs of [es], in order. *)
Definition first_calls (es : list (string * string)) : list (string * string) :=
  List.rev (nodup pair_dec (List.rev es)).

(** *** Walks and cycles *)

(** [walk g a l b]: the edges [l] lead from [a] to [b] in [g]. *)
Inductive walk (g : DiGraph) : string -> list edge -> string -> Prop :=
| walk_nil a : walk g a [] a
| walk_cons a m b l :
    has_edge g a m -> walk g m l b -> walk g a ((a, m, forward) :: l) b.

Definition is_cycle (g : DiGraph) (c : list edge) : Prop :=
  c <> [] /\ exists a, walk g a c a.

(** A cycle that leaves no node twice. *)
Definition simple_cycle (g : DiGraph) (c : list edge) : Prop :=
  is_cycle g c /\ NoDup (map edge_tail c).

Definition acyclic (g : DiGraph) : Prop := forall c, ~ is_cycle g c.

(** *** What [edge_dfs] maintains *)

(** What the iterator of [n] has still to give. *)
Definition iter (st : dfs_state) (n : string) : list edge :=
  getitem (edges st) n [].

Definition total_len {A : Type} (d : dict (list A)) : nat :=
  list_sum (map (fun kv => List.length (snd kv)) d).

Definition pending (st : dfs_state) : nat := total_len (edges st).

Definition unvisited_out (d : dict (list string)) (vis : list string) : nat :=
  list_sum (map (fun kv => if set_mem (fst kv) vis then 0
                           else List.length (snd kv)) d).

(** The loop of [edge_dfs] makes this smaller at every turn. *)
Definition dfs_measure (g : DiGraph) (st : dfs_state) : nat :=
  2 * (pending st + unvisited_out (_succ g) (visited_nodes st))
  + List.length (stack st).

Record dfs_inv (g : DiGraph) (st : dfs_state) : Prop := {
  inv_shape : forall n e, In e (iter st n) ->
                exists m, e = (n, m, forward) /\ has_edge g n m;
  inv_out : forall n m, In n (visited_nodes st) -> has_edge g n m ->
              In (n, m) (visited_edges st) \/ In (n, m, forward) (iter st n);
  inv_done : forall n, In n (visited_nodes st) -> ~ In n (stack st) ->
               iter st n = []
}.

(** The edges a depth-first search yields while its stack (top first)
    evolves from [stk], [V] being the edges taken before: each edge leaves
    a node of the stack, the nodes above it having been popped, and its
    head is pushed; a node is popped when all its out-edges are taken. *)
Inductive trace (g : DiGraph)
  : list (string * string) -> list string -> list edge -> Prop :=
| trace_nil V stk :
    (forall n m, In n stk -> has_edge g n m -> In (n, m) V) ->
    trace g V stk []
| trace_cons V stk popped t below h ys :
    stk = popped ++ t :: below ->
    has_edge g t h ->
    (forall n m, In n popped -> has_edge g n m -> In (n, m) V) ->
    trace g (V ++ [(t, h)]) (h :: t :: below) ys ->
    trace g V stk ((t, h, forward) :: ys).

(** *** What [find_cycle] maintains *)

(** A set of nodes that no edge leaves. *)
Definition closed (g : DiGraph) (X : list string) : Prop :=
  forall n m, In n X -> has_edge g n m -> In m X.

(** The node the path (last edge first) has reached from [start]. *)
Definition top_node (start : string) (path : list edge) : string :=
  match path with
  | [] => start
  | e :: _ => edge_head e
  end.

(** Each edge of the path leaves the node the edges before it reach. *)
Fixpoint chain (g : DiGraph) (start : string) (path : list edge) : Prop :=
  match path with
  | [] => True
  | e :: p =>
      e = (top_node start p, edge_head e, forward)
      /\ has_edge g (top_node start p) (edge_head e)
      /\ chain g start p
  end.

(** The nodes on the path, in the order they were reached. *)
Fixpoint chain_nodes (start : string) (path : list edge) : list string :=
  match path with
  | [] => [start]
  | e :: p => chain_nodes start p ++ [edge_head e]
  end.

(** The state of one search from [start], with [X] explored before, when
    the stack of the depth-first search is [stk] (top first): the active
    nodes are those of the path; the stack is a first part of them, under
    nodes explored before. *)
Record search_inv (g : DiGraph) (X : list string) (start : string)
    (stk : list string) (s : search) : Prop := {
  si_chain : chain g start (path s);
  si_active : active_nodes s = chain_nodes start (path s);
  si_nodup : NoDup (active_nodes s);
  si_fresh : forall x, In x (active_nodes s) -> ~ In x X;
  si_prev : previous_head s
            = match path s with
              | [] => None
              | e :: _ => Some (edge_head e)
              end;
  si_stack : exists Xs A1 A2,
      stk = Xs ++ List.rev A1 /\ active_nodes s = A1 ++ A2 /\ A1 <> []
      /\ (forall x, In x Xs -> In x X)
}.

(** *** What a search that finds nothing leaves behind *)

(** No cycle passes through a node of [Y]. *)
Definition cycle_free_at (g : DiGraph) (Y : list string) : Prop :=
  forall a c, In a Y -> c <> [] -> ~ walk g a c a.

Definition safe (g : DiGraph) (Y : list string) : Prop :=
  closed g Y /\ cycle_free_at g Y.

(** In the stack [S] (top first), [m] is nearer the top than [n]. *)
Definition over (S : list string) (n m : string) : Prop :=
  exists l1 l2 l3, S = l1 ++ m :: l2 ++ n :: l3.

(** The search state against the finished nodes [Y], when the edges [V]
    have been yielded: [Y] is closed and without cycle, what was seen is
    on the live part [S] of the stack or finished, and a yielded edge
    enters a finished node or a node above its tail on the stack. *)
Definition done_inv (g : DiGraph) (X : list string)
    (V : list (string * string)) (Y : list string) (stk : list string)
    (s : search) : Prop :=
  safe g Y
  /\ (forall x, In x X -> In x Y)
  /\ (forall x, In x (active_nodes s) -> In x (seen s))
  /\ exists Xs S A2,
       stk = Xs ++ S
       /\ active_nodes s = List.rev S ++ A2
       /\ (forall x, In x Xs -> In x X)
       /\ (forall x, In x (seen s) -> In x S \/ In x Y)
       /\ (forall n m, In (n, m) V -> In m Y \/ over S n m).

End NxSpec.

(** ** The application *)

Module App.
Import PyStr Extractor Nx.

(** The body of [for file in files]. *)
Definition scan_file (fs : filesystem) (root : string)
    (graph : result DiGraph) (file : string) : result DiGraph :=
  g <- graph ;;
  if endswith file ".py" then
    let file_path := os_path_join root file in
    imports <- parse_imports fs file_path ;;
    Ok (fold_left (fun g imp => add_edge g file imp) imports g)
  else Ok g.

(** The body of [for root, _, files in os.walk(...)]. *)
Definition scan_dir (fs : filesystem) (graph : result DiGraph)
    (w : walk_entry) : result DiGraph :=
  let '(root, _, files) := w in
  fold_left (scan_file fs root) files graph.

(** The two loops of [build_import_graph], started from [graph]. *)
Definition build_into (fs : filesystem) (codebase_path : string)
    (graph : DiGraph) : result DiGraph :=
  fold_left (scan_dir fs) (os_walk fs codebase_path) (Ok graph).

Definition build_import_graph (fs : filesystem) (codebase_path : string)
  : result DiGraph :=
  build_into fs codebase_path empty_graph.

Definition identify_critical_nodes (graph : DiGraph) : list string :=
  let in_degrees := in_degree graph in
  map fst (filter (fun nd => 1 <? snd nd) in_degrees).

Definition identify_circular_dependencies (graph : DiGraph)
  : result (list edge) :=
  match find_cycle graph with
  | Ok cycles => Ok cycles
  | Raise NetworkXNoCycle => Ok []
  | Raise e => Raise e
  end.

Definition show_edge (e : edge) : string :=
  (edge_tail e ++ " -> " ++ edge_head e)%string.

(** The list [insights] that [draw_insights] joins. *)
Definition insight_lines (graph : DiGraph) : result (list string) :=
  let critical_nodes := identify_critical_nodes graph in
  circular_dependencies <- identify_circular_dependencies graph ;;
  let insights :=
    [ "Insights about the codebase:";
      ("Total number of nodes (files and imports): "
         ++ str_of_nat (number_of_nodes graph))%string;
      ("Total number of edges (dependencies): "
         ++ str_of_nat (number_of_edges graph))%string;
      ("Number of critical nodes (frequently imported): "
         ++ str_of_nat (List.length critical_nodes))%string;
      ("Critical nodes: " ++ join ", " critical_nodes)%string ] in
  match circular_dependencies with
  | _ :: _ =>
      Ok (insights ++
          [ ("Number of circular dependencies: "
               ++ str_of_nat (List.length circular_dependencies))%string;
            ("Circular dependencies: "
               ++ join ", " (map show_edge circular_dependencies))%string ])
  | [] => Ok (insights ++ ["No circular dependencies found."])
  end.

Definition draw_insights (graph : DiGraph) : result string :=
  insights <- insight_lines graph ;;
  Ok (join (String LF EmptyString) insights).

Definition codebase_path : string := "./example-codebase".

(** The [/] route; [render_template] is the template engine, which
    returns the page or raises. *)
Definition index (render_template : string -> string -> result string)
    (fs : filesystem) : result string :=
  import_graph <- build_import_graph fs codebase_path ;;
  insights <- draw_insights import_graph ;;
  render_template "index.html" insights.

End App.

(** ** The edges of a build, as a list *)

Module BuildSpec.
Import PyStr Extractor Nx App.

(** Run [f] on each element in order and concatenate, stopping at the
    first exception. *)
Fixpoint collect {A B : Type} (f : A -> result (list B)) (l : list A)
  : result (list B) :=
  match l with
  | [] => Ok []
  | a :: r => x <- f a ;; y <- collect f r ;; Ok (x ++ y)
  end.

(** The edges one file contributes. *)
Definition file_edges (fs : filesystem) (root file : string)
  : result (list (string * string)) :=
  if endswith file ".py" then
    imports <- parse_imports fs (os_path_join root file) ;;
    Ok (map (pair file) imports)
  else Ok [].

Definition dir_edges (fs : filesystem) (w : walk_entry)
  : result (list (string * string)) :=
  collect (file_edges fs (fst (fst w))) (snd w).

(** All [add_edge] calls of a build, in order. *)
Definition import_edges (fs : filesystem) (codebase_path : string)
  : result (list (string * string)) :=
  collect (dir_edges fs) (os_walk fs codebase_path).

(** No file of the tree is a Python source. *)
Definition no_sources (fs : filesystem) (codebase_path : string) : Prop :=
  forall root dirs files file,
    In (root, dirs, files) (os_walk fs codebase_path) ->
    In file files -> endswith file ".py" = false.

(** The build reads the import [imp] from the source file [file]. *)
Definition extracts (fs : filesystem) (codebase_path file imp : string) : Prop :=
  exists root dirs files imports,
    In (root, dirs, files) (os_walk fs codebase_path)
    /\ In file files
    /\ endswith file ".py" = true
    /\ parse_imports fs (os_path_join root file) = Ok imports
    /\ In imp imports.

End BuildSpec.

(** ** Concrete inputs *)

Module Fixtures.
Import PyStr Nx NxSpec App.

Definition one_file (path contents : string) : filesystem :=
  {| os_walk := fun _ => [];
     open_read := fun p =>
       if String.eqb p path then Ok contents else Raise (OSError p) |}.

Definition two_imports : string :=
  ("import os" ++ String LF ("from a import b" ++ String LF ""))%string.

Definition comma_import : string := "import os, sys".

(** Indented imports, a tab between tokens, blanks at the end of a line,
    lines ended by CR LF and by CR alone, and lines that only look like
    imports (a tab right after the keyword, no blank after it, a misspelt
    keyword). *)
Definition indented_imports : string :=
  ("  import os" ++ String LF
   (String "009" "import   sys  " ++ String CR (String LF
   ("from a" ++ String "009" "import  b " ++ String LF
   ("x = 1  # import re" ++ String CR
   ("import json" ++ String LF
   ("from a imports b" ++ String LF
   ("import" ++ String "009" "tabbed" ++ String LF
   ("importos" ++ String LF
   "import")))))))))%string.

(** A tree whose only file is not a Python source. *)
Definition no_python : filesystem :=
  {| os_walk := fun _ => [("./example-codebase", ["docs"], ["README.md"]);
                          ("./example-codebase/docs", [], [])];
     open_read := fun p => Raise (OSError p) |}.

(** [a.py] can be read, [b.py] cannot. *)
Definition unreadable_b : filesystem :=
  {| os_walk := fun _ => [("./example-codebase", [], ["a.py"; "b.py"])];
     open_read := fun p =>
       if String.eqb p "./example-codebase/a.py" then Ok "import os"
       else Raise (OSError p) |}.

(** One source that imports [os] twice. *)
Definition twice_os : filesystem :=
  {| os_walk := fun _ => [("./example-codebase", [], ["a.py"])];
     open_read := fun p =>
       if String.eqb p "./example-codebase/a.py"
       then Ok ("import os" ++ String LF "import os")%string
       else Raise (OSError p) |}.

Definition summary_of_nothing : list string :=
  [ "Insights about the codebase:";
    "Total number of nodes (files and imports): 0";
    "Total number of edges (dependencies): 0";
    "Number of critical nodes (frequently imported): 0";
    "Critical nodes: ";
    "No circular dependencies found." ].

(** A source that imports a name ending in [.py]: its own. *)
Definition imports_itself : filesystem :=
  {| os_walk := fun _ => [("./example-codebase", [], ["a.py"])];
     open_read := fun p =>
       if String.eqb p "./example-codebase/a.py" then Ok "import a.py"
       else Raise (OSError p) |}.

(** Two sources with one base name, in two directories; both import
    [os]. *)
Definition same_base : filesystem :=
  {| os_walk := fun _ => [("./example-codebase/p", [], ["m.py"]);
                          ("./example-codebase/q", [], ["m.py"])];
     open_read := fun _ => Ok "import os" |}.

(** [x.py] imports [os] and [re], [y.py] in a subdirectory imports
    [os]. *)
Definition two_importers : filesystem :=
  {| os_walk := fun _ => [("./example-codebase", ["lib"], ["x.py"]);
                          ("./example-codebase/lib", [], ["y.py"])];
     open_read := fun p =>
       if String.eqb p "./example-codebase/x.py"
       then Ok ("import os" ++ String LF "import re")%string
       else if String.eqb p "./example-codebase/lib/y.py" then Ok "import os"
       else Raise (OSError p) |}.

Definition AB : string * string := ("A", "B").
Definition BC : string * string := ("B", "C").
Definition CA : string * string := ("C", "A").

(** Two cycles that share no node. *)
Definition two_cycles : list (string * string) :=
  [("a", "b"); ("b", "a"); ("c", "d"); ("d", "c")].

End Fixtures.

(** ** The pure parts of [visualize_graph] *)

Module Viz.
Import PyStr Nx App.

(** [graph.in_degree(node)] for one node. *)
Definition in_degree_of (graph : DiGraph) (node : string) : nat :=
  List.length (getitem (_pred graph) node []).

(** [node_sizes = [3000 + 100 * graph.in_degree(node) for node in
    graph.nodes]] *)
Definition node_sizes (graph : DiGraph) : list nat :=
  map (fun node => 3000 + 100 * in_degree_of graph node) (_node graph).

(** [l.index(x)]: the first position of [x]; [None] is [ValueError]. *)
Fixpoint list_index (x : string) (l : list string) : option nat :=
  match l with
  | [] => None
  | y :: r =>
      if String.eqb y x then Some 0
      else match list_index x r with
           | Some i => Some (S i)
           | None => None
           end
  end.

(** [[node_sizes[nodes_list.index(node)] for node in critical_nodes]], the
    sizes of the highlighted nodes; [None] when [index] or the subscript
    raises. *)
Fixpoint sizes_of (sizes : list nat) (nodes_list critical_nodes : list string)
  : option (list nat) :=
  match critical_nodes with
  | [] => Some []
  | node :: rest =>
      match list_index node nodes_list with
      | None => None
      | Some i =>
          match nth_error sizes i, sizes_of sizes nodes_list rest with
          | Some size, Some more => Some (size :: more)
          | _, _ => None
          end
      end
  end.

Definition critical_sizes (graph : DiGraph) : option (list nat) :=
  sizes_of (node_sizes graph) (_node graph) (identify_critical_nodes graph).

(** [circular_edges = [(u, v) for u, v, _ in circular_dependencies]] *)
Definition circular_edges (circular_dependencies : list edge)
  : list (string * string) :=
  map (fun e => (edge_tail e, edge_head e)) circular_dependencies.

(** [[node for node in graph.nodes if not node.endswith(".py")]] *)
Definition import_nodes (graph : DiGraph) : list string :=
  filter (fun node => negb (endswith node ".py")) (_node graph).

(** [[node for node in graph.nodes if node.endswith(".py")]] *)
Definition file_nodes (graph : DiGraph) : list string :=
  filter (fun node => endswith node ".py") (_node graph).

End Viz.

(** ** Notions for further properties *)

Module MoreSpec.
Import PyStr Extractor Nx NxSpec App BuildSpec.

(** No character of [s] is whitespace. *)
Fixpoint no_space (s : string) : bool :=
  match s with
  | EmptyString => true
  | String c r => negb (isspace c) && no_space r
  end.

(** The last character of [s]. *)
Fixpoint last_char (s : string) : option ascii :=
  match s with
  | EmptyString => None
  | String c EmptyString => Some c
  | String _ r => last_char r
  end.

(** Neither CR nor LF occurs in [s]. *)
Fixpoint one_line (s : string) : bool :=
  match s with
  | EmptyString => true
  | String c r => negb (Ascii.eqb c CR) && negb (Ascii.eqb c LF) && one_line r
  end.

(** The text whose lines are [ls], each ended by [eol]. *)
Fixpoint with_eol (eol : string) (ls : list string) : string :=
  match ls with
  | [] => EmptyString
  | l :: r => (l ++ eol ++ with_eol eol r)%string
  end.

(** The first character of [s], if any, is not LF. *)
Definition head_not_lf (s : string) : Prop :=
  match s with
  | EmptyString => True
  | String c _ => Ascii.eqb c LF = false
  end.

(** LF, CR LF and CR are the three line terminators of text mode. *)
Definition terminator (eol : string) : Prop :=
  eol = String LF "" \/ eol = String CR (String LF "") \/ eol = String CR "".

(** Both ends of every pair, in order. *)
Definition endpoints (es : list (string * string)) : list string :=
  flat_map (fun e => [fst e; snd e]) es.

(** Every source file of the walk can be read. *)
Definition sources_readable (fs : filesystem) (codebase_path : string) : Prop :=
  forall root dirs files file,
    In (root, dirs, files) (os_walk fs codebase_path) ->
    In file files -> endswith file ".py" = true ->
    exists contents, open_read fs (os_path_join root file) = Ok contents.

(** Two walk entries with the same root and the same files. *)
Definition same_files (w w' : walk_entry) : Prop :=
  fst (fst w) = fst (fst w') /\ snd w = snd w'.

End MoreSpec.

(** ** More concrete inputs *)

Module MoreFixtures.
Import PyStr Nx NxSpec App.

(** A source with no import line, beside one that imports [os]. *)
Definition silent_source : filesystem :=
  {| os_walk := fun _ => [("./example-codebase", [], ["quiet.py"; "a.py"])];
     open_read := fun p =>
       if String.eqb p "./example-codebase/a.py" then Ok "import os"
       else Ok "x = 1" |}.

(** The tree of [unreadable_b] of [Fixtures] with a subdirectory listed
    and a text file that cannot be read. *)
Definition unreadable_notes : filesystem :=
  {| os_walk := fun _ => [("./example-codebase", ["docs"], ["a.py"; "notes.txt"])];
     open_read := fun p =>
       if String.eqb p "./example-codebase/a.py" then Ok "import os"
       else Raise (OSError p) |}.

(** [a.py] can be read, the bytes of [b.py] are not text, and neither
    [c.py] nor [d/e.py] can be opened. *)
Definition undecodable_b : filesystem :=
  {| os_walk := fun _ => [("./example-codebase", ["d"], ["a.py"; "b.py"; "c.py"]);
                          ("./example-codebase/d", [], ["e.py"])];
     open_read := fun p =>
       if String.eqb p "./example-codebase/a.py" then Ok "import os"
       else if String.eqb p "./example-codebase/b.py"
       then Raise UnicodeDecodeError
       else Raise (OSError p) |}.

(** Two sources [m.py] in two directories: the one in [p] has no import
    line, the one in [q] imports [os]; [p/quiet.py] has none either. *)
Definition silent_twin : filesystem :=
  {| os_walk := fun _ => [("./example-codebase/p", [], ["m.py"; "quiet.py"]);
                          ("./example-codebase/q", [], ["m.py"])];
     open_read := fun p =>
       if String.eqb p "./example-codebase/q/m.py" then Ok "import os"
       else Ok "x = 1" |}.

Definition readable_notes : filesystem :=
  {| os_walk := fun _ => [("./example-codebase", [], ["a.py"; "notes.txt"])];
     open_read := fun p =>
       if String.eqb p "./example-codebase/a.py" then Ok "import os"
       else Ok "import sys" |}.

End MoreFixtures.

(** ** Properties of the extractor *)

Module ExtractorFacts.
Import PyStr Extractor Fixtures.

Lemma parse_line_spec imports line :
  parse_line imports line = imports ++ spec_line_names line.
Proof.
  unfold parse_line, spec_line_names, spec_trimmed_names.
  destruct (startswith (strip line) "import ").
  - destruct (split (strip line)) as [|p0 [|p1 ps]]; cbn;
      now rewrite ?app_nil_r.
  - destruct (startswith (strip line) "from "); [|now rewrite app_nil_r].
    destruct (split (strip line)) as [|p0 [|p1 [|p2 [|p3 ps]]]]; cbn;
      rewrite ?app_nil_r; try reflexivity.
    destruct (String.eqb p2 "import"); now rewrite ?app_nil_r.
Qed.

Lemma fold_parse_line lines : forall imports,
  fold_left parse_line lines imports
  = imports ++ flat_map spec_line_names lines.
Proof.
  induction lines as [|l ls IH]; intros imports; cbn.
  - now rewrite app_nil_r.
  - rewrite IH, parse_line_spec, <- app_assoc. reflexivity.
Qed.

(** *** [strip] removes the whitespace at both ends, and nothing else *)

Lemma append_assoc3 (a b c : string) :
  ((a ++ b) ++ c = a ++ (b ++ c))%string.
Proof. induction a as [|x a IH]; cbn; [reflexivity|now rewrite IH]. Qed.

Lemma append_empty_r (a : string) : (a ++ "" = a)%string.
Proof. induction a as [|x a IH]; cbn; [reflexivity|now rewrite IH]. Qed.

Lemma lstrip_parts s :
  exists pre, s = (pre ++ lstrip s)%string /\ all_space pre = true.
Proof.
  induction s as [|c s (pre & IH1 & IH2)]; [now exists ""|].
  cbn [lstrip]. destruct (isspace c) eqn:Hc.
  - exists (String c pre). cbn [append all_space].
    now rewrite <- IH1, Hc, IH2.
  - now exists "".
Qed.

Lemma lstrip_head s c r : lstrip s = String c r -> isspace c = false.
Proof.
  induction s as [|a s IH]; cbn [lstrip]; [discriminate|].
  destruct (isspace a) eqn:Ha; [exact IH|]. now intros [= <- _].
Qed.

Lemma rstrip_parts s :
  exists post, s = (rstrip s ++ post)%string /\ all_space post = true.
Proof.
  induction s as [|c s (post & IH1 & IH2)]; [now exists ""|].
  cbn [rstrip]. destruct (rstrip s) as [|a r] eqn:Hr; cbn [is_empty andb].
  - destruct (isspace c) eqn:Hc.
    + exists (String c post). cbn [append all_space] in *.
      split; [congruence|now rewrite Hc].
    + exists post. cbn [append] in *. split; [congruence|assumption].
  - exists post. cbn [append] in *. split; [congruence|assumption].
Qed.

Lemma rstrip_head s c r :
  s = String c r -> isspace c = false -> rstrip s = String c (rstrip r).
Proof.
  intros -> Hc. cbn [rstrip]. now rewrite Hc, andb_false_r.
Qed.

Lemma rstrip_last_char s : forall r c,
  rstrip s = (r ++ String c "")%string -> isspace c = false.
Proof.
  induction s as [|a s IH]; intros r c; cbn [rstrip].
  - destruct r; discriminate.
  - destruct (rstrip s) as [|b t] eqn:Hr; cbn [is_empty andb].
    + destruct (isspace a) eqn:Ha; [destruct r; discriminate|].
      destruct r as [|x r]; cbn [append].
      * now intros [= <-].
      * intros [= _ H]. destruct r; discriminate.
    + destruct r as [|x r]; cbn [append]; [discriminate|].
      intros [= _ H]. now apply (IH r c).
Qed.

Lemma strip_trimmed line : trimmed line (strip line).
Proof.
  unfold strip. destruct (lstrip_parts line) as (pre & Hpre & Hsp).
  destruct (rstrip_parts (lstrip line)) as (post & Hpost & Hsq).
  split; [|split].
  - exists pre, post. now rewrite <- Hpost, <- Hpre.
  - intros c r Ht. destruct (lstrip line) as [|a l] eqn:Hl; [discriminate|].
    pose proof (lstrip_head line a l Hl) as Ha.
    rewrite (rstrip_head _ a l eq_refl Ha) in Ht. now inversion Ht; subst.
  - apply rstrip_last_char.
Qed.

Lemma lstrip_all_space pre s :
  all_space pre = true -> lstrip (pre ++ s) = lstrip s.
Proof.
  induction pre as [|c pre IH]; intros H; [reflexivity|].
  cbn [all_space] in H. apply andb_prop in H. destruct H as [Hc H].
  cbn [append lstrip]. rewrite Hc. now apply IH.
Qed.

Lemma rstrip_only_space post : all_space post = true -> rstrip post = "".
Proof.
  induction post as [|c post IH]; intros H; [reflexivity|].
  cbn [all_space] in H. apply andb_prop in H. destruct H as [Hc H].
  cbn [rstrip]. now rewrite (IH H), Hc.
Qed.

Lemma rstrip_all_space s post :
  all_space post = true -> rstrip (s ++ post) = rstrip s.
Proof.
  intros H. induction s as [|c s IH]; cbn [append rstrip].
  - now apply rstrip_only_space.
  - now rewrite IH.
Qed.

Lemma rstrip_fixed t :
  (forall r c, t = (r ++ String c "")%string -> isspace c = false) ->
  rstrip t = t.
Proof.
  induction t as [|a t IH]; intros H; [reflexivity|].
  cbn [rstrip]. rewrite IH.
  - destruct t as [|b t]; cbn [is_empty andb]; [|reflexivity].
    now rewrite (H "" a eq_refl).
  - intros r c ->. apply (H (String a r) c). reflexivity.
Qed.

Lemma trimmed_strip line t : trimmed line t -> strip line = t.
Proof.
  intros [(pre & post & -> & Hpre & Hpost) [Hhead Hlast]].
  unfold strip. rewrite (lstrip_all_space pre _ Hpre).
  destruct t as [|c r].
  - cbn [append]. destruct (lstrip_parts post) as (q & Hq & _).
    destruct (rstrip_parts (lstrip post)) as (q' & Hq' & _).
    assert (Hl : all_space (lstrip post) = true).
    { clear - Hpost. induction post as [|c post IH]; [reflexivity|].
      cbn [all_space] in Hpost. apply andb_prop in Hpost.
      destruct Hpost as [Hc Hp]. cbn [lstrip]. rewrite Hc. now apply IH. }
    now apply rstrip_only_space.
  - cbn [append lstrip]. rewrite (Hhead c r eq_refl).
    change (String c (r ++ post)) with (String c r ++ post)%string.
    rewrite (rstrip_all_space _ post Hpost). now apply rstrip_fixed.
Qed.

Lemma isspace_codes c :
  isspace c = existsb (Nat.eqb (nat_of_ascii c)) whitespace_codes.
Proof. destruct c as [[] [] [] [] [] [] [] []]; reflexivity. Qed.

(** C1. Each line is handled by its trimmed text, that is the line without
    the whitespace at its two ends, which is what [strip] returns: an
    ["import "] text with at least two tokens contributes its second token,
    a ["from "] text with at least four tokens whose third is ["import"]
    contributes ["<token2>.<token4>"], any other nothing.  For every
    readable file [parse_imports] returns these contributions in line
    order, duplicates kept.  A file with the lines [import os] and
    [from a import b] gives [["os"; "a.b"]], a repeated import is reported
    twice, and indented lines with blanks at their end count like the
    others. *)
Theorem parse_imports_contract :
  (forall c, isspace c = true <-> In (nat_of_ascii c) whitespace_codes)
  /\ (forall line t, trimmed line t <-> strip line = t)
  /\ (forall imports line t,
        trimmed line t ->
        parse_line imports line = imports ++ spec_trimmed_names t)
  /\ (forall fs path contents,
        open_read fs path = Ok contents ->
        parse_imports fs path = Ok (spec_extract contents))
  /\ (forall fs path,
        open_read fs path = Ok two_imports ->
        parse_imports fs path = Ok ["os"; "a.b"])
  /\ (forall fs path,
        open_read fs path = Ok ("import os" ++ String LF "import os")%string ->
        parse_imports fs path = Ok ["os"; "os"])
  /\ (forall fs path,
        open_read fs path = Ok indented_imports ->
        parse_imports fs path = Ok ["os"; "sys"; "a.b"; "json"]).
Proof.
  assert (Ht : forall line t, trimmed line t <-> strip line = t).
  { intros line t. split; [apply trimmed_strip|].
    intros <-. apply strip_trimmed. }
  assert (H : forall fs path contents,
             open_read fs path = Ok contents ->
             parse_imports fs path = Ok (spec_extract contents)).
  { intros fs path contents Hopen. unfold parse_imports, spec_extract.
    rewrite Hopen. cbn [bind]. rewrite fold_parse_line. reflexivity. }
  split.
  { intros c. rewrite isspace_codes, existsb_exists. split.
    - intros (n & Hn & Heq). apply Nat.eqb_eq in Heq. now subst.
    - intros Hn. exists (nat_of_ascii c). split; [exact Hn|apply Nat.eqb_refl]. }
  split; [exact Ht|]. split.
  - intros imports line t Hline. rewrite parse_line_spec.
    unfold spec_line_names. now rewrite (proj1 (Ht line t) Hline).
  - split; [exact H|].
    repeat split; intros fs path Hopen; now rewrite (H _ _ _ Hopen).
Qed.

End ExtractorFacts.

(** ** Dictionaries, sets and graph construction *)

Module NxFacts.
Import Nx NxSpec.

Lemma set_mem_In x s : set_mem x s = true <-> In x s.
Proof.
  unfold set_mem. rewrite existsb_exists. split.
  - intros [y [Hy Heq]]. apply String.eqb_eq in Heq. now subst.
  - intros H. exists x. split; [assumption|apply String.eqb_refl].
Qed.

Lemma set_mem_cons x y s :
  set_mem x (y :: s) = String.eqb x y || set_mem x s.
Proof. reflexivity. Qed.

Lemma set_mem_false x s : set_mem x s = false <-> ~ In x s.
Proof.
  rewrite <- set_mem_In. destruct (set_mem x s); split; congruence.
Qed.

Lemma set_add_In x y s : In y (set_add x s) <-> y = x \/ In y s.
Proof.
  unfold set_add. destruct (set_mem x s) eqn:Hm.
  - apply set_mem_In in Hm. split; [tauto|]. intros [->|H]; assumption.
  - rewrite in_app_iff. cbn. split; intros H; intuition congruence.
Qed.

Lemma set_add_NoDup x s : NoDup s -> NoDup (set_add x s).
Proof.
  intros H. unfold set_add. destruct (set_mem x s) eqn:Hm; [assumption|].
  apply set_mem_false in Hm. apply NoDup_app; auto.
  - constructor; [intros []|constructor].
  - intros a Ha [<-|[]]. contradiction.
Qed.

Lemma set_add_member x s : In x s -> set_add x s = s.
Proof.
  intros H. unfold set_add. apply set_mem_In in H. now rewrite H.
Qed.

Lemma set_add_fresh x s : ~ In x s -> set_add x s = s ++ [x].
Proof.
  intros H. unfold set_add. apply set_mem_false in H. now rewrite H.
Qed.

Lemma set_update_In s t x : In x (set_update s t) <-> In x s \/ In x t.
Proof.
  unfold set_update. revert s.
  induction t as [|y t IH]; intros s; cbn; [tauto|].
  rewrite IH, set_add_In. intuition congruence.
Qed.

Lemma set_remove_last s x :
  ~ In x s -> set_remove x (s ++ [x]) = s.
Proof.
  induction s as [|y s IH]; intros Hn; cbn.
  - now rewrite String.eqb_refl.
  - destruct (String.eqb_spec x y) as [->|Hne].
    + exfalso. apply Hn. now left.
    + f_equal. apply IH. intros H. apply Hn. now right.
Qed.

(** *** Dictionaries *)


Lemma dict_get_set {V : Type} (d : dict V) k v k' :
  dict_get (dict_set d k v) k'
  = if String.eqb k k' then Some v else dict_get d k'.
Proof.
  induction d as [|[k0 v0] d IH]; cbn.
  - reflexivity.
  - destruct (String.eqb_spec k0 k) as [->|Hne]; cbn.
    + destruct (String.eqb_spec k k'); reflexivity.
    + rewrite IH. destruct (String.eqb_spec k0 k') as [->|Hne'].
      * destruct (String.eqb_spec k k'); [congruence|reflexivity].
      * reflexivity.
Qed.

Lemma getitem_set {V : Type} (d : dict V) k v k' dflt :
  getitem (dict_set d k v) k' dflt
  = if String.eqb k k' then v else getitem d k' dflt.
Proof.
  unfold getitem. rewrite dict_get_set.
  destruct (String.eqb k k'); reflexivity.
Qed.

Lemma dict_mem_keys {V : Type} (d : dict V) k :
  dict_mem d k = set_mem k (keys d).
Proof.
  unfold dict_mem. induction d as [|[k0 v0] d IH]; cbn; [reflexivity|].
  rewrite (String.eqb_sym k k0).
  destruct (String.eqb k0 k); cbn; [reflexivity|exact IH].
Qed.

Lemma keys_dict_set {V : Type} (d : dict V) k v :
  keys (dict_set d k v) = set_add k (keys d).
Proof.
  unfold set_add, keys. induction d as [|[k0 v0] d IH]; [reflexivity|].
  cbn [dict_set map fst]. rewrite set_mem_cons, (String.eqb_sym k k0).
  destruct (String.eqb k0 k) eqn:Hk; cbn [map fst orb]; [reflexivity|].
  rewrite IH. destruct (set_mem k (map fst d)); reflexivity.
Qed.

Lemma dict_set_same {V : Type} (d : dict V) k v :
  dict_get d k = Some v -> dict_set d k v = d.
Proof.
  induction d as [|[k0 v0] d IH]; cbn; [discriminate|].
  destruct (String.eqb k0 k); intros H.
  - now inversion H.
  - now rewrite IH.
Qed.

Lemma dict_get_None_keys {V : Type} (d : dict V) k :
  dict_get d k = None <-> ~ In k (keys d).
Proof.
  rewrite <- set_mem_false, <- dict_mem_keys. unfold dict_mem.
  destruct (dict_get d k); split; congruence.
Qed.


Lemma succs_add_endpoint g w u : succs (add_endpoint g w) u = succs g u.
Proof.
  unfold succs, add_endpoint. destruct (dict_mem (_succ g) w) eqn:Hm; cbn.
  - reflexivity.
  - rewrite getitem_set. destruct (String.eqb_spec w u) as [->|]; [|reflexivity].
    unfold getitem, dict_mem in *. destruct (dict_get (_succ g) u); congruence.
Qed.

Lemma preds_add_endpoint g w u :
  keys (_pred g) = keys (_succ g) ->
  preds (add_endpoint g w) u = preds g u.
Proof.
  intros Hk. unfold preds, add_endpoint.
  destruct (dict_mem (_succ g) w) eqn:Hm; cbn.
  - reflexivity.
  - rewrite getitem_set. destruct (String.eqb_spec w u) as [->|]; [|reflexivity].
    rewrite dict_mem_keys, <- Hk, <- dict_mem_keys in Hm.
    unfold getitem, dict_mem in *. destruct (dict_get (_pred g) u); congruence.
Qed.

Lemma node_add_endpoint g w :
  keys (_succ g) = _node g ->
  _node (add_endpoint g w) = set_add w (_node g).
Proof.
  intros Hk. unfold add_endpoint. rewrite dict_mem_keys, Hk.
  destruct (set_mem w (_node g)) eqn:Hm; cbn; [|reflexivity].
  symmetry. apply set_add_member. now apply set_mem_In.
Qed.

Lemma keys_add_endpoint g w :
  keys (_succ g) = _node g -> keys (_pred g) = _node g ->
  keys (_succ (add_endpoint g w)) = _node (add_endpoint g w)
  /\ keys (_pred (add_endpoint g w)) = _node (add_endpoint g w).
Proof.
  intros Hs Hp. unfold add_endpoint. rewrite dict_mem_keys.
  destruct (set_mem w (keys (_succ g))) eqn:Hm; cbn [_succ _pred _node];
    [tauto|].
  rewrite !keys_dict_set, Hs, Hp. tauto.
Qed.

Lemma succs_add_edge g u v x :
  succs (add_edge g u v) x
  = if String.eqb u x then set_add v (succs g u) else succs g x.
Proof.
  unfold add_edge, succs at 1. cbn. rewrite getitem_set.
  fold (succs (add_endpoint (add_endpoint g u) v) u).
  fold (succs (add_endpoint (add_endpoint g u) v) x).
  now rewrite !succs_add_endpoint.
Qed.

Lemma preds_add_edge g u v x :
  keys (_succ g) = _node g -> keys (_pred g) = _node g ->
  preds (add_edge g u v) x
  = if String.eqb v x then set_add u (preds g v) else preds g x.
Proof.
  intros Hs Hp. unfold add_edge, preds at 1. cbn. rewrite getitem_set.
  fold (preds (add_endpoint (add_endpoint g u) v) v).
  fold (preds (add_endpoint (add_endpoint g u) v) x).
  destruct (keys_add_endpoint g u Hs Hp) as [Hs1 Hp1].
  rewrite !(preds_add_endpoint (add_endpoint g u)) by congruence.
  rewrite !preds_add_endpoint by congruence. reflexivity.
Qed.

Lemma node_add_edge g u v :
  keys (_succ g) = _node g -> keys (_pred g) = _node g ->
  _node (add_edge g u v) = set_add v (set_add u (_node g)).
Proof.
  intros Hs Hp. unfold add_edge. cbn.
  destruct (keys_add_endpoint g u Hs Hp) as [Hs1 Hp1].
  rewrite node_add_endpoint by assumption.
  now rewrite node_add_endpoint by assumption.
Qed.

Lemma has_edge_add_edge g u v x y :
  has_edge (add_edge g u v) x y <-> has_edge g x y \/ (x = u /\ y = v).
Proof.
  unfold has_edge. rewrite succs_add_edge.
  destruct (String.eqb_spec u x) as [->|Hne].
  - rewrite set_add_In. intuition congruence.
  - intuition congruence.
Qed.

Lemma well_formed_empty : well_formed empty_graph.
Proof.
  constructor; cbn; try reflexivity; try (intros; constructor); try tauto.
Qed.

Lemma well_formed_add_edge g u v :
  well_formed g -> well_formed (add_edge g u v).
Proof.
  intros [Hs Hp Hn Hsn Hpn Hps Hend].
  assert (Hnode := node_add_edge g u v Hs Hp).
  assert (Hu : In u (_node (add_edge g u v))).
  { rewrite Hnode, !set_add_In. tauto. }
  assert (Hv : In v (_node (add_edge g u v))).
  { rewrite Hnode, !set_add_In. tauto. }
  destruct (keys_add_endpoint g u Hs Hp) as [Hs1 Hp1].
  destruct (keys_add_endpoint _ v Hs1 Hp1) as [Hs2 Hp2].
  constructor.
  - unfold add_edge in *. cbn [_succ _node] in *.
    rewrite keys_dict_set, Hs2. now apply set_add_member.
  - unfold add_edge in *. cbn [_pred _node] in *.
    rewrite keys_dict_set, Hp2. now apply set_add_member.
  - rewrite Hnode. now do 2 apply set_add_NoDup.
  - intros x. rewrite succs_add_edge.
    destruct (String.eqb u x); [apply set_add_NoDup|]; apply Hsn.
  - intros x. rewrite preds_add_edge by assumption.
    destruct (String.eqb v x); [apply set_add_NoDup|]; apply Hpn.
  - intros x y. rewrite preds_add_edge, succs_add_edge by assumption.
    destruct (String.eqb_spec v y) as [->|Hvy];
      destruct (String.eqb_spec u x) as [->|Hux];
      rewrite ?set_add_In, ?Hps; intuition congruence.
  - intros x y Hxy. apply (has_edge_add_edge g u v x y) in Hxy.
    rewrite Hnode, !set_add_In.
    destruct Hxy as [Hxy|[-> ->]]; [|tauto].
    apply Hend in Hxy. tauto.
Qed.


Lemma add_edges_cons g e es :
  add_edges g (e :: es) = add_edges (add_edge g (fst e) (snd e)) es.
Proof. reflexivity. Qed.

Lemma add_edges_app g es1 es2 :
  add_edges g (es1 ++ es2) = add_edges (add_edges g es1) es2.
Proof. apply fold_left_app. Qed.

Lemma well_formed_add_edges es : forall g,
  well_formed g -> well_formed (add_edges g es).
Proof.
  induction es as [|e es IH]; intros g Hg; [assumption|].
  rewrite add_edges_cons. apply IH. now apply well_formed_add_edge.
Qed.

Lemma well_formed_graph_of es : well_formed (graph_of es).
Proof. apply (well_formed_add_edges es), well_formed_empty. Qed.

Lemma has_edge_add_edges es : forall g u v,
  has_edge (add_edges g es) u v <-> has_edge g u v \/ In (u, v) es.
Proof.
  induction es as [|[a b] es IH]; intros g u v; [cbn; tauto|].
  rewrite add_edges_cons, IH, has_edge_add_edge. cbn.
  split; intros H; intuition (try congruence).
Qed.

Lemma has_edge_graph_of es u v :
  has_edge (graph_of es) u v <-> In (u, v) es.
Proof.
  unfold graph_of. rewrite has_edge_add_edges. unfold has_edge, succs. cbn. tauto.
Qed.

Lemma getitem_get {V : Type} (d : dict V) k dflt :
  In k (keys d) -> dict_get d k = Some (getitem d k dflt).
Proof.
  intros H. unfold getitem. destruct (dict_get d k) eqn:Hg; [reflexivity|].
  apply dict_get_None_keys in Hg. contradiction.
Qed.

Lemma add_endpoint_member g u :
  keys (_succ g) = _node g -> In u (_node g) -> add_endpoint g u = g.
Proof.
  intros Hs Hu. unfold add_endpoint. rewrite dict_mem_keys, Hs.
  apply set_mem_In in Hu. now rewrite Hu.
Qed.

(** Adding an edge that is there changes nothing. *)
Lemma add_edge_absorb g u v :
  well_formed g -> has_edge g u v -> add_edge g u v = g.
Proof.
  intros Hwf Huv. destruct (wf_endpoints g Hwf u v Huv) as [Hu Hv].
  unfold add_edge.
  rewrite (add_endpoint_member g u (wf_succ_keys g Hwf) Hu).
  rewrite (add_endpoint_member g v (wf_succ_keys g Hwf) Hv).
  assert (H1 : dict_set (_succ g) u (set_add v (getitem (_succ g) u []))
               = _succ g).
  { apply dict_set_same. rewrite set_add_member by exact Huv.
    apply getitem_get. now rewrite (wf_succ_keys g Hwf). }
  assert (H2 : dict_set (_pred g) v (set_add u (getitem (_pred g) v []))
               = _pred g).
  { apply dict_set_same.
    rewrite set_add_member by (now apply (wf_pred_succ g Hwf)).
    apply getitem_get. now rewrite (wf_pred_keys g Hwf). }
  rewrite H1, H2. now destruct g.
Qed.

Lemma add_edges_absorb es : forall g,
  well_formed g -> (forall u v, In (u, v) es -> has_edge g u v) ->
  add_edges g es = g.
Proof.
  induction es as [|[a b] es IH]; intros g Hwf Hin; [reflexivity|].
  rewrite add_edges_cons. cbn [fst snd]. rewrite add_edge_absorb; auto.
  - apply IH; auto. intros u v H. apply Hin. now right.
  - apply Hin. now left.
Qed.

Lemma graph_of_snoc es e :
  graph_of (es ++ [e]) = add_edge (graph_of es) (fst e) (snd e).
Proof. unfold graph_of. now rewrite add_edges_app. Qed.

(** Only the first call for each pair matters. *)
Lemma graph_of_first_calls es : graph_of (first_calls es) = graph_of es.
Proof.
  unfold first_calls. rewrite <- (rev_involutive es) at 2.
  induction (List.rev es) as [|e l IH]; [reflexivity|].
  cbn [nodup List.rev]. rewrite graph_of_snoc.
  destruct (in_dec pair_dec e l) as [Hin|Hin].
  - rewrite IH. symmetry. destruct e as [u v]. apply add_edge_absorb.
    + apply well_formed_graph_of.
    + apply has_edge_graph_of. now apply in_rev in Hin.
  - cbn [List.rev]. now rewrite graph_of_snoc, IH.
Qed.

Lemma first_calls_spec es :
  NoDup (first_calls es) /\ forall e, In e (first_calls es) <-> In e es.
Proof.
  unfold first_calls. split.
  - apply NoDup_rev, NoDup_nodup.
  - intros e. now rewrite <- in_rev, nodup_In, <- in_rev.
Qed.

Lemma first_calls_snoc es e :
  first_calls (es ++ [e])
  = if in_dec pair_dec e es then first_calls es else first_calls es ++ [e].
Proof.
  unfold first_calls. rewrite rev_app_distr.
  change (List.rev [e] ++ List.rev es) with (e :: List.rev es).
  cbn [nodup].
  destruct (in_dec pair_dec e (List.rev es)) as [H|H];
    destruct (in_dec pair_dec e es) as [H'|H']; try reflexivity.
  - exfalso. apply H'. now apply in_rev.
  - exfalso. apply H. now apply in_rev in H'.
Qed.

Lemma total_len_cons {A : Type} k (v : list A) d :
  total_len ((k, v) :: d) = List.length v + total_len d.
Proof. reflexivity. Qed.

Lemma number_of_edges_total g : number_of_edges g = total_len (_succ g).
Proof. reflexivity. Qed.

Lemma total_len_set_old {A : Type} (d : dict (list A)) k v old :
  dict_get d k = Some old ->
  total_len (dict_set d k v) + List.length old = total_len d + List.length v.
Proof.
  induction d as [|[k0 v0] d IH]; cbn [dict_get dict_set]; [discriminate|].
  destruct (String.eqb k0 k); rewrite !total_len_cons.
  - intros [= ->]. lia.
  - intros H. specialize (IH H). lia.
Qed.

Lemma total_len_set_new {A : Type} (d : dict (list A)) k v :
  dict_get d k = None ->
  total_len (dict_set d k v) = total_len d + List.length v.
Proof.
  induction d as [|[k0 v0] d IH]; cbn [dict_get dict_set].
  - intros _. rewrite total_len_cons. apply Nat.add_comm.
  - destruct (String.eqb k0 k); [discriminate|].
    intros H. specialize (IH H). rewrite !total_len_cons. lia.
Qed.

Lemma number_of_edges_add_endpoint g w :
  number_of_edges (add_endpoint g w) = number_of_edges g.
Proof.
  unfold add_endpoint, dict_mem.
  destruct (dict_get (_succ g) w) eqn:Hg; [reflexivity|].
  rewrite !number_of_edges_total. cbn [_succ].
  rewrite total_len_set_new by assumption. cbn. lia.
Qed.

Lemma succ_key_add_endpoint g w x :
  In x (keys (_succ (add_endpoint g w)))
  <-> x = w \/ In x (keys (_succ g)).
Proof.
  unfold add_endpoint. rewrite dict_mem_keys.
  destruct (set_mem w (keys (_succ g))) eqn:Hm; cbn [_succ].
  - apply set_mem_In in Hm. split; [tauto|]. intros [->|H]; assumption.
  - rewrite keys_dict_set. apply set_add_In.
Qed.

Lemma length_set_add x l :
  List.length (set_add x l)
  = List.length l + (if in_dec string_dec x l then 0 else 1).
Proof.
  destruct (in_dec string_dec x l) as [H|H].
  - rewrite set_add_member by assumption. lia.
  - rewrite set_add_fresh by assumption. rewrite length_app. reflexivity.
Qed.

(** A new edge counts once, an old one not at all. *)
Lemma number_of_edges_add_edge g u v :
  number_of_edges (add_edge g u v)
  = number_of_edges g + (if in_dec string_dec v (succs g u) then 0 else 1).
Proof.
  rewrite <- (number_of_edges_add_endpoint g u).
  rewrite <- (number_of_edges_add_endpoint (add_endpoint g u) v).
  rewrite <- (succs_add_endpoint g u u).
  rewrite <- (succs_add_endpoint (add_endpoint g u) v u).
  set (g2 := add_endpoint (add_endpoint g u) v).
  assert (Hkey : In u (keys (_succ g2))).
  { apply succ_key_add_endpoint. right. apply succ_key_add_endpoint. now left. }
  pose proof (getitem_get (_succ g2) u [] Hkey) as Hget.
  rewrite !number_of_edges_total. unfold add_edge. fold g2. cbn [_succ].
  pose proof (total_len_set_old (_succ g2) u
                (set_add v (getitem (_succ g2) u [])) _ Hget) as H.
  rewrite length_set_add in H. unfold succs. lia.
Qed.

(** The edge count is the number of distinct pairs added. *)
Lemma number_of_edges_graph_of es :
  number_of_edges (graph_of es) = List.length (first_calls es).
Proof.
  induction es as [|e es IH] using rev_ind; [reflexivity|].
  rewrite graph_of_snoc, number_of_edges_add_edge, first_calls_snoc, IH.
  destruct e as [u v]. cbn [fst snd].
  destruct (in_dec string_dec v (succs (graph_of es) u)) as [H|H];
    destruct (in_dec pair_dec (u, v) es) as [H'|H'].
  - lia.
  - exfalso. apply H'. now apply has_edge_graph_of.
  - exfalso. apply H. now apply has_edge_graph_of.
  - rewrite length_app. reflexivity.
Qed.

End NxFacts.

(** ** Graph construction from a directory tree *)

Module BuildFacts.
Import PyStr Extractor Nx NxSpec App BuildSpec NxFacts.


Lemma fold_add_imports file imports : forall g,
  fold_left (fun g imp => add_edge g file imp) imports g
  = add_edges g (map (pair file) imports).
Proof.
  induction imports as [|i imports IH]; intros g; [reflexivity|].
  cbn [fold_left map]. rewrite add_edges_cons. apply IH.
Qed.

Lemma scan_file_edges fs root g file :
  scan_file fs root (Ok g) file
  = es <- file_edges fs root file ;; Ok (add_edges g es).
Proof.
  unfold scan_file, file_edges. cbn [bind].
  destruct (endswith file ".py"); [|reflexivity].
  destruct (parse_imports fs (os_path_join root file)); cbn [bind];
    [|reflexivity].
  now rewrite fold_add_imports.
Qed.

Lemma scan_files_raise fs root files e :
  fold_left (scan_file fs root) files (Raise e) = Raise e.
Proof. induction files; cbn; auto. Qed.

Lemma scan_files_edges fs root files : forall g,
  fold_left (scan_file fs root) files (Ok g)
  = es <- collect (file_edges fs root) files ;; Ok (add_edges g es).
Proof.
  induction files as [|f files IH]; intros g; [reflexivity|].
  cbn [fold_left collect]. rewrite scan_file_edges.
  destruct (file_edges fs root f) as [es|e]; cbn [bind].
  - rewrite IH. destruct (collect (file_edges fs root) files); cbn [bind];
      [|reflexivity].
    now rewrite add_edges_app.
  - apply scan_files_raise.
Qed.

Lemma scan_dirs_raise fs ws e :
  fold_left (scan_dir fs) ws (Raise e) = Raise e.
Proof.
  induction ws as [|[[root dirs] files] ws IH]; cbn; [reflexivity|].
  now rewrite scan_files_raise.
Qed.

Lemma scan_dirs_edges fs ws : forall g,
  fold_left (scan_dir fs) ws (Ok g)
  = es <- collect (dir_edges fs) ws ;; Ok (add_edges g es).
Proof.
  induction ws as [|[[root dirs] files] ws IH]; intros g; [reflexivity|].
  cbn [fold_left collect scan_dir]. unfold dir_edges at 1. cbn [fst snd].
  rewrite scan_files_edges.
  destruct (collect (file_edges fs root) files) as [es|e]; cbn [bind].
  - rewrite IH. destruct (collect (dir_edges fs) ws); cbn [bind];
      [|reflexivity].
    now rewrite add_edges_app.
  - apply scan_dirs_raise.
Qed.

Lemma build_into_edges fs path g :
  build_into fs path g
  = es <- import_edges fs path ;; Ok (add_edges g es).
Proof. apply scan_dirs_edges. Qed.

Lemma build_import_graph_edges fs path :
  build_import_graph fs path
  = es <- import_edges fs path ;; Ok (graph_of es).
Proof. apply build_into_edges. Qed.

Lemma collect_In {A B : Type} (f : A -> result (list B)) l : forall es x,
  collect f l = Ok es ->
  (In x es <-> exists a ea, In a l /\ f a = Ok ea /\ In x ea).
Proof.
  induction l as [|a l IH]; intros es x; cbn.
  - intros [= <-]. split; [intros []|intros (? & ? & [] & _)].
  - destruct (f a) as [ea|] eqn:Ha; cbn; [|discriminate].
    destruct (collect f l) as [el|] eqn:Hl; cbn; [|discriminate].
    intros [= <-]. rewrite in_app_iff, (IH el x eq_refl). split.
    + intros [H|(a' & ea' & H1 & H2 & H3)].
      * exists a, ea. tauto.
      * exists a', ea'. tauto.
    + intros (a' & ea' & [<-|H1] & H2 & H3).
      * left. congruence.
      * right. exists a', ea'. tauto.
Qed.

Lemma collect_raise {A B : Type} (f : A -> result (list B)) l a e :
  In a l -> f a = Raise e ->
  exists a' e', In a' l /\ f a' = Raise e' /\ collect f l = Raise e'.
Proof.
  induction l as [|b l IH]; intros Hin Hf; [destruct Hin|].
  cbn. destruct (f b) as [eb|e'] eqn:Hb; cbn.
  - destruct Hin as [->|Hin]; [congruence|].
    destruct (IH Hin Hf) as (a' & e' & H1 & H2 & H3).
    exists a', e'. rewrite H3. cbn. split; [now right|]. split; auto.
  - exists b, e'. split; [now left|]. split; auto.
Qed.

Lemma collect_nil {A B : Type} (f : A -> result (list B)) l :
  (forall a, In a l -> f a = Ok []) -> collect f l = Ok [].
Proof.
  induction l as [|a l IH]; intros H; cbn; [reflexivity|].
  rewrite (H a) by now left. cbn. rewrite IH; [reflexivity|].
  intros b Hb. apply H. now right.
Qed.

(** Where an edge of a build comes from. *)
Lemma import_edges_origin fs path es u v :
  import_edges fs path = Ok es -> In (u, v) es ->
  endswith u ".py" = true
  /\ exists root dirs files imports,
       In (root, dirs, files) (os_walk fs path) /\ In u files
       /\ parse_imports fs (os_path_join root u) = Ok imports
       /\ In v imports.
Proof.
  intros Hes Hin. unfold import_edges in Hes.
  apply (collect_In _ _ _ (u, v) Hes) in Hin.
  destruct Hin as ([[root dirs] files] & ed & Hw & Hd & Hin).
  unfold dir_edges in Hd. cbn [fst snd] in Hd.
  apply (collect_In _ _ _ (u, v) Hd) in Hin.
  destruct Hin as (file & ef & Hf & Hfe & Hin).
  unfold file_edges in Hfe.
  destruct (endswith file ".py") eqn:Hpy; [|inversion Hfe; subst; destruct Hin].
  destruct (parse_imports fs (os_path_join root file)) as [imports|] eqn:Hp;
    cbn in Hfe; [|discriminate].
  inversion Hfe; subst. apply in_map_iff in Hin.
  destruct Hin as (imp & [= <- <-] & Himp).
  split; [assumption|]. exists root, dirs, files, imports. tauto.
Qed.

Lemma collect_member_ok {A B : Type} (f : A -> result (list B)) l es a :
  collect f l = Ok es -> In a l -> exists ea, f a = Ok ea.
Proof.
  intros Hc Hin. destruct (f a) as [ea|e] eqn:Hfa; [eauto|].
  destruct (collect_raise f l a e Hin Hfa) as (a' & e' & _ & _ & Hr).
  congruence.
Qed.

(** Conversely, every extracted name is an edge from the base name of its
    file. *)
Lemma extracts_edge fs path es file imp :
  import_edges fs path = Ok es -> extracts fs path file imp -> In (file, imp) es.
Proof.
  intros Hes (root & dirs & files & imports & Hw & Hf & Hpy & Hp & Hin).
  unfold import_edges in Hes.
  destruct (collect_member_ok _ _ _ _ Hes Hw) as [ed Hd].
  apply (collect_In _ _ _ (file, imp) Hes).
  exists (root, dirs, files), ed. split; [assumption|]. split; [assumption|].
  unfold dir_edges in Hd. cbn [fst snd] in Hd.
  apply (collect_In _ _ _ (file, imp) Hd).
  exists file, (map (pair file) imports). split; [assumption|]. split.
  - unfold file_edges. now rewrite Hpy, Hp.
  - now apply in_map.
Qed.

Lemma import_edges_extracts fs path es u v :
  import_edges fs path = Ok es -> (In (u, v) es <-> extracts fs path u v).
Proof.
  intros Hes. split; [|now apply extracts_edge].
  intros Hin. destruct (import_edges_origin fs path es u v Hes Hin)
    as (Hpy & root & dirs & files & imports & H1 & H2 & H3 & H4).
  exists root, dirs, files, imports. tauto.
Qed.

End BuildFacts.

(** ** Properties of the build and of the critical-node list *)

Module AppFacts.
Import PyStr Extractor Nx NxSpec App BuildSpec Fixtures.
Import ExtractorFacts NxFacts BuildFacts.

(** C7. A line that reads [import os, sys] once stripped contributes
    exactly ["os,"]: the second whitespace token, comma included; [sys] is
    not extracted.  A file made of that line, with or without its line
    end, yields [["os,"]]. *)
Theorem comma_import_not_split :
  (forall imports line,
      strip line = comma_import ->
      parse_line imports line = imports ++ ["os,"])
  /\ (forall fs path,
        open_read fs path = Ok comma_import ->
        parse_imports fs path = Ok ["os,"])
  /\ (forall fs path,
        open_read fs path
        = Ok (comma_import ++ String CR (String LF ""))%string ->
        parse_imports fs path = Ok ["os,"]).
Proof.
  split; [|split].
  - intros imports line Hline. unfold parse_line. now rewrite Hline.
  - intros fs path Hopen. unfold parse_imports. now rewrite Hopen.
  - intros fs path Hopen. unfold parse_imports. now rewrite Hopen.
Qed.

Lemma comma_import_not_split_witness :
  open_read (one_file "m.py" comma_import) "m.py" = Ok comma_import
  /\ parse_imports (one_file "m.py" comma_import) "m.py" = Ok ["os,"].
Proof.
  split; [reflexivity|].
  apply (proj1 (proj2 comma_import_not_split)
           (one_file "m.py" comma_import) "m.py").
  reflexivity.
Defined.

Lemma parse_imports_contract_witness :
  trimmed "  import os  " "import os"
  /\ parse_line [] "  import os  " = ["os"]
  /\ parse_imports (one_file "m.py" two_imports) "m.py" = Ok ["os"; "a.b"]
  /\ parse_imports (one_file "m.py" indented_imports) "m.py"
     = Ok ["os"; "sys"; "a.b"; "json"].
Proof.
  destruct parse_imports_contract as (_ & Ht & Hline & _ & Htwo & _ & Hind).
  assert (H : trimmed "  import os  " "import os")
    by (apply (proj2 (Ht _ _)); reflexivity).
  split; [exact H|]. split; [exact (Hline [] _ _ H)|].
  split; [apply Htwo|apply Hind]; reflexivity.
Defined.

Lemma file_edges_error fs root file e :
  file_edges fs root file = Raise e ->
  endswith file ".py" = true
  /\ open_read fs (os_path_join root file) = Raise e.
Proof.
  unfold file_edges, parse_imports.
  destruct (endswith file ".py"); [|discriminate].
  destruct (open_read fs (os_path_join root file)) eqn:Ho; cbn; [discriminate|].
  intros [= <-]. auto.
Qed.

Lemma collect_raise_inv {A B : Type} (f : A -> result (list B)) l e :
  collect f l = Raise e -> exists a, In a l /\ f a = Raise e.
Proof.
  induction l as [|a l IH]; cbn; [discriminate|].
  destruct (f a) as [x|e'] eqn:Ha; cbn.
  - destruct (collect f l) as [y|e''] eqn:Hl; cbn; [discriminate|].
    intros [= <-]. destruct (IH eq_refl) as (a' & H1 & H2).
    exists a'. split; [now right|assumption].
  - intros [= <-]. exists a. split; [now left|assumption].
Qed.

Lemma import_edges_error fs path e :
  import_edges fs path = Raise e ->
  exists p, open_read fs p = Raise e.
Proof.
  intros H. apply collect_raise_inv in H. destruct H as ([[root dirs] files] & _ & Hw).
  apply collect_raise_inv in Hw. destruct Hw as (file & _ & Hf).
  apply file_edges_error in Hf. exists (os_path_join root file). apply Hf.
Qed.

(** C5. When no file under the root ends in [".py"], the build returns the
    empty graph: zero nodes and zero edges.  Its summary gives both counts
    as 0 and ends with ["No circular dependencies found."], with no
    exception on the way, also through the [/] route. *)
Theorem empty_codebase_summary :
  forall fs path,
    no_sources fs path ->
    build_import_graph fs path = Ok empty_graph
    /\ number_of_nodes empty_graph = 0
    /\ number_of_edges empty_graph = 0
    /\ insight_lines empty_graph = Ok summary_of_nothing
    /\ draw_insights empty_graph
       = Ok (join (String LF EmptyString) summary_of_nothing)
    /\ (path = codebase_path ->
        forall render,
          index render fs
          = render "index.html"
              (join (String LF EmptyString) summary_of_nothing)).
Proof.
  intros fs path Hno.
  assert (Hb : build_import_graph fs path = Ok empty_graph).
  { rewrite build_import_graph_edges. unfold import_edges.
    rewrite collect_nil; [reflexivity|].
    intros [[root dirs] files] Hw. unfold dir_edges. cbn [fst snd].
    apply collect_nil. intros file Hf. unfold file_edges.
    now rewrite (Hno root dirs files file Hw Hf). }
  repeat split; try assumption; try reflexivity.
  intros -> render. unfold index. rewrite Hb. reflexivity.
Qed.

Lemma empty_codebase_summary_witness :
  no_sources no_python codebase_path
  /\ build_import_graph no_python codebase_path = Ok empty_graph.
Proof.
  assert (H : no_sources no_python codebase_path).
  { intros root dirs files file Hw Hf. cbn in Hw.
    destruct Hw as [[= <- <- <-]|[[= <- <- <-]|[]]].
    - destruct Hf as [<-|[]]. reflexivity.
    - destruct Hf. }
  split; [exact H|].
  exact (proj1 (empty_codebase_summary no_python codebase_path H)).
Defined.

(** C8. If opening or reading a file whose name ends in [".py"] raises,
    whatever the exception ([OSError], [UnicodeDecodeError]), the build
    raises the exception of an unreadable file, whatever was scanned
    before it: there is no graph, from an empty start or from any other,
    and the [/] route raises the same exception instead of a summary. *)
Theorem read_failure_aborts :
  forall fs path root dirs files file e0,
    In (root, dirs, files) (os_walk fs path) ->
    In file files ->
    endswith file ".py" = true ->
    open_read fs (os_path_join root file) = Raise e0 ->
    exists p e,
      open_read fs p = Raise e
      /\ build_import_graph fs path = Raise e
      /\ (forall g, build_into fs path g = Raise e)
      /\ (path = codebase_path ->
          forall render, index render fs = Raise e).
Proof.
  intros fs path root dirs files file e0 Hw Hf Hpy Hopen.
  assert (Hfile : file_edges fs root file = Raise e0).
  { unfold file_edges, parse_imports. now rewrite Hpy, Hopen. }
  destruct (collect_raise _ _ _ _ Hf Hfile) as (f' & e' & _ & _ & Hdir).
  assert (Hd : dir_edges fs (root, dirs, files) = Raise e') by exact Hdir.
  destruct (collect_raise _ _ _ _ Hw Hd) as (w' & e & _ & _ & Hall).
  change (import_edges fs path = Raise e) in Hall.
  destruct (import_edges_error _ _ _ Hall) as (p & Hp).
  exists p, e. split; [assumption|].
  assert (Hg : forall g, build_into fs path g = Raise e).
  { intros g. rewrite build_into_edges, Hall. reflexivity. }
  split; [apply Hg|]. split; [exact Hg|].
  intros -> render. unfold index, build_import_graph. rewrite Hg. reflexivity.
Qed.

Lemma read_failure_aborts_witness :
  exists p e,
    open_read unreadable_b p = Raise e
    /\ build_import_graph unreadable_b codebase_path = Raise e
    /\ (forall g, build_into unreadable_b codebase_path g = Raise e)
    /\ (codebase_path = codebase_path ->
        forall render, index render unreadable_b = Raise e).
Proof.
  apply (read_failure_aborts unreadable_b codebase_path
           "./example-codebase" [] ["a.py"; "b.py"] "b.py"
           (OSError "./example-codebase/b.py")).
  - left. reflexivity.
  - right. left. reflexivity.
  - reflexivity.
  - reflexivity.
Defined.

End AppFacts.

(** ** The depth-first search *)

Module DfsFacts.
Import Nx NxSpec NxFacts.

Lemma edge_seen_In id s : edge_seen id s = true <-> In id s.
Proof.
  unfold edge_seen. rewrite existsb_exists. split.
  - intros [[a b] [Hin Heq]]. destruct id as [x y]. unfold pair_eqb in Heq.
    cbn in Heq. apply andb_true_iff in Heq. destruct Heq as [H1 H2].
    apply String.eqb_eq in H1, H2. now subst.
  - intros H. exists id. split; [assumption|]. unfold pair_eqb.
    now rewrite !String.eqb_refl.
Qed.

Lemma dfs_loop_unfold fuel g st :
  dfs_loop (S fuel) g st =
  match stack st with
  | [] => Ok []
  | current_node :: below =>
      let st1 := dfs_visit g st current_node in
      match getitem (edges st1) current_node [] with
      | [] =>
          dfs_loop fuel g
            {| stack := below;
               visited_edges := visited_edges st1;
               visited_nodes := visited_nodes st1;
               edges := edges st1 |}
      | e :: rest =>
          let its := dict_set (edges st1) current_node rest in
          if edge_seen (edge_id e) (visited_edges st1)
          then dfs_loop fuel g
                 {| stack := stack st1;
                    visited_edges := visited_edges st1;
                    visited_nodes := visited_nodes st1;
                    edges := its |}
          else
            ys <- dfs_loop fuel g
                    {| stack := edge_head e :: stack st1;
                       visited_edges := visited_edges st1 ++ [edge_id e];
                       visited_nodes := visited_nodes st1;
                       edges := its |} ;;
            Ok (e :: ys)
      end
  end.
Proof. reflexivity. Qed.

Lemma stack_dfs_visit g st n : stack (dfs_visit g st n) = stack st.
Proof. unfold dfs_visit. now destruct (set_mem n (visited_nodes st)). Qed.

Lemma visited_edges_dfs_visit g st n :
  visited_edges (dfs_visit g st n) = visited_edges st.
Proof. unfold dfs_visit. now destruct (set_mem n (visited_nodes st)). Qed.

Lemma visited_nodes_dfs_visit g st n x :
  In x (visited_nodes (dfs_visit g st n)) <-> x = n \/ In x (visited_nodes st).
Proof.
  unfold dfs_visit. destruct (set_mem n (visited_nodes st)) eqn:Hm; cbn.
  - apply set_mem_In in Hm. split; [tauto|]. intros [->|H]; assumption.
  - apply set_add_In.
Qed.

(** *** Termination *)

Lemma total_len_set_le {A : Type} (d : dict (list A)) k v :
  total_len (dict_set d k v) <= total_len d + List.length v.
Proof.
  induction d as [|[k0 v0] d IH]; cbn [dict_set].
  - rewrite total_len_cons. lia.
  - destruct (String.eqb k0 k); rewrite !total_len_cons; lia.
Qed.

Lemma total_len_consume {A : Type} (d : dict (list A)) k e rest :
  getitem d k [] = e :: rest ->
  S (total_len (dict_set d k rest)) = total_len d.
Proof.
  unfold getitem. induction d as [|[k0 v0] d IH]; cbn [dict_set dict_get];
    [discriminate|].
  destruct (String.eqb k0 k); rewrite !total_len_cons.
  - intros ->. cbn [List.length]. lia.
  - intros H. rewrite <- (IH H). lia.
Qed.

Lemma unvisited_out_cons k (v : list string) d vis :
  unvisited_out ((k, v) :: d) vis
  = (if set_mem k vis then 0 else List.length v) + unvisited_out d vis.
Proof. reflexivity. Qed.

Lemma unvisited_out_visit d vis cur :
  ~ In cur vis ->
  unvisited_out d (set_add cur vis) + List.length (getitem d cur [])
  <= unvisited_out d vis.
Proof.
  intros Hn. rewrite set_add_fresh by assumption.
  assert (Hmem : forall k, set_mem k (vis ++ [cur])
                           = set_mem k vis || String.eqb k cur).
  { intros k. unfold set_mem. rewrite existsb_app. cbn. now rewrite orb_false_r. }
  assert (Hle : forall d', unvisited_out d' (vis ++ [cur])
                           <= unvisited_out d' vis).
  { induction d' as [|[k0 v0] d' IH]; [apply Nat.le_refl|].
    rewrite !unvisited_out_cons, Hmem.
    destruct (set_mem k0 vis); cbn [orb]; [lia|].
    destruct (String.eqb k0 cur); lia. }
  unfold getitem. induction d as [|[k0 v0] d IH]; [apply Nat.le_refl|].
  cbn [dict_get]. rewrite !unvisited_out_cons, Hmem.
  destruct (String.eqb_spec k0 cur) as [->|Hne].
  - apply set_mem_false in Hn. rewrite Hn. cbn [orb]. specialize (Hle d). lia.
  - rewrite orb_false_r. destruct (set_mem k0 vis); lia.
Qed.

Lemma dfs_visit_measure g st n :
  dfs_measure g (dfs_visit g st n) <= dfs_measure g st.
Proof.
  unfold dfs_measure. rewrite stack_dfs_visit. unfold dfs_visit.
  destruct (set_mem n (visited_nodes st)) eqn:Hm; [lia|].
  apply set_mem_false in Hm. unfold pending. cbn [edges visited_nodes].
  pose proof (total_len_set_le (edges st) n (edges_from g n)) as H1.
  pose proof (unvisited_out_visit (_succ g) (visited_nodes st) n Hm) as H2.
  unfold edges_from in H1 at 2. rewrite length_map in H1. lia.
Qed.

Lemma dfs_loop_terminates g : forall fuel st,
  dfs_measure g st < fuel -> exists ys, dfs_loop fuel g st = Ok ys.
Proof.
  induction fuel as [|fuel IH]; intros st Hlt; [lia|].
  rewrite dfs_loop_unfold. destruct (stack st) as [|cur below] eqn:Hstk.
  - eauto.
  - pose proof (dfs_visit_measure g st cur) as Hv.
    pose proof (stack_dfs_visit g st cur) as Hs.
    cbn zeta. generalize dependent (dfs_visit g st cur). intros st1 Hv Hs.
    unfold dfs_measure, pending in Hlt, Hv. rewrite Hs, Hstk in *.
    cbn [List.length] in Hlt, Hv.
    destruct (getitem (edges st1) cur []) as [|e rest] eqn:Hit.
    + apply IH. unfold dfs_measure, pending. cbn [stack edges visited_nodes].
      clear - Hlt Hv. lia.
    + pose proof (total_len_consume _ _ _ _ Hit) as Hc.
      destruct (edge_seen (edge_id e) (visited_edges st1)).
      * apply IH. unfold dfs_measure, pending.
        cbn [stack edges visited_nodes List.length].
        clear - Hlt Hv Hc. lia.
      * destruct (IH {| stack := edge_head e :: cur :: below;
                        visited_edges := visited_edges st1 ++ [edge_id e];
                        visited_nodes := visited_nodes st1;
                        edges := dict_set (edges st1) cur rest |}) as [ys Hys].
        { unfold dfs_measure, pending.
          cbn [stack edges visited_nodes List.length].
          clear - Hlt Hv Hc. lia. }
        rewrite Hys. cbn. eauto.
Qed.

Lemma unvisited_out_nil d : unvisited_out d [] = total_len d.
Proof.
  induction d as [|[k v] d IH]; [reflexivity|].
  rewrite unvisited_out_cons, total_len_cons, IH. reflexivity.
Qed.

(** [edge_dfs] always gives its list of edges: the budget is never spent. *)
Lemma edge_dfs_total g source : exists ys, edge_dfs g source = Ok ys.
Proof.
  apply dfs_loop_terminates. unfold dfs_measure, dfs_budget, pending.
  cbn [dfs_start stack edges visited_nodes List.length].
  rewrite unvisited_out_nil. unfold number_of_edges, total_len.
  cbn [map list_sum fold_right]. lia.
Qed.

(** *** What the yielded edges are *)

Lemma iter_dfs_visit g st cur n :
  iter (dfs_visit g st cur) n
  = if set_mem cur (visited_nodes st) then iter st n
    else if String.eqb cur n then edges_from g cur else iter st n.
Proof.
  unfold dfs_visit, iter. destruct (set_mem cur (visited_nodes st));
    [reflexivity|].
  cbn [edges]. apply getitem_set.
Qed.

Lemma edges_from_In g n e :
  In e (edges_from g n) <-> exists m, e = (n, m, forward) /\ has_edge g n m.
Proof.
  unfold edges_from, has_edge, succs. rewrite in_map_iff.
  split; intros (m & H1 & H2); exists m; auto.
Qed.

Lemma dfs_visit_inv g st cur :
  dfs_inv g st -> In cur (stack st) -> dfs_inv g (dfs_visit g st cur).
Proof.
  intros [Hshape Hout Hdone] Hcur.
  constructor.
  - intros n e. rewrite iter_dfs_visit.
    destruct (set_mem cur (visited_nodes st)); [apply Hshape|].
    destruct (String.eqb_spec cur n) as [->|Hne]; [|apply Hshape].
    apply edges_from_In.
  - intros n m Hn Hnm. rewrite visited_edges_dfs_visit, iter_dfs_visit.
    apply visited_nodes_dfs_visit in Hn.
    destruct (set_mem cur (visited_nodes st)) eqn:Hm.
    + apply set_mem_In in Hm. apply Hout; [|assumption].
      destruct Hn as [->|Hn]; assumption.
    + destruct (String.eqb_spec cur n) as [->|Hne].
      * right. apply edges_from_In. eauto.
      * apply Hout; [|assumption]. destruct Hn as [->|Hn]; [congruence|assumption].
  - intros n Hn Hns. rewrite stack_dfs_visit in Hns. rewrite iter_dfs_visit.
    apply visited_nodes_dfs_visit in Hn.
    destruct (set_mem cur (visited_nodes st)) eqn:Hm.
    + apply set_mem_In in Hm. apply Hdone; [|assumption].
      destruct Hn as [->|Hn]; assumption.
    + destruct (String.eqb_spec cur n) as [->|Hne]; [contradiction|].
      apply Hdone; [|assumption]. destruct Hn as [->|Hn]; [congruence|assumption].
Qed.

Lemma trace_weaken g x V stk ys :
  (forall m, has_edge g x m -> In (x, m) V) ->
  trace g V stk ys -> trace g V (x :: stk) ys.
Proof.
  intros Hx H. destruct H as [V stk Hall|V stk popped t below h ys Hstk Hth Hp Hys].
  - constructor. intros n m [<-|Hn]; auto.
  - apply (trace_cons g V (x :: stk) (x :: popped) t below h ys); auto.
    + now rewrite Hstk.
    + intros n m [<-|Hn]; auto.
Qed.

Lemma iter_consume st cur rest n vs ve vn :
  iter {| stack := vs; visited_edges := ve; visited_nodes := vn;
          edges := dict_set (edges st) cur rest |} n
  = if String.eqb cur n then rest else iter st n.
Proof. unfold iter. cbn [edges]. apply getitem_set. Qed.

(** The three ways the loop goes on keep the invariant. *)
Lemma dfs_inv_pop g st cur below :
  dfs_inv g st -> stack st = cur :: below -> iter st cur = [] ->
  dfs_inv g {| stack := below;
               visited_edges := visited_edges st;
               visited_nodes := visited_nodes st;
               edges := edges st |}.
Proof.
  intros [Hshape Hout Hdone] Hs Hit.
  constructor; cbn [stack visited_edges visited_nodes]; auto.
  intros n Hn Hns. destruct (String.eqb_spec cur n) as [<-|Hne]; [exact Hit|].
  apply Hdone; [assumption|]. rewrite Hs. intros [H|H]; auto.
Qed.

Lemma dfs_inv_taken g st cur m0 rest stk :
  dfs_inv g st -> In cur (stack st) ->
  iter st cur = (cur, m0, forward) :: rest ->
  In (cur, m0) (visited_edges st) ->
  (forall n, In n (stack st) -> In n stk) ->
  dfs_inv g {| stack := stk;
               visited_edges := visited_edges st;
               visited_nodes := visited_nodes st;
               edges := dict_set (edges st) cur rest |}.
Proof.
  intros [Hshape Hout Hdone] Hcur Hit Hseen Hstk.
  constructor; cbn [stack visited_edges visited_nodes].
  - intros n e. rewrite iter_consume.
    destruct (String.eqb_spec cur n) as [<-|Hne]; [|apply Hshape].
    intros He. apply Hshape. rewrite Hit. now right.
  - intros n m Hn Hnm. rewrite iter_consume.
    destruct (Hout n m Hn Hnm) as [H|H]; [now left|].
    destruct (String.eqb_spec cur n) as [<-|Hne]; [|now right].
    rewrite Hit in H. destruct H as [[= <-]|H]; auto.
  - intros n Hn Hns. rewrite iter_consume.
    destruct (String.eqb_spec cur n) as [<-|Hne].
    + exfalso. apply Hns. now apply Hstk.
    + apply Hdone; [assumption|]. intros H. apply Hns. now apply Hstk.
Qed.

Lemma dfs_inv_push g st cur m0 rest :
  dfs_inv g st -> In cur (stack st) ->
  iter st cur = (cur, m0, forward) :: rest ->
  dfs_inv g {| stack := m0 :: stack st;
               visited_edges := visited_edges st ++ [(cur, m0)];
               visited_nodes := visited_nodes st;
               edges := dict_set (edges st) cur rest |}.
Proof.
  intros Hinv Hcur Hit. destruct Hinv as [Hshape Hout Hdone].
  constructor; cbn [stack visited_edges visited_nodes].
  - intros n e. rewrite iter_consume.
    destruct (String.eqb_spec cur n) as [<-|Hne]; [|apply Hshape].
    intros He. apply Hshape. rewrite Hit. now right.
  - intros n m Hn Hnm. rewrite iter_consume, in_app_iff.
    destruct (Hout n m Hn Hnm) as [H|H]; [now left; left|].
    destruct (String.eqb_spec cur n) as [<-|Hne]; [|now right].
    rewrite Hit in H. destruct H as [[= <-]|H]; auto.
    left. right. now left.
  - intros n Hn Hns. rewrite iter_consume.
    destruct (String.eqb_spec cur n) as [<-|Hne].
    + exfalso. apply Hns. now right.
    + apply Hdone; [assumption|]. intros H. apply Hns. now right.
Qed.

(** The edges yielded from a state follow the stack discipline. *)
Lemma dfs_loop_spec g : forall fuel st ys,
  dfs_inv g st ->
  dfs_loop fuel g st = Ok ys ->
  trace g (visited_edges st) (stack st) ys.
Proof.
  induction fuel as [|fuel IH]; intros st ys Hinv Hrun; [discriminate|].
  rewrite dfs_loop_unfold in Hrun.
  destruct (stack st) as [|cur below] eqn:Hstk.
  - inversion Hrun; subst. constructor. intros n m [].
  - assert (Hcur : In cur (stack st)) by (rewrite Hstk; now left).
    pose proof (dfs_visit_inv g st cur Hinv Hcur) as Hinv1.
    pose proof (stack_dfs_visit g st cur) as Hs1.
    pose proof (visited_edges_dfs_visit g st cur) as Hve1.
    assert (Hvis : In cur (visited_nodes (dfs_visit g st cur)))
      by (apply visited_nodes_dfs_visit; now left).
    cbn zeta in Hrun. revert Hrun Hinv1 Hs1 Hve1 Hvis.
    generalize (dfs_visit g st cur). intros st1 Hrun Hinv1 Hs1 Hve1 Hvis.
    rewrite Hstk in Hs1. rewrite <- Hve1.
    assert (Hcur1 : In cur (stack st1)) by (rewrite Hs1; now left).
    fold (iter st1 cur) in Hrun.
    destruct (iter st1 cur) as [|e rest] eqn:Hit.
    + (* the iterator is exhausted: pop *)
      apply IH in Hrun; [|now apply dfs_inv_pop with (cur := cur)].
      cbn [stack visited_edges] in Hrun.
      apply trace_weaken; [|assumption].
      intros m Hm.
      destruct (inv_out g st1 Hinv1 cur m Hvis Hm) as [H|H]; [assumption|].
      rewrite Hit in H. destruct H.
    + destruct (inv_shape g st1 Hinv1 cur e) as (m0 & -> & Hedge);
        [rewrite Hit; now left|].
      cbn [edge_id edge_head fst snd] in Hrun.
      destruct (edge_seen (cur, m0) (visited_edges st1)) eqn:Hseen.
      * (* an edge already taken *)
        apply edge_seen_In in Hseen.
        apply IH in Hrun; [|now apply dfs_inv_taken with (m0 := m0)].
        cbn [stack visited_edges] in Hrun. now rewrite Hs1 in Hrun.
      * (* a new edge: yield it and push its head *)
        destruct (dfs_loop fuel g _) as [ys'|] eqn:Hrec in Hrun;
          cbn [bind] in Hrun; [|discriminate].
        inversion Hrun; subst ys. clear Hrun.
        apply IH in Hrec; [|now apply dfs_inv_push].
        cbn [stack visited_edges] in Hrec. rewrite Hs1 in Hrec.
        apply (trace_cons g _ (cur :: below) [] cur below m0 ys');
          [reflexivity|assumption|intros n m []|assumption].
Qed.

(** By the end, every out-edge of a node that was on the stack or was
    pushed since has been taken. *)
Lemma trace_covers g V stk ys :
  trace g V stk ys ->
  forall n m,
    In n stk \/ In n (map edge_head ys) ->
    has_edge g n m ->
    In (n, m) V \/ In (n, m, forward) ys.
Proof.
  induction 1 as [V stk Hall|V stk popped t below h ys Hstk Hth Hp Hys IH];
    intros n m Hn Hnm.
  - left. destruct Hn as [Hn|[]]. now apply Hall.
  - assert (Hcase : In n popped
                    \/ In n (h :: t :: below) \/ In n (map edge_head ys)).
    { destruct Hn as [Hn|[<-|Hn]].
      - rewrite Hstk in Hn. apply in_app_iff in Hn.
        destruct Hn as [Hn|Hn]; [now left|]. right. left. now right.
      - right. left. now left.
      - right. now right. }
    destruct Hcase as [Hn'|Hn']; [left; now apply Hp|].
    destruct (IH n m Hn' Hnm) as [H|H]; [|right; now right].
    apply in_app_iff in H. destruct H as [H|[[= <- <-]|[]]];
      [now left|right; now left].
Qed.

Lemma dfs_start_inv g source : dfs_inv g (dfs_start source).
Proof.
  constructor; cbn.
  - intros n e [].
  - intros n m [].
  - intros n [].
Qed.

(** What [edge_dfs] yields: a trace from the one-node stack that holds
    every out-edge of the source and of every head it yields. *)
Lemma edge_dfs_spec g source ys :
  edge_dfs g source = Ok ys ->
  trace g [] [source] ys
  /\ (forall n m, n = source \/ In n (map edge_head ys) ->
                  has_edge g n m -> In (n, m, forward) ys).
Proof.
  intros H. apply dfs_loop_spec in H; [|apply dfs_start_inv].
  cbn [dfs_start stack visited_edges] in H. split; [exact H|].
  intros n m Hn Hnm. destruct (trace_covers g _ _ _ H n m) as [[]|Hin]; auto.
  destruct Hn as [->|Hn]; [left; now left|now right].
Qed.

End DfsFacts.

(** ** The cycle search *)

Module SearchFacts.
Import Nx NxSpec NxFacts DfsFacts.

Lemma walk_snoc g a l b h :
  walk g a l b -> has_edge g b h -> walk g a (l ++ [(b, h, forward)]) h.
Proof.
  induction 1 as [a|a m b l Ham Hw IH]; intros Hbh; cbn.
  - constructor; [assumption|constructor].
  - constructor; auto.
Qed.

Lemma walk_tails g a l b :
  walk g a l b -> map edge_tail l ++ [b] = a :: map edge_head l.
Proof.
  induction 1 as [a|a m b l Ham Hw IH]; cbn; [reflexivity|].
  now rewrite IH.
Qed.

Lemma chain_walk g start pth :
  chain g start pth ->
  walk g start (List.rev pth) (top_node start pth).
Proof.
  induction pth as [|e p IH]; cbn [chain List.rev top_node].
  - intros _. constructor.
  - intros (He & Hedge & Hp). rewrite He at 1. apply walk_snoc; auto.
Qed.

Lemma chain_nodes_rev start pth :
  chain_nodes start pth = start :: map edge_head (List.rev pth).
Proof.
  induction pth as [|e p IH]; cbn; [reflexivity|].
  now rewrite IH, map_app.
Qed.

Lemma chain_nodes_top start pth :
  exists l, chain_nodes start pth = l ++ [top_node start pth].
Proof.
  destruct pth as [|e p]; cbn.
  - now exists [].
  - now exists (chain_nodes start p).
Qed.

Lemma snoc_inj {A : Type} (l1 l2 : list A) x y :
  l1 ++ [x] = l2 ++ [y] -> l1 = l2 /\ x = y.
Proof. apply app_inj_tail. Qed.

Lemma nodup_last_split {A : Type} (l B0 R : list A) x :
  NoDup (l ++ [x]) -> l ++ [x] = (B0 ++ [x]) ++ R -> R = [].
Proof.
  intros Hnd Heq. destruct R as [|r R] using rev_ind; [reflexivity|].
  exfalso. rewrite app_assoc in Heq. apply snoc_inj in Heq.
  destruct Heq as [Hl _]. apply NoDup_remove_2 in Hnd.
  apply Hnd. rewrite app_nil_r, Hl, !in_app_iff. left. right. now left.
Qed.

(** Undoing a backtracking step: with the active nodes
    [B0 ++ [tail]] followed by others, [backtrack] cuts the path back to
    the edge that reached [tail]. *)
Lemma backtrack_spec g start tail : forall pth B0 R,
  chain g start pth ->
  NoDup (chain_nodes start pth) ->
  chain_nodes start pth = (B0 ++ [tail]) ++ R ->
  R <> [] ->
  exists pth',
    backtrack tail pth (chain_nodes start pth) = Ok (pth', B0 ++ [tail])
    /\ chain g start pth'
    /\ chain_nodes start pth' = B0 ++ [tail]
    /\ top_node start pth' = tail.
Proof.
  induction pth as [|e p IH]; intros B0 R Hch Hnd Hsplit HR.
  - exfalso. cbn in Hsplit. apply (f_equal (@List.length string)) in Hsplit.
    rewrite !length_app in Hsplit. cbn in Hsplit.
    destruct R; [congruence|cbn in Hsplit; lia].
  - cbn [chain] in Hch. destruct Hch as (He & Hedge & Hp).
    cbn [chain_nodes] in *.
    destruct (exists_last HR) as (R' & x & ->).
    rewrite app_assoc in Hsplit. apply snoc_inj in Hsplit.
    destruct Hsplit as [Hsplit <-].
    apply NoDup_remove in Hnd. rewrite app_nil_r in Hnd.
    destruct Hnd as [Hnd Hfresh].
    cbn [backtrack].
    assert (Hmem : set_mem (edge_head e) (chain_nodes start p ++ [edge_head e])
                   = true).
    { apply set_mem_In, in_app_iff. right. now left. }
    rewrite Hmem, set_remove_last by assumption.
    destruct p as [|last_edge p'].
    + cbn in Hsplit. exists []. cbn.
      destruct B0 as [|b B0]; cbn in Hsplit.
      * inversion Hsplit; subst. cbn. repeat split; auto.
      * exfalso. inversion Hsplit as [[Hb Hrest]].
        destruct B0; cbn in Hrest; discriminate.
    + destruct (String.eqb_spec tail (edge_head last_edge)) as [Heq|Hne].
      * exists (last_edge :: p'). cbn [chain_nodes] in *.
        assert (R' = []) as ->.
        { rewrite Heq in Hsplit. now apply (nodup_last_split _ _ _ _ Hnd Hsplit). }
        rewrite app_nil_r in Hsplit. rewrite Hsplit.
        split; [reflexivity|]. split; [exact Hp|]. split; [reflexivity|].
        cbn. congruence.
      * assert (HR' : R' <> []).
        { intros ->. rewrite app_nil_r in Hsplit. cbn [chain_nodes] in Hsplit.
          apply snoc_inj in Hsplit. destruct Hsplit as [_ Hx]. congruence. }
        destruct (IH B0 R' Hp Hnd Hsplit HR') as (pth' & Hb & H1 & H2 & H3).
        exists pth'. repeat split; auto.
Qed.

Lemma rewind_spec g X start stk s t B0 R :
  search_inv g X start stk s ->
  active_nodes s = (B0 ++ [t]) ++ R ->
  exists pth',
    rewind t s = Ok (pth', B0 ++ [t])
    /\ chain g start pth'
    /\ chain_nodes start pth' = B0 ++ [t]
    /\ top_node start pth' = t.
Proof.
  intros [Hch Hact Hnd _ Hprev _] Hsplit. unfold rewind. rewrite Hprev.
  rewrite Hact in *. destruct (path s) as [|e p].
  - exists []. cbn in Hsplit.
    destruct B0 as [|b B0]; cbn in Hsplit.
    + inversion Hsplit; subst. cbn. auto.
    + exfalso. inversion Hsplit as [[Hb Hrest]].
      destruct B0; cbn in Hrest; discriminate.
  - destruct (String.eqb_spec t (edge_head e)) as [Heq|Hne]; cbn [negb].
    + exists (e :: p). cbn [chain_nodes] in *.
      assert (R = []) as ->.
      { rewrite Heq in Hsplit. now apply (nodup_last_split _ _ _ _ Hnd Hsplit). }
      rewrite app_nil_r in Hsplit. rewrite Hsplit.
      split; [reflexivity|]. split; [exact Hch|]. split; [reflexivity|].
      cbn. congruence.
    + apply backtrack_spec with (R := R); auto.
      intros ->. rewrite app_nil_r in Hsplit. cbn [chain_nodes] in Hsplit.
      apply snoc_inj in Hsplit. destruct Hsplit as [_ Hx]. congruence.
Qed.

Lemma drop_lead_cons f e rest :
  drop_lead f (e :: rest)
  = if String.eqb (edge_tail e) f then e :: rest
    else match rest with
         | [] => e :: rest
         | _ :: _ => drop_lead f rest
         end.
Proof. reflexivity. Qed.

(** Cutting the lead off a path that has come back to one of its nodes
    leaves a simple cycle. *)
Lemma drop_lead_cycle g a L t h :
  walk g a L t -> has_edge g t h ->
  NoDup (a :: map edge_head L) -> In h (a :: map edge_head L) ->
  simple_cycle g (drop_lead h (L ++ [(t, h, forward)])).
Proof.
  intros Hw. induction Hw as [a|a m b l Ham Hw IH]; intros Hth Hnd Hin.
  - destruct Hin as [<-|[]]. cbn. rewrite String.eqb_refl.
    split; [split; [discriminate|]|].
    + exists a. constructor; [assumption|constructor].
    + cbn. constructor; [intros []|constructor].
  - rewrite <- app_comm_cons, drop_lead_cons. cbn [edge_tail fst].
    destruct (String.eqb_spec a h) as [<-|Hne].
    + split; [split; [discriminate|]|].
      * exists a. constructor; [assumption|]. now apply walk_snoc.
      * rewrite app_comm_cons, map_app. cbn [map edge_tail fst].
        assert (Hw' : walk g a ((a, m, forward) :: l) b)
          by (constructor; assumption).
        apply walk_tails in Hw'. cbn in Hw', Hnd |- *. rewrite Hw'. exact Hnd.
    + destruct (l ++ [(b, h, forward)]) as [|e' rest] eqn:Hl.
      * exfalso. destruct l; discriminate.
      * apply IH; auto.
        -- now inversion Hnd.
        -- destruct Hin as [Hin|Hin]; [congruence|exact Hin].
Qed.

Lemma search_inv_skip g X start popped t below h s :
  search_inv g X start (popped ++ t :: below) s ->
  In h X ->
  search_inv g X start (h :: t :: below) s.
Proof.
  intros [Hch Hact Hnd Hfresh Hprev (Xs & A1 & A2 & Hstk & HA & HA1 & HXs)] Hh.
  constructor; auto.
  apply app_eq_app in Hstk. destruct Hstk as [l [[H1 H2]|[H1 H2]]].
  - destruct l as [|x l].
    + cbn in H2. exists [h], A1, A2. repeat split; auto.
      * cbn. now rewrite H2.
      * intros x [<-|[]]. assumption.
    + exists [h], (List.rev (t :: below)), (List.rev (x :: l) ++ A2).
      repeat split.
      * now rewrite rev_involutive.
      * rewrite HA, app_assoc, <- rev_app_distr, <- H2, rev_involutive.
        reflexivity.
      * cbn. intros H. symmetry in H. now apply app_cons_not_nil in H.
      * intros y [<-|[]]. assumption.
  - exists (h :: l), A1, A2. repeat split; auto.
    + cbn. now rewrite H2.
    + intros x [<-|Hx]; [assumption|]. apply HXs. rewrite H1.
      apply in_app_iff. now right.
Qed.

Lemma stack_top_active g X start popped t below s :
  search_inv g X start (popped ++ t :: below) s ->
  ~ In t X ->
  exists R, active_nodes s = (List.rev below ++ [t]) ++ R.
Proof.
  intros [_ _ _ _ _ (Xs & A1 & A2 & Hstk & HA & HA1 & HXs)] Ht.
  apply app_eq_app in Hstk. destruct Hstk as [l [[H1 H2]|[H1 H2]]].
  - exists (List.rev l ++ A2). rewrite HA, app_assoc. f_equal.
    rewrite <- (rev_involutive A1), H2, rev_app_distr. reflexivity.
  - destruct l as [|x l].
    + cbn in H2. exists A2. rewrite HA. f_equal.
      rewrite <- (rev_involutive A1), <- H2. reflexivity.
    + exfalso. inversion H2; subst. apply Ht, HXs, in_app_iff.
      right. now left.
Qed.

Lemma search_inv_push g X start stk s t below h pth' R :
  search_inv g X start stk s ->
  active_nodes s = (List.rev below ++ [t]) ++ R ->
  has_edge g t h -> ~ In h X ->
  chain g start pth' ->
  chain_nodes start pth' = List.rev below ++ [t] ->
  top_node start pth' = t ->
  ~ In h (List.rev below ++ [t]) ->
  search_inv g X start (h :: t :: below)
    {| path := (t, h, forward) :: pth';
       seen := set_add h (seen s);
       active_nodes := set_add h (List.rev below ++ [t]);
       previous_head := Some h |}.
Proof.
  intros Hinv HR Hth HhX Hch Hnodes Htop HhB.
  assert (HndB : NoDup (List.rev below ++ [t])).
  { pose proof (si_nodup _ _ _ _ _ Hinv) as Hnd. rewrite HR in Hnd.
    now apply NoDup_app_remove_r in Hnd. }
  constructor; cbn [path seen active_nodes previous_head].
  - cbn [chain edge_head fst snd]. rewrite Htop. auto.
  - rewrite set_add_fresh by assumption. cbn [chain_nodes].
    now rewrite Hnodes.
  - now apply set_add_NoDup.
  - intros x Hx. apply set_add_In in Hx. destruct Hx as [->|Hx];
      [assumption|].
    apply (si_fresh _ _ _ _ _ Hinv). rewrite HR. apply in_app_iff.
    now left.
  - reflexivity.
  - exists [], ((List.rev below ++ [t]) ++ [h]), [].
    repeat split.
    + rewrite !rev_app_distr. cbn. now rewrite rev_involutive.
    + rewrite set_add_fresh by assumption. now rewrite app_nil_r.
    + intros H. symmetry in H. now apply app_cons_not_nil in H.
    + intros x [].
Qed.

Lemma scan_cons X t h d ys s :
  scan X ((t, h, d) :: ys) s
  = if set_mem h X then scan X ys s
    else
      pa <- rewind t s ;;
      if set_mem h (snd pa)
      then Ok (inr (List.rev ((t, h, d) :: fst pa), h))
      else scan X ys
             {| path := (t, h, d) :: fst pa;
                seen := set_add h (seen s);
                active_nodes := set_add h (snd pa);
                previous_head := Some h |}.
Proof. reflexivity. Qed.

(** One search, over the trace of a depth-first search: it never raises,
    and what it reports at a [break] is a simple cycle once its lead is
    dropped. *)
Lemma scan_spec g X start :
  closed g X ->
  forall ys V stk s,
    trace g V stk ys ->
    search_inv g X start stk s ->
    match scan X ys s with
    | Ok (inl _) => True
    | Ok (inr found) => simple_cycle g (drop_lead (snd found) (fst found))
    | Raise _ => False
    end.
Proof.
  intros Hclosed. induction ys as [|e ys IH]; intros V stk s Htr Hinv.
  - exact I.
  - inversion Htr as [|V0 stk0 popped t below h ys0 Hstk Hth Hp Htr']; subst.
    rewrite scan_cons. destruct (set_mem h X) eqn:HhX.
    + apply set_mem_In in HhX.
      apply (IH (V ++ [(t, h)]) (h :: t :: below)); [assumption|].
      now apply search_inv_skip with (popped := popped).
    + apply set_mem_false in HhX.
      assert (HtX : ~ In t X) by (intros H; apply HhX; eapply Hclosed; eauto).
      destruct (stack_top_active _ _ _ _ _ _ _ Hinv HtX) as [R HR].
      destruct (rewind_spec _ _ _ _ _ _ _ _ Hinv HR)
        as (pth' & Hrw & Hch & Hnodes & Htop).
      rewrite Hrw. cbn [bind fst snd].
      assert (HndB : NoDup (List.rev below ++ [t])).
      { pose proof (si_nodup _ _ _ _ _ Hinv) as Hnd. rewrite HR in Hnd.
        now apply NoDup_app_remove_r in Hnd. }
      destruct (set_mem h (List.rev below ++ [t])) eqn:HhB.
      * apply set_mem_In in HhB. cbn [List.rev fst snd].
        apply drop_lead_cycle with (a := start); auto.
        -- rewrite <- Htop. now apply chain_walk.
        -- now rewrite <- chain_nodes_rev, Hnodes.
        -- now rewrite <- chain_nodes_rev, Hnodes.
      * apply set_mem_false in HhB.
        apply (IH (V ++ [(t, h)]) (h :: t :: below)); [assumption|].
        now apply search_inv_push with (stk := popped ++ t :: below) (R := R).
Qed.

(** What a search that ran to its end has added to [seen]. *)
Lemma scan_seen X : forall ys s s',
  scan X ys s = Ok (inl s') ->
  forall x, In x (seen s')
            <-> In x (seen s)
                \/ exists e, In e ys /\ edge_head e = x /\ ~ In x X.
Proof.
  induction ys as [|[[t h] d] ys IH]; intros s s' Hscan x.
  - inversion Hscan; subst. split; [tauto|].
    intros [H|(e & [] & _)]. assumption.
  - rewrite scan_cons in Hscan. destruct (set_mem h X) eqn:HhX.
    + rewrite (IH _ _ Hscan x). apply set_mem_In in HhX. split.
      * intros [H|(e & He & Hx & HX)]; [now left|].
        right. exists e. split; [now right|auto].
      * intros [H|(e & [<-|He] & Hx & HX)]; [now left| |].
        -- cbn in Hx. subst x. contradiction.
        -- right. exists e. auto.
    + apply set_mem_false in HhX.
      destruct (rewind t s) as [pa|]; cbn [bind] in Hscan; [|discriminate].
      destruct (set_mem h (snd pa)); [discriminate|].
      rewrite (IH _ _ Hscan x). cbn [seen]. rewrite set_add_In. split.
      * intros [[->|H]|(e & He & Hx & HX)].
        -- right. exists (t, h, d). split; [now left|auto].
        -- now left.
        -- right. exists e. split; [now right|auto].
      * intros [H|(e & [<-|He] & Hx & HX)].
        -- left. now right.
        -- cbn in Hx. left. now left.
        -- right. exists e. auto.
Qed.

Lemma search_start_inv g X start :
  ~ In start X -> search_inv g X start [start] (search_start start).
Proof.
  intros Hs. constructor; cbn; auto.
  - constructor; [intros []|constructor].
  - intros x [<-|[]]. assumption.
  - exists [], [start], []. repeat split; auto.
    + discriminate.
    + intros x [].
Qed.

(** After a search that found nothing, the explored nodes are closed
    again. *)
Lemma explored_closed g X start ys s' :
  closed g X ->
  edge_dfs g start = Ok ys ->
  scan X ys (search_start start) = Ok (inl s') ->
  closed g (set_update X (seen s')).
Proof.
  intros Hclosed Hys Hrun n m Hn Hnm.
  destruct (edge_dfs_spec g start ys Hys) as [Htr Hall].
  apply set_update_In. apply set_update_In in Hn.
  destruct Hn as [Hn|Hn]; [left; eapply Hclosed; eauto|].
  destruct (in_dec string_dec m X) as [HmX|HmX]; [now left|]. right.
  apply (scan_seen X ys _ _ Hrun m). right.
  exists (n, m, forward). repeat split; auto.
  apply Hall; [|assumption].
  apply (scan_seen X ys _ _ Hrun n) in Hn. cbn [search_start seen] in Hn.
  destruct Hn as [[<-|[]]|(e & He & <- & _)]; [now left|].
  right. now apply in_map.
Qed.

(** The loop over the start nodes: it ends with a simple cycle or with
    [NetworkXNoCycle], nothing else. *)
Lemma search_from_spec g : forall nodes X,
  closed g X ->
  match search_from g X nodes with
  | Ok found => simple_cycle g (drop_lead (snd found) (fst found))
  | Raise e => e = NetworkXNoCycle
  end.
Proof.
  induction nodes as [|start nodes IH]; intros X Hclosed; cbn [search_from].
  - reflexivity.
  - destruct (set_mem start X) eqn:Hs; [now apply IH|].
    apply set_mem_false in Hs.
    destruct (edge_dfs_total g start) as [ys Hys]. rewrite Hys. cbn [bind].
    destruct (edge_dfs_spec g start ys Hys) as [Htr Hall].
    pose proof (scan_spec g X start Hclosed ys [] [start] (search_start start)
                  Htr (search_start_inv g X start Hs)) as Hscan.
    destruct (scan X ys (search_start start)) as [[s'|found]|e] eqn:Hrun;
      cbn [bind]; [|exact Hscan|destruct Hscan].
    apply IH. now apply explored_closed with (start := start) (ys := ys).
Qed.

Lemma closed_nil g : closed g [].
Proof. intros n m []. Qed.

(** [find_cycle] returns a simple cycle of the graph or raises
    [NetworkXNoCycle]. *)
Lemma find_cycle_sound g :
  match find_cycle g with
  | Ok c => simple_cycle g c
  | Raise e => e = NetworkXNoCycle
  end.
Proof.
  unfold find_cycle.
  pose proof (search_from_spec g (_node g) [] (closed_nil g)) as H.
  destruct (search_from g [] (_node g)) as [found|e]; cbn [bind]; exact H.
Qed.

(** A cycle passes an edge whose head is the tail of an edge. *)
Lemma cycle_inner_node g c :
  is_cycle g c -> exists a m m', has_edge g a m /\ has_edge g m m'.
Proof.
  intros [Hne [a Hw]].
  inversion Hw as [a0|a0 m b l Ham Hw']; subst; [congruence|].
  inversion Hw' as [m0|m0 m' b l' Hmm' Hw'']; subst.
  - exists a, a, a. auto.
  - exists a, m, m'. auto.
Qed.

End SearchFacts.

(** ** The cycle search finds a cycle when there is one *)

Module CompleteFacts.
Import Nx NxSpec NxFacts DfsFacts SearchFacts.

Lemma walk_closed g Y a l b :
  closed g Y -> walk g a l b -> In a Y -> In b Y.
Proof.
  intros Hc Hw. induction Hw as [a|a m b l Ham Hw IH]; intros Ha; auto.
  apply IH. now apply (Hc a m).
Qed.

(** A node whose successors are all finished can be finished too. *)
Lemma safe_add g Y n :
  safe g Y -> (forall m, has_edge g n m -> In m Y) -> safe g (n :: Y).
Proof.
  intros [Hc Hf] Hn. split.
  - intros x m [<-|Hx] Hxm; right; [now apply Hn|now apply (Hc x m)].
  - intros a c [<-|Ha] Hne Hw; [|now apply (Hf a c)].
    inversion Hw as [a0|a0 m b l Ham Hw']; subst; [congruence|].
    assert (HnY : In n Y).
    { apply (walk_closed g Y m l n Hc Hw'). now apply Hn. }
    now apply (Hf n ((n, m, forward) :: l)).
Qed.

Lemma safe_nil g : safe g [].
Proof. split; [intros n m []|intros a c []]. Qed.

Lemma over_top_absurd (S : list string) n m :
  NoDup (n :: S) -> ~ over (n :: S) n m.
Proof.
  intros Hnd (l1 & l2 & l3 & Heq). inversion Hnd as [|? ? Hn _]; subst.
  apply Hn. destruct l1 as [|x l1]; cbn in Heq; inversion Heq; subst.
  - apply in_app_iff. right. now left.
  - apply in_app_iff. right. right. apply in_app_iff. right. now left.
Qed.

Lemma over_tail (S : list string) x n m :
  over (x :: S) n m -> m = x \/ over S n m.
Proof.
  intros (l1 & l2 & l3 & Heq). destruct l1 as [|y l1]; cbn in Heq;
    inversion Heq; subst.
  - now left.
  - right. now exists l1, l2, l3.
Qed.

Lemma over_cons (S : list string) x n m : over S n m -> over (x :: S) n m.
Proof.
  intros (l1 & l2 & l3 & ->). now exists (x :: l1), l2, l3.
Qed.

(** Popping the live nodes [l] off the stack finishes them. *)
Lemma pop_live g V : forall l S' Y,
  safe g Y ->
  NoDup (l ++ S') ->
  (forall n m, In n l -> has_edge g n m -> In (n, m) V) ->
  (forall n m, In (n, m) V -> In m Y \/ over (l ++ S') n m) ->
  exists Y',
    safe g Y'
    /\ (forall x, In x Y' <-> In x l \/ In x Y)
    /\ (forall n m, In (n, m) V -> In m Y' \/ over S' n m).
Proof.
  induction l as [|n l IH]; intros S' Y Hsafe Hnd Hout HV.
  - exists Y. split; [assumption|]. split; [|exact HV].
    intros x. cbn. tauto.
  - cbn [app] in Hnd, HV.
    assert (Hn : forall m, has_edge g n m -> In m Y).
    { intros m Hm. destruct (HV n m) as [H|H]; [apply Hout; auto; now left|auto|].
      exfalso. now apply (over_top_absurd _ _ _ Hnd) in H. }
    destruct (IH S' (n :: Y)) as (Y' & Hs' & Hmem & HV').
    + now apply safe_add.
    + now inversion Hnd.
    + intros x m Hx. apply Hout. now right.
    + intros x m Hxm. destruct (HV x m Hxm) as [H|H]; [left; now right|].
      apply over_tail in H. destruct H as [->|H]; [left; now left|now right].
    + exists Y'. split; [assumption|]. split; [|exact HV'].
      intros x. rewrite Hmem. cbn. tauto.
Qed.

Lemma done_inv_pop g X V Y popped t below s :
  done_inv g X V Y (popped ++ t :: below) s ->
  NoDup (active_nodes s) ->
  (forall n m, In n popped -> has_edge g n m -> In (n, m) V) ->
  exists Y1, done_inv g X V Y1 (t :: below) s.
Proof.
  intros (Hsafe & HXY & Has & Xs & S & A2 & Hstk & Hact & HXs & Hseen & HV)
         Hnd Hp.
  apply app_eq_app in Hstk. destruct Hstk as [l [[H1 H2]|[H1 H2]]].
  - assert (HndS : NoDup (l ++ t :: below)).
    { rewrite <- H2, <- (rev_involutive S). apply NoDup_rev.
      rewrite Hact in Hnd. now apply NoDup_app_remove_r in Hnd. }
    destruct (pop_live g V l (t :: below) Y Hsafe HndS) as (Y' & Hs' & Hmem & HV').
    + intros n m Hn. apply Hp. rewrite H1. apply in_app_iff. now right.
    + now rewrite <- H2.
    + exists Y'. split; [assumption|].
      split; [intros x Hx; apply Hmem; right; now apply HXY|].
      split; [assumption|].
      exists [], (t :: below), (List.rev l ++ A2).
      split; [reflexivity|].
      split; [now rewrite Hact, H2, rev_app_distr, app_assoc|].
      split; [intros x []|]. split; [|exact HV'].
      intros x Hx. destruct (Hseen x Hx) as [H|H].
      * rewrite H2 in H. apply in_app_iff in H. destruct H as [H|H];
          [right; apply Hmem; now left|now left].
      * right. apply Hmem. now right.
  - exists Y. split; [assumption|]. split; [assumption|]. split; [assumption|].
    exists l, S, A2. split; [assumption|]. split; [assumption|].
    split; [|split; assumption].
    intros x Hx. apply HXs. rewrite H1. apply in_app_iff. now right.
Qed.

(** The search started on a closed explored set: nothing is finished
    yet. *)
Lemma done_inv_start g X start :
  safe g X -> done_inv g X [] X [start] (search_start start).
Proof.
  intros Hsafe. split; [assumption|]. split; [auto|]. split; [auto|].
  exists [], [start], []. cbn. repeat split; auto.
  - intros x []. 
  - intros n m [].
Qed.

(** A search that runs to its end without finding a cycle leaves every
    node it saw finished: closed and on no cycle. *)
Lemma scan_complete g X start :
  closed g X ->
  forall ys V stk s Y s',
    trace g V stk ys ->
    search_inv g X start stk s ->
    done_inv g X V Y stk s ->
    scan X ys s = Ok (inl s') ->
    exists Y',
      safe g Y'
      /\ (forall x, In x X -> In x Y')
      /\ (forall x, In x (seen s') -> In x Y').
Proof.
  intros Hclosed. induction ys as [|e ys IH]; intros V stk s Y s' Htr Hinv Hdone Hscan.
  - inversion Hscan; subst s'. clear Hscan.
    inversion Htr as [V0 stk0 Hall|]; subst.
    destruct Hdone as (Hsafe & HXY & Has & Xs & S & A2 & Hstk & Hact & HXs
                       & Hseen & HV).
    assert (HndS : NoDup (S ++ [])).
    { rewrite app_nil_r, <- (rev_involutive S). apply NoDup_rev.
      pose proof (si_nodup _ _ _ _ _ Hinv) as Hnd. rewrite Hact in Hnd.
      now apply NoDup_app_remove_r in Hnd. }
    destruct (pop_live g V S [] Y Hsafe HndS) as (Y' & Hs' & Hmem & _).
    + intros n m Hn. apply Hall. rewrite Hstk. apply in_app_iff. now right.
    + now rewrite app_nil_r.
    + exists Y'. split; [assumption|].
      split; [intros x Hx; apply Hmem; right; now apply HXY|].
      intros x Hx. apply Hmem. destruct (Hseen x Hx); auto.
  - inversion Htr as [|V0 stk0 popped t below h ys0 Hstk Hth Hp Htr']; subst.
    rewrite scan_cons in Hscan.
    destruct (done_inv_pop g X V Y popped t below s Hdone
                (si_nodup _ _ _ _ _ Hinv) Hp) as (Y1 & Hdone1).
    destruct Hdone1 as (Hsafe & HXY & Has & Xs & S & A2 & Hstk & Hact & HXs
                        & Hseen & HV).
    destruct (set_mem h X) eqn:HhX.
    + (* the head was explored before: skipped *)
      apply set_mem_In in HhX.
      apply (IH (V ++ [(t, h)]) (h :: t :: below) s Y1 s'); auto.
      * now apply search_inv_skip with (popped := popped).
      * split; [assumption|]. split; [assumption|]. split; [assumption|].
        exists (h :: Xs), S, A2. split; [cbn; now rewrite Hstk|].
        split; [assumption|].
        split; [intros x [<-|Hx]; auto|]. split; [assumption|].
        intros n m Hnm. apply in_app_iff in Hnm.
        destruct Hnm as [Hnm|[[= <- <-]|[]]]; [now apply HV|].
        left. now apply HXY.
    + apply set_mem_false in HhX.
      assert (HtX : ~ In t X) by (intros H; apply HhX; eapply Hclosed; eauto).
      assert (HS : S = t :: below).
      { destruct Xs as [|x Xs]; [now cbn in Hstk|].
        exfalso. cbn in Hstk. inversion Hstk; subst. apply HtX, HXs. now left. }
      subst S. cbn [List.rev] in Hact.
      destruct (rewind_spec _ _ _ _ _ _ _ _ Hinv Hact)
        as (pth' & Hrw & Hch & Hnodes & Htop).
      rewrite Hrw in Hscan. cbn [bind fst snd] in Hscan.
      destruct (set_mem h (List.rev below ++ [t])) eqn:HhB; [discriminate|].
      apply set_mem_false in HhB.
      refine (IH (V ++ [(t, h)]) (h :: t :: below) _ Y1 s' Htr' _ _ Hscan).
      * now apply search_inv_push with (stk := popped ++ t :: below) (R := A2).
      * split; [assumption|]. split; [assumption|].
        cbn [active_nodes seen]. split.
        { intros x Hx. apply set_add_In. apply set_add_In in Hx.
          destruct Hx as [->|Hx]; [now left|]. right. apply Has.
          rewrite Hact. apply in_app_iff. now left. }
        exists [], (h :: t :: below), [].
        split; [reflexivity|].
        split; [rewrite set_add_fresh by assumption; cbn [List.rev];
                now rewrite app_nil_r|].
        split; [intros x []|]. split.
        { intros x Hx. apply set_add_In in Hx. destruct Hx as [->|Hx];
            [left; now left|].
          destruct (Hseen x Hx) as [H|H]; [left; now right|now right]. }
        intros n m Hnm. apply in_app_iff in Hnm.
        destruct Hnm as [Hnm|[[= <- <-]|[]]].
        -- destruct (HV n m Hnm) as [H|H]; [now left|right; now apply over_cons].
        -- right. now exists [], [], below.
Qed.

(** When the loop over the start nodes ends with [NetworkXNoCycle], all
    of them are finished. *)
Lemma search_from_complete g : forall nodes X,
  safe g X ->
  search_from g X nodes = Raise NetworkXNoCycle ->
  exists Y,
    safe g Y
    /\ (forall n, In n nodes -> In n Y)
    /\ (forall x, In x X -> In x Y).
Proof.
  induction nodes as [|start nodes IH]; intros X Hsafe Hrun.
  - exists X. split; [assumption|]. split; [intros n []|auto].
  - cbn [search_from] in Hrun. destruct (set_mem start X) eqn:Hs.
    + apply set_mem_In in Hs.
      destruct (IH X Hsafe Hrun) as (Y & HY & Hin & Hsub).
      exists Y. split; [assumption|]. split; [|assumption].
      intros n [<-|Hn]; auto.
    + apply set_mem_false in Hs.
      destruct (edge_dfs_total g start) as [ys Hys].
      rewrite Hys in Hrun. cbn [bind] in Hrun.
      destruct (edge_dfs_spec g start ys Hys) as [Htr _].
      pose proof (scan_spec g X start (proj1 Hsafe) ys [] [start]
                    (search_start start) Htr
                    (search_start_inv g X start Hs)) as Hsp.
      destruct (scan X ys (search_start start)) as [[s'|found]|e] eqn:Hscan;
        cbn [bind] in Hrun; [|discriminate|destruct Hsp].
      destruct (scan_complete g X start (proj1 Hsafe) ys [] [start]
                  (search_start start) X s' Htr
                  (search_start_inv g X start Hs)
                  (done_inv_start g X start Hsafe) Hscan)
        as (Y' & HY' & HXY' & Hseen').
      assert (Hsafe' : safe g (set_update X (seen s'))).
      { split.
        - apply explored_closed with (start := start) (ys := ys); auto.
          apply Hsafe.
        - intros a c Ha. apply (proj2 HY').
          apply set_update_In in Ha. destruct Ha; auto. }
      destruct (IH _ Hsafe' Hrun) as (Y & HY & Hin & Hsub).
      exists Y. split; [assumption|]. split.
      * intros n [<-|Hn]; auto. apply Hsub, set_update_In. right.
        apply (scan_seen X ys _ _ Hscan start). left. now left.
      * intros x Hx. apply Hsub, set_update_In. now left.
Qed.

(** [find_cycle] raises [NetworkXNoCycle] only on a graph without
    cycle. *)
Lemma find_cycle_complete g :
  well_formed g -> find_cycle g = Raise NetworkXNoCycle -> acyclic g.
Proof.
  intros Hwf Hrun. unfold find_cycle in Hrun.
  destruct (search_from g [] (_node g)) as [found|e] eqn:Hs;
    cbn [bind] in Hrun; [discriminate|].
  inversion Hrun; subst e.
  destruct (search_from_complete g _ _ (safe_nil g) Hs) as (Y & [_ HY] & Hin & _).
  intros c [Hne [a Hw]]. apply (HY a c); auto.
  apply Hin. inversion Hw as [a0|a0 m b l Ham Hw']; subst; [congruence|].
  now apply (wf_endpoints g Hwf a m).
Qed.

End CompleteFacts.

(** ** Critical nodes, idempotence and the shape of built graphs *)

Module GraphClaims.
Import PyStr Extractor Nx NxSpec App BuildSpec Fixtures.
Import ExtractorFacts NxFacts BuildFacts DfsFacts SearchFacts CompleteFacts.

Lemma preds_graph_of es u n : In u (preds (graph_of es) n) <-> In (u, n) es.
Proof.
  rewrite (wf_pred_succ _ (well_formed_graph_of es)).
  apply has_edge_graph_of.
Qed.

Lemma critical_as_filter g :
  identify_critical_nodes g
  = filter (fun n => 1 <? List.length (preds g n)) (_node g).
Proof.
  unfold identify_critical_nodes, in_degree. fold (preds g).
  induction (_node g) as [|n l IH]; [reflexivity|].
  cbn [map filter snd]. fold (preds g n).
  destruct (1 <? List.length (preds g n)); cbn [map fst]; now rewrite IH.
Qed.

Lemma length_two {A : Type} (l : list A) x y :
  NoDup l -> x <> y -> (forall u, In u l <-> u = x \/ u = y) ->
  List.length l = 2.
Proof.
  intros Hnd Hxy Hl.
  assert (H1 : List.length l <= 2).
  { apply (NoDup_incl_length (l' := [x; y]) Hnd).
    intros u Hu. apply Hl in Hu. cbn. intuition. }
  assert (H2 : 2 <= List.length l).
  { apply (NoDup_incl_length (l := [x; y])).
    - constructor; [intros [H|[]]; congruence|].
      constructor; [intros []|constructor].
    - intros u [<-|[<-|[]]]; apply Hl; auto. }
  lia.
Qed.

Lemma length_one {A : Type} (l : list A) x :
  NoDup l -> (forall u, In u l <-> u = x) -> List.length l = 1.
Proof.
  intros Hnd Hl.
  assert (H1 : List.length l <= 1).
  { apply (NoDup_incl_length (l' := [x]) Hnd).
    intros u Hu. apply Hl in Hu. now left. }
  assert (H2 : 1 <= List.length l).
  { apply (NoDup_incl_length (l := [x])).
    - constructor; [intros []|constructor].
    - intros u [<-|[]]. now apply Hl. }
  lia.
Qed.

Lemma build_well_formed fs path g :
  build_import_graph fs path = Ok g ->
  exists es, import_edges fs path = Ok es /\ g = graph_of es.
Proof.
  rewrite build_import_graph_edges.
  destruct (import_edges fs path) as [es|]; cbn; [|discriminate].
  intros [= <-]. eauto.
Qed.

Lemma number_of_edges_absorb g u v :
  well_formed g -> has_edge g u v ->
  number_of_edges (add_edge g u v) = number_of_edges g.
Proof. intros Hwf H. now rewrite add_edge_absorb. Qed.

(** C6. Building is idempotent and keeps no multiplicity.  A build that
    succeeds gives one graph; running its insertions again over that graph
    leaves it as it is; its node list, successor lists and predecessor
    lists have no duplicate; adding an edge it has changes neither the
    graph nor the edge count.  Adding an edge twice is adding it once: the
    graph is the one of the first insertion of each (file, name) pair, and
    its edge count is the number of distinct pairs. *)
Theorem build_idempotent :
  forall fs path g,
    build_import_graph fs path = Ok g ->
    (forall g', build_import_graph fs path = Ok g' ->
                g' = g
                /\ number_of_nodes g' = number_of_nodes g
                /\ number_of_edges g' = number_of_edges g)
    /\ build_into fs path g = Ok g
    /\ NoDup (_node g)
    /\ (forall u, NoDup (succs g u) /\ NoDup (preds g u))
    /\ (forall u v, has_edge g u v ->
                    add_edge g u v = g
                    /\ number_of_edges (add_edge g u v) = number_of_edges g)
    /\ (forall u v, add_edge (add_edge g u v) u v = add_edge g u v)
    /\ (exists es,
          import_edges fs path = Ok es
          /\ g = graph_of (first_calls es)
          /\ NoDup (first_calls es)
          /\ number_of_edges g = List.length (first_calls es)
          /\ forall u v, has_edge g u v <-> In (u, v) es).
Proof.
  intros fs path g Hb.
  destruct (build_well_formed fs path g Hb) as (es & Hes & ->).
  pose proof (well_formed_graph_of es) as Hwf.
  assert (Hcalls : exists es',
             import_edges fs path = Ok es'
             /\ graph_of es = graph_of (first_calls es')
             /\ NoDup (first_calls es')
             /\ number_of_edges (graph_of es) = List.length (first_calls es')
             /\ forall u v, has_edge (graph_of es) u v <-> In (u, v) es').
  { exists es. split; [assumption|].
    split; [now rewrite graph_of_first_calls|].
    split; [apply first_calls_spec|].
    split; [apply number_of_edges_graph_of|].
    intros u v. apply has_edge_graph_of. }
  split; [intros g' Hg'; rewrite Hb in Hg'; inversion Hg'; auto|].
  split.
  { rewrite build_into_edges, Hes. cbn [bind]. f_equal.
    apply add_edges_absorb; [assumption|].
    intros u v. apply has_edge_graph_of. }
  split; [apply (wf_nodes _ Hwf)|].
  split; [intros u; split;
          [apply (wf_succ_nodup _ Hwf)|apply (wf_pred_nodup _ Hwf)]|].
  split; [|split; [|exact Hcalls]].
  - intros u v Huv. split; [now apply add_edge_absorb|].
    now apply number_of_edges_absorb.
  - intros u v. apply add_edge_absorb.
    + now apply well_formed_add_edge.
    + apply has_edge_add_edge. now right.
Qed.

Lemma build_idempotent_witness :
  exists g,
    build_import_graph twice_os codebase_path = Ok g
    /\ number_of_edges g = 1
    /\ succs g "a.py" = ["os"]
    /\ build_into twice_os codebase_path g = Ok g.
Proof.
  exists (graph_of [("a.py", "os")]).
  assert (Hb : build_import_graph twice_os codebase_path
               = Ok (graph_of [("a.py", "os")])) by reflexivity.
  split; [exact Hb|]. split; [reflexivity|]. split; [reflexivity|].
  exact (proj1 (proj2 (build_idempotent twice_os codebase_path _ Hb))).
Defined.

Lemma build_edge_origin fs path g u v :
  build_import_graph fs path = Ok g ->
  has_edge g u v ->
  endswith u ".py" = true /\ extracts fs path u v.
Proof.
  intros Hb Huv. destruct (build_well_formed fs path g Hb) as (es & Hes & ->).
  apply has_edge_graph_of in Huv.
  destruct (import_edges_origin fs path es u v Hes Huv)
    as (Hpy & root & dirs & files & imports & H1 & H2 & H3 & H4).
  split; [assumption|]. exists root, dirs, files, imports. tauto.
Qed.

(** C2. The critical nodes are the nodes of in-degree above 1, in node
    insertion order, and the in-degree of a node is the number of distinct
    nodes with an edge to it.  In a built graph these are the base names
    of the sources from which the node is extracted: a node imported by
    sources of two distinct base names has in-degree 2 and is listed, a
    node imported by sources of one base name only has in-degree 1 and is
    not.  New nodes go last. *)
Theorem critical_nodes_by_in_degree :
  (forall es,
      let g := graph_of es in
      in_degree g = map (fun n => (n, List.length (preds g n))) (_node g)
      /\ (forall n, NoDup (preds g n)
                    /\ forall u, In u (preds g n) <-> In (u, n) es)
      /\ identify_critical_nodes g
         = filter (fun n => 1 <? List.length (preds g n)) (_node g)
      /\ (forall n, In n (identify_critical_nodes g)
                    <-> In n (_node g) /\ 1 < List.length (preds g n))
      /\ (forall n u1 u2,
            u1 <> u2 ->
            (forall u, In (u, n) es <-> u = u1 \/ u = u2) ->
            In (n, 2) (in_degree g) /\ In n (identify_critical_nodes g))
      /\ (forall n u1,
            (forall u, In (u, n) es <-> u = u1) ->
            In (n, 1) (in_degree g) /\ ~ In n (identify_critical_nodes g))
      /\ (forall u v, _node (add_edge g u v) = set_add v (set_add u (_node g))))
  /\ (forall fs path g,
        build_import_graph fs path = Ok g ->
        identify_critical_nodes g
        = filter (fun n => 1 <? List.length (preds g n)) (_node g)
        /\ (forall n, In n (identify_critical_nodes g)
                      <-> In n (_node g) /\ 1 < List.length (preds g n))
        /\ (forall n, NoDup (preds g n)
                      /\ forall file, In file (preds g n)
                                      <-> extracts fs path file n)
        /\ (forall n file1 file2,
              file1 <> file2 ->
              (forall file, extracts fs path file n
                            <-> file = file1 \/ file = file2) ->
              In (n, 2) (in_degree g) /\ In n (identify_critical_nodes g))
        /\ (forall n file1,
              (forall file, extracts fs path file n <-> file = file1) ->
              In (n, 1) (in_degree g) /\ ~ In n (identify_critical_nodes g))).
Proof.
  assert (Hcalls : forall es,
    let g := graph_of es in
    (forall n, In n (identify_critical_nodes g)
               <-> In n (_node g) /\ 1 < List.length (preds g n))
    /\ (forall n u1 u2,
          u1 <> u2 ->
          (forall u, In (u, n) es <-> u = u1 \/ u = u2) ->
          In (n, 2) (in_degree g) /\ In n (identify_critical_nodes g))
    /\ (forall n u1,
          (forall u, In (u, n) es <-> u = u1) ->
          In (n, 1) (in_degree g) /\ ~ In n (identify_critical_nodes g))).
  { intros es g. pose proof (well_formed_graph_of es) as Hwf. fold g in Hwf.
    assert (Hcrit : forall n, In n (identify_critical_nodes g)
                              <-> In n (_node g) /\ 1 < List.length (preds g n)).
    { intros n. rewrite critical_as_filter, filter_In, Nat.ltb_lt. reflexivity. }
    assert (Hnode : forall u n, In (u, n) es -> In n (_node g)).
    { intros u n H. apply has_edge_graph_of in H.
      now apply (wf_endpoints g Hwf) in H. }
    assert (Hdeg : forall n, In n (_node g) ->
                             In (n, List.length (preds g n)) (in_degree g)).
    { intros n Hn. unfold in_degree. apply in_map_iff. exists n. auto. }
    split; [exact Hcrit|]. split.
    - intros n u1 u2 Hne Hes.
      assert (Hlen : List.length (preds g n) = 2).
      { apply (length_two _ u1 u2); [apply (wf_pred_nodup g Hwf)|assumption|].
        intros u. unfold g. rewrite preds_graph_of. apply Hes. }
      assert (Hn : In n (_node g)) by (apply (Hnode u1), Hes; now left).
      split; [rewrite <- Hlen; now apply Hdeg|].
      apply Hcrit. split; [assumption|lia].
    - intros n u1 Hes.
      assert (Hlen : List.length (preds g n) = 1).
      { apply (length_one _ u1); [apply (wf_pred_nodup g Hwf)|].
        intros u. unfold g. rewrite preds_graph_of. apply Hes. }
      assert (Hn : In n (_node g)) by (now apply (Hnode u1), Hes).
      split; [rewrite <- Hlen; now apply Hdeg|].
      rewrite Hcrit. lia. }
  split.
  - intros es g. pose proof (well_formed_graph_of es) as Hwf. fold g in Hwf.
    destruct (Hcalls es) as (Hcrit & H2 & H1). fold g in Hcrit, H2, H1.
    split; [reflexivity|].
    split; [intros n; split; [apply (wf_pred_nodup g Hwf)|
                              intros u; apply preds_graph_of]|].
    split; [apply critical_as_filter|].
    split; [exact Hcrit|]. split; [exact H2|]. split; [exact H1|].
    intros u v.
    apply node_add_edge; [apply (wf_succ_keys g Hwf)|apply (wf_pred_keys g Hwf)].
  - intros fs path g Hb.
    destruct (build_well_formed fs path g Hb) as (es & Hes & ->).
    destruct (Hcalls es) as (Hcrit & H2 & H1). cbv zeta in Hcrit, H2, H1.
    pose proof (well_formed_graph_of es) as Hwf.
    assert (Hex : forall u n, In (u, n) es <-> extracts fs path u n)
      by (intros u n; now apply import_edges_extracts).
    split; [apply critical_as_filter|]. split; [exact Hcrit|].
    split; [|split].
    + intros n. split; [apply (wf_pred_nodup _ Hwf)|].
      intros file. rewrite preds_graph_of. apply Hex.
    + intros n file1 file2 Hne Hfiles. apply (H2 n file1 file2 Hne).
      intros u. rewrite Hex. apply Hfiles.
    + intros n file1 Hfiles. apply (H1 n file1).
      intros u. rewrite Hex. apply Hfiles.
Qed.

(** Sources are nodes by base name: two distinct files [m.py], in two
    directories, both import [os], which yet has in-degree 1 and is not
    critical. *)
Lemma same_base_name_one_node :
  os_walk same_base codebase_path
  = [("./example-codebase/p", [], ["m.py"]);
     ("./example-codebase/q", [], ["m.py"])]
  /\ os_path_join "./example-codebase/p" "m.py"
     <> os_path_join "./example-codebase/q" "m.py"
  /\ parse_imports same_base (os_path_join "./example-codebase/p" "m.py")
     = Ok ["os"]
  /\ parse_imports same_base (os_path_join "./example-codebase/q" "m.py")
     = Ok ["os"]
  /\ build_import_graph same_base codebase_path = Ok (graph_of [("m.py", "os")])
  /\ in_degree (graph_of [("m.py", "os")]) = [("m.py", 0); ("os", 1)]
  /\ identify_critical_nodes (graph_of [("m.py", "os")]) = [].
Proof.
  split; [reflexivity|]. split; [discriminate|]. repeat split.
Qed.

Lemma critical_nodes_by_in_degree_witness :
  build_import_graph two_importers codebase_path
  = Ok (graph_of [("x.py", "os"); ("x.py", "re"); ("y.py", "os")])
  /\ In ("os", 2)
       (in_degree (graph_of [("x.py", "os"); ("x.py", "re"); ("y.py", "os")]))
  /\ In "os" (identify_critical_nodes
                (graph_of [("x.py", "os"); ("x.py", "re"); ("y.py", "os")]))
  /\ In ("re", 1)
       (in_degree (graph_of [("x.py", "os"); ("x.py", "re"); ("y.py", "os")]))
  /\ ~ In "re" (identify_critical_nodes
                  (graph_of [("x.py", "os"); ("x.py", "re"); ("y.py", "os")])).
Proof.
  assert (Hb : build_import_graph two_importers codebase_path
               = Ok (graph_of [("x.py", "os"); ("x.py", "re"); ("y.py", "os")]))
    by reflexivity.
  destruct (proj2 critical_nodes_by_in_degree two_importers codebase_path
              _ Hb) as (_ & _ & _ & H2 & H1).
  assert (Hx : extracts two_importers codebase_path "x.py" "os").
  { exists "./example-codebase", ["lib"], ["x.py"], ["os"; "re"].
    repeat split; cbn; auto. }
  assert (Hy : extracts two_importers codebase_path "y.py" "os").
  { exists "./example-codebase/lib", [], ["y.py"], ["os"].
    repeat split; cbn; auto. }
  assert (Hr : extracts two_importers codebase_path "x.py" "re").
  { exists "./example-codebase", ["lib"], ["x.py"], ["os"; "re"].
    repeat split; cbn; auto. }
  assert (Hfiles : forall file imp,
             extracts two_importers codebase_path file imp ->
             (file = "x.py" /\ (imp = "os" \/ imp = "re"))
             \/ (file = "y.py" /\ imp = "os")).
  { intros file imp (root & dirs & files & imports & Hw & Hf & _ & Hp & Hi).
    destruct Hw as [[= <- <- <-]|[[= <- <- <-]|[]]];
      destruct Hf as [<-|[]]; vm_compute in Hp; inversion Hp; subst imports.
    - left. split; [reflexivity|]. destruct Hi as [<-|[<-|[]]]; auto.
    - right. split; [reflexivity|]. destruct Hi as [<-|[]]; auto. }
  assert (Hos : forall file, extracts two_importers codebase_path file "os"
                             <-> file = "x.py" \/ file = "y.py").
  { intros file. split.
    - intros H. destruct (Hfiles _ _ H) as [[-> _]|[-> _]]; auto.
    - intros [-> | ->]; assumption. }
  assert (Hre : forall file, extracts two_importers codebase_path file "re"
                             <-> file = "x.py").
  { intros file. split.
    - intros H. destruct (Hfiles _ _ H) as [[-> _]|[_ Himp]];
        [reflexivity|discriminate].
    - intros ->. assumption. }
  destruct (H2 "os" "x.py" "y.py") as [Ha Hb']; [discriminate|exact Hos|].
  destruct (H1 "re" "x.py" Hre) as [Hc Hd].
  repeat split; assumption.
Defined.

(** C9. Every edge of a built graph leaves a node whose name ends in
    [".py"], the base name of a source file that was read, and enters a
    name extracted from that file.  So a node ending in [".py"] is the
    head of an edge only if an extracted name ends in [".py"], and the
    graph has a cycle, or a cycle is reported, only in that case. *)
Theorem edges_leave_sources :
  forall fs path g,
    build_import_graph fs path = Ok g ->
    (forall u v, has_edge g u v ->
                 endswith u ".py" = true /\ extracts fs path u v)
    /\ (forall u v, has_edge g u v -> endswith v ".py" = true ->
                    exists file, extracts fs path file v)
    /\ (forall c, is_cycle g c ->
                  exists file imp,
                    extracts fs path file imp /\ endswith imp ".py" = true)
    /\ (forall c, identify_circular_dependencies g = Ok c -> c <> [] ->
                  exists file imp,
                    extracts fs path file imp /\ endswith imp ".py" = true).
Proof.
  intros fs path g Hb.
  assert (Hcyc : forall c, is_cycle g c ->
                   exists file imp,
                     extracts fs path file imp /\ endswith imp ".py" = true).
  { intros c Hc. destruct (cycle_inner_node g c Hc) as (a & m & m' & H1 & H2).
    exists a, m. split.
    - now apply (build_edge_origin fs path g a m Hb).
    - now apply (build_edge_origin fs path g m m' Hb). }
  split; [intros u v; now apply build_edge_origin|].
  split; [intros u v Huv _; exists u;
          now apply (build_edge_origin fs path g u v Hb)|].
  split; [exact Hcyc|].
  intros c Hc Hne. apply (Hcyc c).
  unfold identify_circular_dependencies in Hc.
  pose proof (find_cycle_sound g) as Hs.
  destruct (find_cycle g) as [c'|e].
  - inversion Hc; subst. apply Hs.
  - subst e. inversion Hc; subst. congruence.
Qed.

Lemma edges_leave_sources_witness :
  exists g,
    build_import_graph imports_itself codebase_path = Ok g
    /\ has_edge g "a.py" "a.py"
    /\ identify_circular_dependencies g = Ok [("a.py", "a.py", forward)]
    /\ exists file imp,
         extracts imports_itself codebase_path file imp
         /\ endswith imp ".py" = true.
Proof.
  exists (graph_of [("a.py", "a.py")]).
  assert (Hb : build_import_graph imports_itself codebase_path
               = Ok (graph_of [("a.py", "a.py")])) by reflexivity.
  split; [exact Hb|]. split; [now left|]. split; [reflexivity|].
  apply (proj2 (proj2 (proj2 (edges_leave_sources _ _ _ Hb)))
           [("a.py", "a.py", forward)]); [reflexivity|discriminate].
Defined.

End GraphClaims.

(** ** Cycle detection and its report *)

Module CycleClaims.
Import PyStr Extractor Nx NxSpec App BuildSpec Fixtures.
Import ExtractorFacts NxFacts BuildFacts DfsFacts SearchFacts CompleteFacts.

Lemma reported_cycle g :
  exists c, identify_circular_dependencies g = Ok c
            /\ (c = [] \/ simple_cycle g c).
Proof.
  unfold identify_circular_dependencies.
  pose proof (find_cycle_sound g) as Hs.
  destruct (find_cycle g) as [c|e].
  - exists c. auto.
  - subst e. exists []. auto.
Qed.

Lemma reported_cycle_simple g c :
  identify_circular_dependencies g = Ok c -> c <> [] -> simple_cycle g c.
Proof.
  intros Hc Hne. destruct (reported_cycle g) as (c' & Hc' & [->|Hs]).
  - rewrite Hc in Hc'. inversion Hc'. congruence.
  - rewrite Hc in Hc'. inversion Hc'. now subst.
Qed.

(** On a graph made by [add_edge] calls, nothing is reported exactly when
    there is no cycle. *)
Lemma reported_nothing_iff es :
  identify_circular_dependencies (graph_of es) = Ok []
  <-> acyclic (graph_of es).
Proof.
  unfold identify_circular_dependencies.
  pose proof (find_cycle_sound (graph_of es)) as Hs.
  pose proof (find_cycle_complete (graph_of es) (well_formed_graph_of es)) as Hc.
  destruct (find_cycle (graph_of es)) as [c|e].
  - split.
    + intros [= ->]. destruct Hs as [[Hne _] _]. congruence.
    + intros Hac. exfalso. apply (Hac c), Hs.
  - subst e. split; [intros _; now apply Hc|reflexivity].
Qed.


Lemma insight_lines_total g : exists lines, insight_lines g = Ok lines.
Proof.
  unfold insight_lines. destruct (reported_cycle g) as (c & -> & _).
  cbn [bind]. destruct c; eauto.
Qed.

(** C4. Cycle detection never fails: for every graph it returns one list of
    edges, which is empty or one simple cycle of the graph, never several
    cycles; on a graph with no cycle the list is empty, and on a graph
    made by [add_edge] calls it is empty only then.  The depth-first
    search under it always ends within its budget, and the summary is
    always produced.  With two disjoint cycles only one is returned. *)
Theorem cycle_detection_guarded :
  (forall g,
      (exists c, identify_circular_dependencies g = Ok c
                 /\ (c = [] \/ simple_cycle g c))
      /\ (acyclic g -> identify_circular_dependencies g = Ok [])
      /\ (forall source, exists ys, edge_dfs g source = Ok ys)
      /\ (exists summary, draw_insights g = Ok summary))
  /\ (forall es, identify_circular_dependencies (graph_of es) = Ok []
                 <-> acyclic (graph_of es))
  /\ identify_circular_dependencies (graph_of two_cycles)
     = Ok [("a", "b", forward); ("b", "a", forward)].
Proof.
  split; [|split; [exact reported_nothing_iff|reflexivity]].
  intros g. split; [apply reported_cycle|].
  split; [|split; [apply edge_dfs_total|]].
  - intros Hac. destruct (reported_cycle g) as (c & Hc & [->|[Hcyc _]]);
      [assumption|].
    now apply Hac in Hcyc.
  - unfold draw_insights. destruct (insight_lines_total g) as [l ->].
    cbn. eauto.
Qed.

Lemma one_import_acyclic : acyclic (graph_of [("a.py", "os")]).
Proof.
  intros c Hc. destruct (cycle_inner_node _ _ Hc) as (a & m & m' & H1 & H2).
  apply has_edge_graph_of in H1, H2.
  destruct H1 as [H1|[]], H2 as [H2|[]]. inversion H1; inversion H2; subst.
  discriminate.
Qed.

Lemma cycle_detection_guarded_witness :
  acyclic (graph_of [("a.py", "os")])
  /\ identify_circular_dependencies (graph_of [("a.py", "os")]) = Ok [].
Proof.
  split; [exact one_import_acyclic|].
  exact (proj1 (proj2 (proj1 cycle_detection_guarded _)) one_import_acyclic).
Defined.




(** C10. When a cycle is found, the line ["Number of circular
    dependencies"] gives the number of edges of that one cycle, which is
    the length of the edge list on the next line, not a number of cycles.
    For the cycle A -> B, B -> C, C -> A it reads 3. *)
Theorem circular_count_is_edge_count :
  (forall g c,
      identify_circular_dependencies g = Ok c -> c <> [] ->
      simple_cycle g c
      /\ exists lines,
           insight_lines g = Ok lines
           /\ List.length lines = 7
           /\ nth 5 lines ""
              = ("Number of circular dependencies: "
                   ++ str_of_nat (List.length c))%string
           /\ nth 6 lines ""
              = ("Circular dependencies: "
                   ++ join ", " (map show_edge c))%string)
  /\ (exists lines,
        insight_lines (graph_of [AB; BC; CA]) = Ok lines
        /\ nth 5 lines "" = "Number of circular dependencies: 3"
        /\ nth 6 lines "" = "Circular dependencies: A -> B, B -> C, C -> A")
  /\ (exists lines,
        insight_lines (graph_of two_cycles) = Ok lines
        /\ nth 5 lines "" = "Number of circular dependencies: 2").
Proof.
  split; [|split; eexists; (split; [vm_compute; reflexivity|]);
           repeat split; reflexivity].
  intros g c Hc Hne. split; [now apply reported_cycle_simple|].
  unfold insight_lines. rewrite Hc. cbn [bind].
  destruct c as [|e c]; [congruence|].
  eexists. split; [reflexivity|]. repeat split; reflexivity.
Qed.

Lemma circular_count_is_edge_count_witness :
  simple_cycle (graph_of [AB; BC; CA])
    [("A", "B", forward); ("B", "C", forward); ("C", "A", forward)]
  /\ exists lines,
       insight_lines (graph_of [AB; BC; CA]) = Ok lines
       /\ List.length lines = 7
       /\ nth 5 lines "" = "Number of circular dependencies: 3"
       /\ nth 6 lines "" = "Circular dependencies: A -> B, B -> C, C -> A".
Proof.
  apply (proj1 circular_count_is_edge_count (graph_of [AB; BC; CA])
           [("A", "B", forward); ("B", "C", forward); ("C", "A", forward)]);
    [reflexivity|discriminate].
Defined.

End CycleClaims.


(** ** Further properties of the extractor *)

Module ParserExtras.
Import PyStr Extractor Nx NxSpec App BuildSpec Fixtures MoreSpec MoreFixtures.
Import ExtractorFacts.

Lemma no_space_app a b :
  no_space (a ++ b) = no_space a && no_space b.
Proof.
  induction a as [|c a IH]; cbn; [reflexivity|].
  now rewrite IH, andb_assoc.
Qed.

Lemma is_empty_snoc cur c : is_empty (cur ++ String c "") = false.
Proof. now destruct cur. Qed.

(** The tokens of [split] are not empty and hold no whitespace. *)
Lemma split_from_tokens : forall s cur tok,
  no_space cur = true ->
  In tok (split_from cur s) ->
  is_empty tok = false /\ no_space tok = true.
Proof.
  induction s as [|c s IH]; intros cur tok Hcur Hin; cbn [split_from] in Hin.
  - destruct (is_empty cur) eqn:He; [destruct Hin|].
    destruct Hin as [<-|[]]. auto.
  - destruct (isspace c) eqn:Hc.
    + destruct (is_empty cur) eqn:He.
      * now apply (IH "" tok).
      * destruct Hin as [<-|Hin]; [auto|]. now apply (IH "" tok).
    + apply (IH (cur ++ String c "")%string tok); [|assumption].
      rewrite no_space_app, Hcur. cbn. now rewrite Hc.
Qed.

Lemma split_tokens s tok :
  In tok (split s) -> is_empty tok = false /\ no_space tok = true.
Proof. now apply (split_from_tokens s ""). Qed.

Lemma spec_line_names_clean line name :
  In name (spec_line_names line) ->
  is_empty name = false /\ no_space name = true.
Proof.
  unfold spec_line_names, spec_trimmed_names.
  destruct (startswith (strip line) "import ").
  - destruct (split (strip line)) as [|p0 [|p1 ps]] eqn:Hs;
      [intros []|intros []|].
    intros [<-|[]]. apply (split_tokens (strip line)). rewrite Hs.
    right. now left.
  - destruct (startswith (strip line) "from "); [|intros []].
    destruct (split (strip line)) as [|p0 [|p1 [|p2 [|p3 ps]]]] eqn:Hs;
      [intros []|intros []|intros []|intros []|].
    destruct (String.eqb p2 "import"); [|intros []].
    intros [<-|[]].
    assert (H1 : is_empty p1 = false /\ no_space p1 = true).
    { apply (split_tokens (strip line)). rewrite Hs. right. now left. }
    assert (H3 : is_empty p3 = false /\ no_space p3 = true).
    { apply (split_tokens (strip line)). rewrite Hs. do 3 right. now left. }
    split.
    + destruct p1; [now destruct H1|reflexivity].
    + rewrite !no_space_app. destruct H1 as [_ ->], H3 as [_ ->]. reflexivity.
Qed.

(** X1. Every name [parse_imports] returns is non-empty and holds no
    whitespace character. *)
Theorem extracted_names_clean :
  forall fs path names name,
    parse_imports fs path = Ok names ->
    In name names ->
    is_empty name = false /\ no_space name = true.
Proof.
  intros fs path names name Hp Hin. unfold parse_imports in Hp.
  destruct (open_read fs path) as [contents|]; cbn [bind] in Hp;
    [|discriminate].
  inversion Hp; subst names. clear Hp.
  rewrite fold_parse_line in Hin. cbn [app] in Hin.
  apply in_flat_map in Hin. destruct Hin as (line & _ & Hin).
  now apply spec_line_names_clean in Hin.
Qed.

Lemma extracted_names_clean_witness :
  is_empty "a.b" = false /\ no_space "a.b" = true.
Proof.
  apply (extracted_names_clean (one_file "m.py" two_imports) "m.py"
           ["os"; "a.b"] "a.b").
  - reflexivity.
  - right. now left.
Defined.

Lemma prefix_app p : forall s,
  String.prefix p s = true -> exists rest, s = (p ++ rest)%string.
Proof.
  induction p as [|a p IH]; intros s H.
  - now exists s.
  - destruct s as [|b s]; cbn in H; [discriminate|].
    destruct (ascii_dec a b) as [->|]; [|discriminate].
    destruct (IH s H) as [rest ->]. now exists rest.
Qed.

(** What is left of [rstrip] is empty or ends with a character that is
    not whitespace. *)
Lemma rstrip_last s :
  rstrip s = EmptyString
  \/ exists pre c, rstrip s = (pre ++ String c "")%string /\ isspace c = false.
Proof.
  induction s as [|a s IH]; cbn [rstrip]; [now left|].
  destruct (is_empty (rstrip s)) eqn:He.
  - destruct (isspace a) eqn:Ha; cbn [andb]; [now left|].
    right. exists EmptyString, a. destruct (rstrip s); [auto|cbn in He; discriminate].
  - cbn [andb]. right. destruct IH as [H0|(pre & c & Hs & Hc)].
    + rewrite H0 in He. cbn in He. discriminate.
    + exists (String a pre), c. now rewrite Hs.
Qed.

Lemma snoc_of_app a : forall pre c rest,
  (a ++ rest)%string = (pre ++ String c "")%string ->
  (rest = EmptyString /\ a = (pre ++ String c "")%string)
  \/ exists pre', rest = (pre' ++ String c "")%string.
Proof.
  induction a as [|x a IH]; intros pre c rest H; cbn in H.
  - right. now exists pre.
  - destruct pre as [|y pre]; cbn in H.
    + inversion H as [[Hx Hr]]. destruct a; [|discriminate].
      cbn in Hr. subst rest. now left.
    + inversion H as [[Hx Hr]]. destruct (IH _ _ _ Hr) as [[-> ->]|Hex].
      * now left.
      * now right.
Qed.

Lemma last_char_snoc pre c : last_char (pre ++ String c "") = Some c.
Proof.
  induction pre as [|x pre IH]; [reflexivity|].
  cbn [append last_char]. destruct (pre ++ String c "")%string eqn:E.
  - destruct pre; discriminate.
  - exact IH.
Qed.

Lemma split_from_nonempty pre c :
  isspace c = false ->
  forall cur, split_from cur (pre ++ String c "") <> [].
Proof.
  intros Hc. induction pre as [|x pre IH]; intros cur; cbn [append split_from].
  - rewrite Hc. cbn [split_from]. now rewrite is_empty_snoc.
  - destruct (isspace x); [|apply IH].
    destruct (is_empty cur); [apply IH|discriminate].
Qed.

Lemma split_import rest :
  split ("import " ++ rest) = "import" :: split_from "" rest.
Proof. reflexivity. Qed.

(** After [strip], a line that starts with ["import "] has a second
    token. *)
Lemma import_line_two_tokens line :
  startswith (strip line) "import " = true ->
  exists p1 ps, split (strip line) = "import" :: p1 :: ps.
Proof.
  intros Hpre. destruct (prefix_app _ _ Hpre) as [rest Hrest].
  destruct (rstrip_last (lstrip line)) as [H0|(pre & c & Hs & Hc)];
    fold (strip line) in *.
  - rewrite H0 in Hrest. discriminate.
  - rewrite Hrest in Hs. apply snoc_of_app in Hs.
    destruct Hs as [[_ Habs]|[pre' ->]].
    + apply (f_equal last_char) in Habs. rewrite last_char_snoc in Habs.
      cbn in Habs. inversion Habs; subst c. discriminate.
    + rewrite Hrest, split_import.
      pose proof (split_from_nonempty pre' c Hc "") as Hne.
      destruct (split_from "" (pre' ++ String c "")) as [|p1 ps];
        [congruence|eauto].
Qed.

Lemma spec_line_names_short line : List.length (spec_line_names line) <= 1.
Proof.
  unfold spec_line_names, spec_trimmed_names.
  destruct (startswith (strip line) "import ").
  - destruct (split (strip line)) as [|p0 [|p1 ps]]; cbn; lia.
  - destruct (startswith (strip line) "from "); [|cbn; lia].
    destruct (split (strip line)) as [|p0 [|p1 [|p2 [|p3 ps]]]]; cbn; try lia.
    destruct (String.eqb p2 "import"); cbn; lia.
Qed.

(** X2. A line that starts with ["import "] once stripped always gives
    exactly one name, its second token: the test [len(parts) > 1] cannot
    fail.  No line gives more than one name, so a file gives at most as
    many names as it has lines. *)
Theorem one_name_per_line :
  (forall line,
      startswith (strip line) "import " = true ->
      1 < List.length (split (strip line))
      /\ forall imports,
           parse_line imports line = imports ++ [nth 1 (split (strip line)) ""])
  /\ (forall imports line,
        List.length (parse_line imports line) <= S (List.length imports))
  /\ (forall fs path names,
        parse_imports fs path = Ok names ->
        exists contents,
          open_read fs path = Ok contents
          /\ List.length names <= List.length (readlines contents)).
Proof.
  split; [|split].
  - intros line Hpre.
    destruct (import_line_two_tokens line Hpre) as (p1 & ps & Hs).
    split; [rewrite Hs; cbn; lia|].
    intros imports. unfold parse_line. rewrite Hpre, Hs. reflexivity.
  - intros imports line. rewrite parse_line_spec, length_app.
    pose proof (spec_line_names_short line). lia.
  - intros fs path names Hp. unfold parse_imports in Hp.
    destruct (open_read fs path) as [contents|]; cbn [bind] in Hp;
    [|discriminate].
    exists contents. split; [reflexivity|]. inversion Hp; subst names.
    clear Hp. rewrite fold_parse_line.
    change ([] ++ flat_map spec_line_names (readlines contents))
      with (flat_map spec_line_names (readlines contents)).
    induction (readlines contents) as [|l ls IH]; [apply Nat.le_refl|].
    cbn [flat_map List.length]. rewrite length_app.
    pose proof (spec_line_names_short l). lia.
Qed.


Lemma sapp_assoc (a b c : string) : ((a ++ b) ++ c = a ++ (b ++ c))%string.
Proof. induction a as [|x a IH]; cbn; [reflexivity|now rewrite IH]. Qed.

Lemma sapp_nil_r (a : string) : (a ++ "" = a)%string.
Proof. induction a as [|x a IH]; cbn; [reflexivity|now rewrite IH]. Qed.

Lemma universal_newlines_line l rest :
  one_line l = true ->
  universal_newlines (l ++ rest) = (l ++ universal_newlines rest)%string.
Proof.
  induction l as [|c l IH]; intros Hl; [reflexivity|].
  cbn [one_line] in Hl. apply andb_prop in Hl. destruct Hl as [Hc Hl].
  apply andb_prop in Hc. destruct Hc as [Hcr _]. apply negb_true_iff in Hcr.
  cbn [append universal_newlines]. rewrite Hcr, (IH Hl). reflexivity.
Qed.

Lemma universal_newlines_cr rest :
  head_not_lf rest ->
  universal_newlines (String CR rest) = String LF (universal_newlines rest).
Proof.
  intros H. cbn [universal_newlines].
  change (Ascii.eqb CR CR) with true. cbv iota.
  destruct rest as [|c r]; [reflexivity|]. cbn [head_not_lf] in H.
  now rewrite H.
Qed.

Lemma head_not_lf_line l rest :
  one_line l = true -> head_not_lf rest -> head_not_lf (l ++ rest).
Proof.
  destruct l as [|c l]; intros Hl Hr; [exact Hr|].
  cbn [one_line] in Hl. apply andb_prop in Hl. destruct Hl as [Hc _].
  apply andb_prop in Hc. destruct Hc as [_ Hlf]. now apply negb_true_iff in Hlf.
Qed.

Lemma one_line_head l : one_line l = true -> head_not_lf l.
Proof.
  intros H. rewrite <- (sapp_nil_r l). now apply head_not_lf_line.
Qed.

Lemma universal_newlines_with_eol eol ls last :
  terminator eol ->
  Forall (fun l => one_line l = true) ls ->
  one_line last = true ->
  universal_newlines (with_eol eol ls ++ last)
  = (with_eol (String LF "") ls ++ last)%string
    /\ (eol = String CR "" -> head_not_lf (with_eol eol ls ++ last)).
Proof.
  intros Heol Hls Hlast. induction Hls as [|l ls Hl Hls [IH1 IH2]].
  - cbn [with_eol append]. split.
    + rewrite <- (sapp_nil_r last) at 1.
      rewrite (universal_newlines_line last "" Hlast). cbn.
      now rewrite sapp_nil_r.
    + intros _. now apply one_line_head.
  - cbn [with_eol]. rewrite !sapp_assoc. split.
    + rewrite (universal_newlines_line l _ Hl). f_equal.
      destruct Heol as [-> | [-> | ->]].
      * cbn [append universal_newlines].
        change (Ascii.eqb LF CR) with false. cbv iota. now rewrite IH1.
      * cbn [append universal_newlines].
        change (Ascii.eqb CR CR) with true. change (Ascii.eqb LF LF) with true.
        cbv iota. now rewrite IH1.
      * cbn [append]. rewrite universal_newlines_cr by now apply IH2.
        now rewrite IH1.
    + intros ->. apply head_not_lf_line; [exact Hl|reflexivity].
Qed.

Lemma lines_from_line l : forall cur rest,
  one_line l = true ->
  lines_from cur (l ++ String LF rest)
  = (cur ++ l ++ String LF "")%string :: lines_from "" rest.
Proof.
  induction l as [|c l IH]; intros cur rest Hl.
  - reflexivity.
  - cbn [one_line] in Hl. apply andb_prop in Hl. destruct Hl as [Hc Hl].
    apply andb_prop in Hc. destruct Hc as [_ Hlf]. apply negb_true_iff in Hlf.
    cbn [append lines_from]. rewrite Hlf, (IH _ _ Hl), sapp_assoc. reflexivity.
Qed.

Lemma lines_from_last l : forall cur,
  one_line l = true ->
  lines_from cur l = if is_empty (cur ++ l) then [] else [(cur ++ l)%string].
Proof.
  induction l as [|c l IH]; intros cur Hl.
  - cbn [lines_from]. now rewrite sapp_nil_r.
  - cbn [one_line] in Hl. apply andb_prop in Hl. destruct Hl as [Hc Hl].
    apply andb_prop in Hc. destruct Hc as [_ Hlf]. apply negb_true_iff in Hlf.
    cbn [lines_from]. rewrite Hlf, (IH _ Hl), sapp_assoc. reflexivity.
Qed.

Lemma lines_from_with_eol ls last :
  Forall (fun l => one_line l = true) ls ->
  one_line last = true ->
  lines_from "" (with_eol (String LF "") ls ++ last)
  = map (fun l => (l ++ String LF "")%string) ls
    ++ (if is_empty last then [] else [last]).
Proof.
  intros Hls Hlast. induction Hls as [|l ls Hl Hls IH].
  - cbn [with_eol map app append]. now rewrite (lines_from_last last "" Hlast).
  - cbn [with_eol map app]. rewrite sapp_assoc. cbn [append].
    now rewrite (lines_from_line l "" _ Hl), IH.
Qed.

Lemma rstrip_space s c :
  isspace c = true -> rstrip (s ++ String c "") = rstrip s.
Proof.
  intros Hc. induction s as [|a s IH]; cbn [append rstrip].
  - now rewrite Hc.
  - now rewrite IH.
Qed.

Lemma lstrip_space s c :
  isspace c = true ->
  lstrip (s ++ String c "") = (lstrip s ++ String c "")%string
  \/ (lstrip s = "" /\ lstrip (s ++ String c "") = "").
Proof.
  intros Hc. induction s as [|a s IH]; cbn [append lstrip].
  - right. now rewrite Hc.
  - destruct (isspace a); [exact IH|]. now left.
Qed.

Lemma strip_space s c : isspace c = true -> strip (s ++ String c "") = strip s.
Proof.
  intros Hc. unfold strip. destruct (lstrip_space s c Hc) as [-> | [-> ->]].
  - now apply rstrip_space.
  - reflexivity.
Qed.

Lemma spec_line_names_lf l :
  spec_line_names (l ++ String LF "") = spec_line_names l.
Proof. unfold spec_line_names. now rewrite strip_space. Qed.

(** X14. The names extracted from a file are those of its lines, one line
    after the other, whichever of LF, CR LF and CR ends the lines and
    whether or not the last line is ended: the terminator is no part of a
    name. *)
Theorem line_terminator_does_not_matter :
  forall fs path eol ls last,
    terminator eol ->
    Forall (fun l => one_line l = true) ls ->
    one_line last = true ->
    open_read fs path = Ok (with_eol eol ls ++ last)%string ->
    parse_imports fs path = Ok (flat_map spec_line_names (ls ++ [last])).
Proof.
  intros fs path eol ls last Heol Hls Hlast Hopen.
  unfold parse_imports. rewrite Hopen. cbn [bind].
  rewrite fold_parse_line, app_nil_l. f_equal.
  unfold readlines.
  rewrite (proj1 (universal_newlines_with_eol eol ls last Heol Hls Hlast)).
  rewrite (lines_from_with_eol ls last Hls Hlast), !flat_map_app.
  f_equal.
  - clear. induction ls as [|l ls IH]; [reflexivity|].
    cbn [map flat_map]. now rewrite spec_line_names_lf, IH.
  - destruct last; reflexivity.
Qed.

Lemma line_terminator_does_not_matter_witness :
  parse_imports
    (one_file "m.py"
       ("import os" ++ String CR (String LF "from a import b")))%string "m.py"
  = Ok ["os"; "a.b"].
Proof.
  apply (line_terminator_does_not_matter
           (one_file "m.py"
              ("import os" ++ String CR (String LF "from a import b"))%string)
           "m.py" (String CR (String LF "")) ["import os"] "from a import b").
  - right. now left.
  - repeat constructor.
  - reflexivity.
  - reflexivity.
Defined.

End ParserExtras.

(** ** Further properties of the build *)

Module BuildExtras.
Import PyStr Extractor Nx NxSpec App BuildSpec Fixtures MoreSpec MoreFixtures.
Import ExtractorFacts NxFacts BuildFacts.

Lemma collect_ok {A B : Type} (f : A -> result (list B)) l :
  (forall a, In a l -> exists x, f a = Ok x) ->
  exists xs, collect f l = Ok xs.
Proof.
  induction l as [|a l IH]; intros H; cbn [collect]; [eauto|].
  destruct (H a (or_introl eq_refl)) as [x ->].
  destruct IH as [xs ->]; [intros b Hb; apply H; now right|].
  cbn. eauto.
Qed.

Lemma collect_ok_inv {A B : Type} (f : A -> result (list B)) l xs a :
  collect f l = Ok xs -> In a l -> exists x, f a = Ok x.
Proof.
  intros Hc Hin. destruct (f a) as [x|e] eqn:Hfa; [eauto|].
  destruct (collect_raise f l a e Hin Hfa) as (a' & e' & _ & _ & Hr).
  congruence.
Qed.

Lemma collect_app {A B : Type} (f : A -> result (list B)) l1 l2 :
  collect f (l1 ++ l2)
  = x <- collect f l1 ;; y <- collect f l2 ;; Ok (x ++ y).
Proof.
  induction l1 as [|a l1 IH].
  - cbn. destruct (collect f l2); reflexivity.
  - rewrite <- app_comm_cons. cbn [collect].
    destruct (f a) as [xa|]; cbn [bind]; [|reflexivity].
    rewrite IH. destruct (collect f l1) as [x1|]; cbn [bind]; [|reflexivity].
    destruct (collect f l2) as [x2|]; cbn [bind]; [|reflexivity].
    now rewrite app_assoc.
Qed.

Lemma collect_ext_in {A B : Type} (f f' : A -> result (list B)) l :
  (forall a, In a l -> f a = f' a) -> collect f l = collect f' l.
Proof.
  induction l as [|a l IH]; intros H; cbn [collect]; [reflexivity|].
  rewrite (H a (or_introl eq_refl)), IH; [reflexivity|].
  intros b Hb. apply H. now right.
Qed.

Lemma file_edges_ok_iff fs root file :
  (exists es, file_edges fs root file = Ok es)
  <-> (endswith file ".py" = true ->
       exists contents, open_read fs (os_path_join root file) = Ok contents).
Proof.
  unfold file_edges, parse_imports. destruct (endswith file ".py").
  - destruct (open_read fs (os_path_join root file)) as [c|]; cbn [bind].
    + split; eauto.
    + split; [intros [es H]; discriminate|].
      intros H. destruct (H eq_refl) as [c Hc]. discriminate.
  - split; [intros _ H; discriminate|eauto].
Qed.

Lemma import_edges_ok_iff fs path :
  (exists es, import_edges fs path = Ok es) <-> sources_readable fs path.
Proof.
  unfold import_edges. split.
  - intros [es Hes] root dirs files file Hw Hf Hpy.
    destruct (collect_ok_inv _ _ _ _ Hes Hw) as [ed Hd].
    unfold dir_edges in Hd. cbn [fst snd] in Hd.
    destruct (collect_ok_inv _ _ _ _ Hd Hf) as [ef Hfe].
    apply (proj1 (file_edges_ok_iff fs root file)); eauto.
  - intros Hr. apply collect_ok. intros [[root dirs] files] Hw.
    unfold dir_edges. cbn [fst snd]. apply collect_ok. intros file Hf.
    apply file_edges_ok_iff. intros Hpy. now apply (Hr root dirs files file).
Qed.

(** X3. The build returns a graph exactly when every file of the walk
    whose name ends in [".py"] can be read; files with another name do not
    matter. *)
Theorem build_succeeds_iff_sources_readable :
  forall fs path,
    (exists g, build_import_graph fs path = Ok g)
    <-> sources_readable fs path.
Proof.
  intros fs path. rewrite <- import_edges_ok_iff, build_import_graph_edges.
  split.
  - intros [g Hg]. destruct (import_edges fs path) as [es|]; [eauto|discriminate].
  - intros [es ->]. cbn. eauto.
Qed.

(** X4. A failed build raises the exception of the first unreadable
    source in walk order, whatever that exception is: when the sources
    before it can be read and reading it raises [e], the build raises
    [e], and what comes after it in the walk is not looked at. *)
Theorem first_unreadable_source_reported :
  forall fs path ws1 root dirs files1 file files2 ws2 e,
    os_walk fs path = ws1 ++ (root, dirs, files1 ++ file :: files2) :: ws2 ->
    (forall r d fl f, In (r, d, fl) ws1 -> In f fl -> endswith f ".py" = true ->
                      exists contents, open_read fs (os_path_join r f) = Ok contents) ->
    (forall f, In f files1 -> endswith f ".py" = true ->
               exists contents, open_read fs (os_path_join root f) = Ok contents) ->
    endswith file ".py" = true ->
    open_read fs (os_path_join root file) = Raise e ->
    build_import_graph fs path = Raise e.
Proof.
  intros fs path ws1 root dirs files1 file files2 ws2 e Hwalk H1 H2 Hpy Hopen.
  rewrite build_import_graph_edges. unfold import_edges. rewrite Hwalk.
  rewrite collect_app.
  destruct (collect_ok (dir_edges fs) ws1) as [x1 ->].
  { intros [[r d] fl] Hw. unfold dir_edges. cbn [fst snd]. apply collect_ok.
    intros f Hf. apply file_edges_ok_iff. intros Hfpy.
    now apply (H1 r d fl f). }
  cbn [bind collect]. unfold dir_edges at 1. cbn [fst snd].
  rewrite collect_app.
  destruct (collect_ok (file_edges fs root) files1) as [x2 ->].
  { intros f Hf. apply file_edges_ok_iff. intros Hfpy. now apply H2. }
  cbn [bind collect]. unfold file_edges at 1, parse_imports.
  rewrite Hpy, Hopen. reflexivity.
Qed.

Lemma first_unreadable_source_reported_witness :
  build_import_graph undecodable_b codebase_path = Raise UnicodeDecodeError.
Proof.
  apply (first_unreadable_source_reported undecodable_b codebase_path
           [] "./example-codebase" ["d"] ["a.py"] "b.py" ["c.py"]
           [("./example-codebase/d", [], ["e.py"])]).
  - reflexivity.
  - intros r d fl f [].
  - intros f [<-|[]] _. now exists "import os".
  - reflexivity.
  - reflexivity.
Defined.

Lemma import_edges_same_files fs fs' ws ws' :
  Forall2 same_files ws ws' ->
  (forall root dirs files file,
      In (root, dirs, files) ws -> In file files ->
      endswith file ".py" = true ->
      open_read fs (os_path_join root file)
      = open_read fs' (os_path_join root file)) ->
  collect (dir_edges fs) ws = collect (dir_edges fs') ws'.
Proof.
  induction 1 as [|[[root dirs] files] [[root' dirs'] files'] ws ws' Hw Hws IH];
    intros Hread; [reflexivity|].
  destruct Hw as [Hr Hf]. cbn in Hr, Hf. subst root' files'.
  cbn [collect]. rewrite IH.
  - replace (dir_edges fs' (root, dirs', files))
      with (dir_edges fs (root, dirs, files)); [reflexivity|].
    unfold dir_edges. cbn [fst snd]. apply collect_ext_in.
    intros file Hfile. unfold file_edges, parse_imports.
    destruct (endswith file ".py") eqn:Hpy; [|reflexivity].
    rewrite (Hread root dirs files file); auto. now left.
  - intros r d fl f Hin. apply (Hread r d fl f). now right.
Qed.

(** X5. The build reads the sources only: two file systems with the same
    roots and file names in their walks, which agree on what reading each
    file named [*.py] gives, build the same graph or fail alike, whatever
    their other files hold and whatever subdirectories the walks list. *)
Theorem only_sources_are_read :
  forall fs fs' path,
    Forall2 same_files (os_walk fs path) (os_walk fs' path) ->
    (forall root dirs files file,
        In (root, dirs, files) (os_walk fs path) -> In file files ->
        endswith file ".py" = true ->
        open_read fs (os_path_join root file)
        = open_read fs' (os_path_join root file)) ->
    build_import_graph fs path = build_import_graph fs' path.
Proof.
  intros fs fs' path Hwalk Hread. rewrite !build_import_graph_edges.
  unfold import_edges. now rewrite (import_edges_same_files fs fs' _ _ Hwalk Hread).
Qed.

Lemma only_sources_are_read_witness :
  build_import_graph unreadable_notes codebase_path
  = build_import_graph readable_notes codebase_path.
Proof.
  apply (only_sources_are_read unreadable_notes readable_notes codebase_path).
  - repeat constructor.
  - intros root dirs files file [H|[]] Hf Hpy. inversion H; subst.
    destruct Hf as [<-|[<-|[]]]; [reflexivity|discriminate].
Defined.

End BuildExtras.

(** ** Further properties of the graph and its analysis *)

Module AnalysisExtras.
Import PyStr Extractor Nx NxSpec App BuildSpec Fixtures Viz MoreSpec MoreFixtures.
Import ExtractorFacts NxFacts BuildFacts DfsFacts SearchFacts CompleteFacts.
Import GraphClaims CycleClaims BuildExtras.

Lemma set_update_snoc s t x :
  set_update s (t ++ [x]) = set_add x (set_update s t).
Proof. unfold set_update. now rewrite fold_left_app. Qed.

Lemma endpoints_snoc es e :
  endpoints (es ++ [e]) = (endpoints es ++ [fst e]) ++ [snd e].
Proof.
  unfold endpoints. rewrite flat_map_app. cbn [flat_map].
  rewrite app_nil_r, <- app_assoc. reflexivity.
Qed.

Lemma node_graph_of es : _node (graph_of es) = set_update [] (endpoints es).
Proof.
  induction es as [|e es IH] using rev_ind; [reflexivity|].
  pose proof (well_formed_graph_of es) as Hwf.
  rewrite graph_of_snoc, endpoints_snoc, !set_update_snoc, <- IH.
  apply node_add_edge; [apply (wf_succ_keys _ Hwf)|apply (wf_pred_keys _ Hwf)].
Qed.

Lemma endpoints_In es n :
  In n (endpoints es) <-> exists u v, In (u, v) es /\ (n = u \/ n = v).
Proof.
  unfold endpoints. rewrite in_flat_map. split.
  - intros ([u v] & He & [<-|[<-|[]]]); exists u, v; auto.
  - intros (u & v & He & Hn). exists (u, v). split; [assumption|].
    cbn. destruct Hn as [->| ->]; auto.
Qed.

Lemma node_graph_of_In es n :
  In n (_node (graph_of es))
  <-> exists u v, In (u, v) es /\ (n = u \/ n = v).
Proof.
  rewrite node_graph_of, set_update_In, endpoints_In. cbn. tauto.
Qed.

(** X6. The nodes of a graph are the ends of the [add_edge] calls, each
    once, in the order in which they first appear (tail before head); so
    every node has an edge, in or out. *)
Theorem nodes_in_order_of_first_use :
  forall es,
    let g := graph_of es in
    _node g = set_update [] (endpoints es)
    /\ NoDup (_node g)
    /\ (forall n, In n (_node g)
                  <-> exists u v, In (u, v) es /\ (n = u \/ n = v))
    /\ (forall n, In n (_node g) -> succs g n <> [] \/ preds g n <> []).
Proof.
  intros es g. split; [apply node_graph_of|].
  split; [apply (wf_nodes _ (well_formed_graph_of es))|].
  split; [apply node_graph_of_In|].
  intros n Hn. apply node_graph_of_In in Hn.
  destruct Hn as (u & v & He & [-> | ->]).
  - left. apply has_edge_graph_of in He. unfold has_edge in He.
    intros H. fold g in He. rewrite H in He. destruct He.
  - right. apply preds_graph_of in He. intros H. fold g in He.
    rewrite H in He. destruct He.
Qed.

(** X7. A name is a node of a built graph exactly when it is the base
    name of a source of the walk from which some name is extracted, or a
    name extracted from a source.  Sources count by base name: a file
    from which nothing is extracted gives no node of its own, and its
    base name is a node when another file of that base name yields a name
    or when the name is itself extracted. *)
Theorem nodes_are_extraction_names :
  forall fs path g,
    build_import_graph fs path = Ok g ->
    forall n,
      In n (_node g)
      <-> (exists imp, extracts fs path n imp)
          \/ (exists file, extracts fs path file n).
Proof.
  intros fs path g Hb n.
  destruct (build_well_formed fs path g Hb) as (es & Hes & ->).
  rewrite node_graph_of_In. split.
  - intros (u & v & He & Hn).
    apply (import_edges_extracts fs path es u v Hes) in He.
    destruct Hn as [-> | ->]; [left; now exists v|right; now exists u].
  - intros [[imp Hex]|[file Hex]].
    + exists n, imp. split; [|now left].
      now apply (import_edges_extracts fs path es n imp Hes).
    + exists file, n. split; [|now right].
      now apply (import_edges_extracts fs path es file n Hes).
Qed.

Lemma nodes_are_extraction_names_witness :
  build_import_graph silent_twin codebase_path = Ok (graph_of [("m.py", "os")])
  /\ In "m.py" (_node (graph_of [("m.py", "os")]))
  /\ parse_imports silent_twin "./example-codebase/p/m.py" = Ok []
  /\ ~ In "quiet.py" (_node (graph_of [("m.py", "os")])).
Proof.
  assert (Hb : build_import_graph silent_twin codebase_path
               = Ok (graph_of [("m.py", "os")])) by reflexivity.
  pose proof (nodes_are_extraction_names silent_twin codebase_path _ Hb) as H.
  split; [exact Hb|]. split; [|split; [reflexivity|]].
  - apply H. left. exists "os".
    exists "./example-codebase/q", [], ["m.py"], ["os"].
    repeat split; cbn; auto.
  - intros Hq. apply H in Hq.
    destruct Hq as [[imp Hex]|[file Hex]];
      destruct Hex as (root & dirs & files & imports & Hw & Hf & _ & Hp & Hi);
      destruct Hw as [[= <- <- <-]|[[= <- <- <-]|[]]].
    + destruct Hf as [Hf|[Hf|[]]]; [discriminate Hf|].
      subst. vm_compute in Hp. inversion Hp; subst imports. destruct Hi.
    + destruct Hf as [Hf|[]]. discriminate Hf.
    + destruct Hf as [<-|[<-|[]]]; vm_compute in Hp; inversion Hp;
        subst imports; destruct Hi.
    + destruct Hf as [<-|[]]. vm_compute in Hp. inversion Hp; subst imports.
      destruct Hi as [Hi|[]]. discriminate Hi.
Defined.

Lemma same_members_same_length {A : Type} (l l' : list A) :
  NoDup l -> NoDup l' -> (forall x, In x l <-> In x l') ->
  List.length l = List.length l'.
Proof.
  intros Hl Hl' Hin.
  assert (List.length l <= List.length l')
    by (apply NoDup_incl_length; [assumption|intros x; apply Hin]).
  assert (List.length l' <= List.length l)
    by (apply NoDup_incl_length; [assumption|intros x; apply Hin]).
  lia.
Qed.

Lemma walk_same_edges g g' a c b :
  (forall u v, has_edge g u v -> has_edge g' u v) ->
  walk g a c b -> walk g' a c b.
Proof.
  intros He. induction 1 as [a|a m b l Ham Hw IH]; constructor; auto.
Qed.

Lemma acyclic_same_edges g g' :
  (forall u v, has_edge g u v <-> has_edge g' u v) ->
  acyclic g -> acyclic g'.
Proof.
  intros He Hac c [Hne [a Hw]]. apply (Hac c). split; [assumption|].
  exists a. apply (walk_same_edges g' g); [|assumption].
  intros u v. apply He.
Qed.

(** X8. What the analysis reports does not depend on the order or the
    repetition of the [add_edge] calls, hence not on the order in which
    the tree is walked: two call sequences with the same pairs give the
    same edges, node and edge counts, in-degrees and critical nodes (as a
    set), and a cycle is reported for one exactly when it is for the
    other. *)
Theorem analysis_independent_of_call_order :
  forall es es',
    (forall e, In e es <-> In e es') ->
    let g := graph_of es in
    let g' := graph_of es' in
    (forall u v, has_edge g u v <-> has_edge g' u v)
    /\ (forall n, In n (_node g) <-> In n (_node g'))
    /\ number_of_nodes g = number_of_nodes g'
    /\ number_of_edges g = number_of_edges g'
    /\ (forall n, in_degree_of g n = in_degree_of g' n)
    /\ (forall n, In n (identify_critical_nodes g)
                  <-> In n (identify_critical_nodes g'))
    /\ (identify_circular_dependencies g = Ok []
        <-> identify_circular_dependencies g' = Ok []).
Proof.
  intros es es' Hsame g g'.
  pose proof (well_formed_graph_of es) as Hwf.
  pose proof (well_formed_graph_of es') as Hwf'.
  assert (Hedge : forall u v, has_edge g u v <-> has_edge g' u v).
  { intros u v. unfold g, g'. rewrite !has_edge_graph_of. apply Hsame. }
  assert (Hnode : forall n, In n (_node g) <-> In n (_node g')).
  { intros n. unfold g, g'. rewrite !node_graph_of_In.
    split; intros (u & v & He & Hn); exists u, v; split; auto; now apply Hsame. }
  assert (Hdeg : forall n, in_degree_of g n = in_degree_of g' n).
  { intros n. apply same_members_same_length.
    - apply (wf_pred_nodup _ Hwf).
    - apply (wf_pred_nodup _ Hwf').
    - intros u. fold (preds g n). fold (preds g' n). unfold g, g'.
      rewrite !preds_graph_of. apply Hsame. }
  split; [exact Hedge|]. split; [exact Hnode|].
  split; [|split; [|split; [exact Hdeg|split]]].
  - apply same_members_same_length;
      [apply (wf_nodes _ Hwf)|apply (wf_nodes _ Hwf')|exact Hnode].
  - unfold g, g'. rewrite !number_of_edges_graph_of.
    apply same_members_same_length; try apply first_calls_spec.
    intros e. rewrite !(proj2 (first_calls_spec _)). apply Hsame.
  - intros n. rewrite !critical_as_filter, !filter_In.
    change (List.length (preds g n)) with (in_degree_of g n).
    change (List.length (preds g' n)) with (in_degree_of g' n).
    now rewrite Hnode, Hdeg.
  - unfold g, g'. rewrite !reported_nothing_iff. split.
    + apply acyclic_same_edges. exact Hedge.
    + apply acyclic_same_edges. intros u v. symmetry. apply Hedge.
Qed.

Lemma analysis_independent_of_call_order_witness :
  number_of_edges (graph_of [BC; AB; BC; CA; AB])
  = number_of_edges (graph_of [AB; BC; CA])
  /\ (identify_circular_dependencies (graph_of [BC; AB; BC; CA; AB]) = Ok []
      <-> identify_circular_dependencies (graph_of [AB; BC; CA]) = Ok []).
Proof.
  assert (H : forall e, In e [BC; AB; BC; CA; AB] <-> In e [AB; BC; CA]).
  { intros e. cbn. tauto. }
  destruct (analysis_independent_of_call_order _ _ H)
    as (_ & _ & _ & He & _ & _ & Hc).
  split; [exact He|exact Hc].
Defined.

Lemma total_pred_add_endpoint g w :
  keys (_pred g) = keys (_succ g) ->
  total_len (_pred (add_endpoint g w)) = total_len (_pred g).
Proof.
  intros Hk. unfold add_endpoint.
  destruct (dict_mem (_succ g) w) eqn:Hm; [reflexivity|].
  cbn [_pred]. rewrite total_len_set_new; [cbn; lia|].
  apply dict_get_None_keys. rewrite Hk, <- set_mem_false, <- dict_mem_keys.
  exact Hm.
Qed.

Lemma pred_key_add_endpoint g w x :
  keys (_pred g) = keys (_succ g) ->
  In x (keys (_pred (add_endpoint g w)))
  <-> x = w \/ In x (keys (_pred g)).
Proof.
  intros Hk. unfold add_endpoint. rewrite dict_mem_keys.
  destruct (set_mem w (keys (_succ g))) eqn:Hm; cbn [_pred].
  - apply set_mem_In in Hm. rewrite <- Hk in Hm.
    split; [tauto|]. intros [->|H]; assumption.
  - rewrite keys_dict_set. apply set_add_In.
Qed.

(** A new edge adds one to the in-degrees, an old one nothing. *)
Lemma total_pred_add_edge g u v :
  well_formed g ->
  total_len (_pred (add_edge g u v))
  = total_len (_pred g) + (if in_dec string_dec u (preds g v) then 0 else 1).
Proof.
  intros Hwf.
  assert (Hk : keys (_pred g) = keys (_succ g))
    by (now rewrite (wf_pred_keys g Hwf), (wf_succ_keys g Hwf)).
  destruct (keys_add_endpoint g u (wf_succ_keys g Hwf) (wf_pred_keys g Hwf))
    as [Hs1 Hp1].
  assert (Hk1 : keys (_pred (add_endpoint g u)) = keys (_succ (add_endpoint g u)))
    by congruence.
  rewrite <- (total_pred_add_endpoint g u Hk).
  rewrite <- (total_pred_add_endpoint (add_endpoint g u) v Hk1).
  rewrite <- (preds_add_endpoint g u v Hk).
  rewrite <- (preds_add_endpoint (add_endpoint g u) v v Hk1).
  set (g2 := add_endpoint (add_endpoint g u) v).
  assert (Hkey : In v (keys (_pred g2))).
  { apply pred_key_add_endpoint; [assumption|]. now left. }
  pose proof (getitem_get (_pred g2) v [] Hkey) as Hget.
  unfold add_edge. fold g2. cbn [_pred].
  pose proof (total_len_set_old (_pred g2) v
                (set_add u (getitem (_pred g2) v [])) _ Hget) as H.
  rewrite length_set_add in H. unfold preds. lia.
Qed.

Lemma pred_total_graph_of es :
  total_len (_pred (graph_of es)) = number_of_edges (graph_of es).
Proof.
  induction es as [|[u v] es IH] using rev_ind; [reflexivity|].
  pose proof (well_formed_graph_of es) as Hwf.
  rewrite graph_of_snoc. cbn [fst snd].
  rewrite total_pred_add_edge, number_of_edges_add_edge, IH by assumption.
  destruct (in_dec string_dec u (preds (graph_of es) v)) as [H|H];
    destruct (in_dec string_dec v (succs (graph_of es) u)) as [H'|H'];
    try reflexivity; exfalso.
  - apply H'. now apply (wf_pred_succ _ Hwf).
  - apply H. now apply (wf_pred_succ _ Hwf).
Qed.

Lemma sum_over_keys {A : Type} (d : dict (list A)) :
  NoDup (keys d) ->
  list_sum (map (fun k => List.length (getitem d k [])) (keys d))
  = total_len d.
Proof.
  induction d as [|[k0 v0] d IH]; intros Hnd; [reflexivity|].
  cbn [keys map fst] in *. inversion Hnd as [|? ? Hk0 Hnd']; subst.
  rewrite total_len_cons. cbn [list_sum fold_right]. f_equal.
  - unfold getitem. cbn [dict_get]. now rewrite String.eqb_refl.
  - rewrite <- (IH Hnd'). unfold list_sum, keys. f_equal.
    apply map_ext_in. intros k Hk.
    unfold getitem. cbn [dict_get].
    destruct (String.eqb_spec k0 k) as [->|]; [contradiction|reflexivity].
Qed.

Lemma sum_at_least_twice (f : string -> nat) l :
  2 * List.length (filter (fun n => 1 <? f n) l) <= list_sum (map f l).
Proof.
  induction l as [|n l IH]; [apply Nat.le_refl|].
  cbn [filter map list_sum fold_right].
  fold (list_sum (map f l)).
  destruct (1 <? f n) eqn:Hn.
  - apply Nat.ltb_lt in Hn. cbn [List.length]. lia.
  - lia.
Qed.

(** X9. The in-degrees that [in_degree] reports add up to the number of
    edges, so there are at most half as many critical nodes as edges. *)
Theorem in_degrees_sum_to_edge_count :
  forall es,
    let g := graph_of es in
    list_sum (map snd (in_degree g)) = number_of_edges g
    /\ 2 * List.length (identify_critical_nodes g) <= number_of_edges g
    /\ number_of_edges g <= List.length es.
Proof.
  intros es g. pose proof (well_formed_graph_of es) as Hwf. fold g in Hwf.
  assert (Hsum : list_sum (map (fun n => List.length (preds g n)) (_node g))
                 = number_of_edges g).
  { unfold g. rewrite <- pred_total_graph_of. fold g.
    rewrite <- (wf_pred_keys g Hwf). apply sum_over_keys.
    rewrite (wf_pred_keys g Hwf). apply (wf_nodes g Hwf). }
  split; [|split].
  - unfold in_degree. rewrite map_map. cbn [snd]. exact Hsum.
  - rewrite critical_as_filter, <- Hsum. apply sum_at_least_twice.
  - unfold g. rewrite number_of_edges_graph_of. unfold first_calls.
    rewrite length_rev. rewrite <- (length_rev es).
    apply NoDup_incl_length; [apply NoDup_nodup|].
    intros e He. now apply nodup_In in He.
Qed.

Lemma list_index_first x l :
  In x l -> exists i, list_index x l = Some i /\ nth_error l i = Some x.
Proof.
  induction l as [|y l IH]; intros Hin; [destruct Hin|].
  cbn [list_index]. destruct (String.eqb_spec y x) as [->|Hne].
  - exists 0. split; reflexivity.
  - destruct Hin as [Heq|Hin]; [contradiction|].
    destruct (IH Hin) as (i & -> & Hnth). exists (S i). split; [reflexivity|exact Hnth].
Qed.

Lemma sizes_of_map (f : string -> nat) nodes_list critical_nodes :
  incl critical_nodes nodes_list ->
  sizes_of (map f nodes_list) nodes_list critical_nodes
  = Some (map f critical_nodes).
Proof.
  induction critical_nodes as [|n c IH]; intros Hincl; [reflexivity|].
  cbn [sizes_of map].
  destruct (list_index_first n nodes_list) as (i & -> & Hnth).
  { apply Hincl. now left. }
  rewrite (map_nth_error f _ _ Hnth), IH; [reflexivity|].
  intros x Hx. apply Hincl. now right.
Qed.

(** X10. In [visualize_graph] the sizes of the highlighted nodes are always
    defined: [nodes_list.index(node)] finds every critical node and the
    subscript is in range.  The size of a node is 3000 plus 100 for each
    file that imports it, there is one size for each node, and a node is
    highlighted exactly when its size exceeds 3100. *)
Theorem highlighted_sizes_defined :
  forall g,
    critical_sizes g
    = Some (map (fun n => 3000 + 100 * in_degree_of g n)
                (identify_critical_nodes g))
    /\ List.length (node_sizes g) = number_of_nodes g
    /\ (forall n, In n (identify_critical_nodes g)
                  <-> In n (_node g) /\ 3100 < 3000 + 100 * in_degree_of g n).
Proof.
  intros g. split; [|split].
  - unfold critical_sizes, node_sizes. apply sizes_of_map.
    rewrite critical_as_filter. intros n Hn. now apply filter_In in Hn.
  - unfold node_sizes, number_of_nodes. apply length_map.
  - intros n. rewrite critical_as_filter, filter_In, Nat.ltb_lt.
    change (List.length (preds g n)) with (in_degree_of g n).
    split; intros [Hn Hd]; (split; [exact Hn|lia]).
Qed.

Lemma filter_split_length {A : Type} (f : A -> bool) l :
  List.length (filter (fun x => negb (f x)) l) + List.length (filter f l)
  = List.length l.
Proof.
  induction l as [|x l IH]; [reflexivity|].
  cbn [filter]. destruct (f x); cbn [negb List.length]; lia.
Qed.

(** X11. The legend of [visualize_graph] on a built graph: a node whose
    name does not end in [".py"] (drawn as an import) has no outgoing edge
    and is a name extracted from some source; every node with an outgoing
    edge is drawn as a file; and each node is in exactly one of the two
    lists. *)
Theorem legend_classes_of_built_graph :
  forall fs path g,
    build_import_graph fs path = Ok g ->
    (forall n, In n (import_nodes g) ->
               succs g n = [] /\ exists file, extracts fs path file n)
    /\ (forall n, succs g n <> [] -> In n (file_nodes g))
    /\ (forall n, In n (_node g) ->
                  (In n (file_nodes g) /\ ~ In n (import_nodes g))
                  \/ (In n (import_nodes g) /\ ~ In n (file_nodes g)))
    /\ List.length (import_nodes g) + List.length (file_nodes g)
       = number_of_nodes g.
Proof.
  intros fs path g Hb.
  assert (Hout : forall n, succs g n <> [] -> endswith n ".py" = true).
  { intros n Hne. destruct (succs g n) as [|v l] eqn:Hs; [congruence|].
    apply (build_edge_origin fs path g n v Hb). unfold has_edge.
    rewrite Hs. now left. }
  assert (Hnode : forall n, succs g n <> [] -> In n (_node g)).
  { intros n Hne. destruct (build_well_formed fs path g Hb) as (es & _ & ->).
    destruct (succs (graph_of es) n) as [|v l] eqn:Hs; [congruence|].
    apply node_graph_of_In. exists n, v. split; [|now left].
    apply has_edge_graph_of. unfold has_edge. rewrite Hs. now left. }
  split; [|split; [|split]].
  - intros n Hn. unfold import_nodes in Hn. apply filter_In in Hn.
    destruct Hn as [Hn Hpy]. apply negb_true_iff in Hpy.
    assert (Hs : succs g n = []).
    { destruct (succs g n) as [|v l] eqn:Hs; [reflexivity|].
      rewrite Hout in Hpy; [discriminate|]. rewrite Hs. discriminate. }
    split; [exact Hs|].
    destruct (build_well_formed fs path g Hb) as (es & Hes & Hg).
    rewrite Hg in Hn. apply node_graph_of_In in Hn.
    destruct Hn as (u & v & He & Hn).
    apply has_edge_graph_of in He. rewrite <- Hg in He.
    destruct Hn as [-> | ->].
    + unfold has_edge in He. rewrite Hs in He. destruct He.
    + exists u. apply (build_edge_origin fs path g u v Hb He).
  - intros n Hne. unfold file_nodes. apply filter_In. split; auto.
  - intros n Hn. unfold file_nodes, import_nodes. rewrite !filter_In.
    destruct (endswith n ".py"); cbn [negb].
    + left. split; [auto|]. intros [_ H]. discriminate.
    + right. split; [auto|]. intros [_ H]. discriminate.
  - unfold import_nodes, file_nodes, number_of_nodes.
    apply (filter_split_length (fun node => endswith node ".py")).
Qed.

Lemma legend_classes_of_built_graph_witness :
  In "os" (import_nodes (graph_of [("a.py", "os")]))
  /\ succs (graph_of [("a.py", "os")]) "os" = []
  /\ In "a.py" (file_nodes (graph_of [("a.py", "os")])).
Proof.
  destruct (legend_classes_of_built_graph silent_source codebase_path
              (graph_of [("a.py", "os")]) eq_refl) as (H1 & H2 & _).
  assert (Hos : In "os" (import_nodes (graph_of [("a.py", "os")]))).
  { vm_compute. now left. }
  split; [exact Hos|]. split; [apply (H1 "os" Hos)|].
  apply H2. vm_compute. discriminate.
Defined.

Lemma import_edges_raise_source fs path e :
  import_edges fs path = Raise e ->
  exists root dirs files file,
    In (root, dirs, files) (os_walk fs path) /\ In file files
    /\ endswith file ".py" = true
    /\ open_read fs (os_path_join root file) = Raise e.
Proof.
  intros H. apply AppFacts.collect_raise_inv in H.
  destruct H as ([[root dirs] files] & Hw & Hd).
  unfold dir_edges in Hd. cbn [fst snd] in Hd.
  apply AppFacts.collect_raise_inv in Hd. destruct Hd as (file & Hf & He).
  exists root, dirs, files, file. unfold file_edges, parse_imports in He.
  destruct (endswith file ".py"); [|discriminate].
  destruct (open_read fs (os_path_join root file)); cbn in He; [discriminate|].
  inversion He. auto.
Qed.

(** X12. The [/] route: when every source of the walk of
    ["./example-codebase"] can be read, the route returns what
    [render_template] returns on the summary of the graph of the extracted
    pairs; it returns a page only then.  An exception of the route is one
    raised by reading a source of the walk or by [render_template]: the
    analysis of the graph raises none. *)
Theorem index_route_outcomes :
  forall render fs,
    (sources_readable fs codebase_path ->
     exists es lines,
       import_edges fs codebase_path = Ok es
       /\ insight_lines (graph_of es) = Ok lines
       /\ index render fs
          = render "index.html" (join (String LF EmptyString) lines))
    /\ (forall html,
          index render fs = Ok html -> sources_readable fs codebase_path)
    /\ (forall e,
          index render fs = Raise e ->
          (exists root dirs files file,
              In (root, dirs, files) (os_walk fs codebase_path)
              /\ In file files
              /\ endswith file ".py" = true
              /\ open_read fs (os_path_join root file) = Raise e)
          \/ (sources_readable fs codebase_path
              /\ exists summary, render "index.html" summary = Raise e)).
Proof.
  intros render fs. unfold index, draw_insights.
  rewrite build_import_graph_edges.
  pose proof (import_edges_ok_iff fs codebase_path) as Hiff.
  destruct (import_edges fs codebase_path) as [es|e0] eqn:Hes; cbn [bind].
  - destruct (insight_lines_total (graph_of es)) as [lines Hl].
    rewrite Hl. cbn [bind].
    assert (Hr : sources_readable fs codebase_path) by (apply Hiff; eauto).
    split; [|split].
    + intros _. exists es, lines. auto.
    + intros html _. exact Hr.
    + intros e He. right. split; [exact Hr|eauto].
  - split; [|split].
    + intros Hr. apply Hiff in Hr. destruct Hr as [es Hes']. discriminate.
    + discriminate.
    + intros e [= <-]. left. now apply import_edges_raise_source.
Qed.

Lemma index_route_outcomes_witness :
  index (fun name _ => Raise (TemplateNotFound name)) two_importers
  = Raise (TemplateNotFound "index.html").
Proof.
  destruct (index_route_outcomes
              (fun name _ => Raise (TemplateNotFound name)) two_importers)
    as (Hpage & _ & _).
  destruct Hpage as (es & lines & _ & _ & ->); [|reflexivity].
  intros root dirs files file Hw Hf Hpy.
  destruct Hw as [[= <- <- <-]|[[= <- <- <-]|[]]]; destruct Hf as [<-|[]];
    eexists; reflexivity.
Defined.

Lemma walk_circular_edges g a c b :
  walk g a c b ->
  (forall u v, In (u, v) (circular_edges c) ->
               has_edge g u v
               /\ (v = b \/ exists w, In (v, w) (circular_edges c)))
  /\ c = map (fun p => (fst p, snd p, forward)) (circular_edges c)
  /\ (c <> [] -> exists w, In (a, w) (circular_edges c)).
Proof.
  induction 1 as [a|a m b l Ham Hw (IH1 & IH2 & IH3)].
  - split; [intros u v []|]. split; [reflexivity|congruence].
  - split; [|split].
    + intros u v [Heq|Hin].
      * inversion Heq; subst u v. split; [exact Ham|].
        destruct l as [|e l].
        -- left. now inversion Hw.
        -- right. destruct IH3 as [w Hw']; [discriminate|].
           exists w. now right.
      * destruct (IH1 u v Hin) as [He Hnext]. split; [exact He|].
        destruct Hnext as [->|[w Hw']]; [now left|].
        right. exists w. now right.
    + unfold circular_edges in *. cbn [map]. rewrite <- IH2. reflexivity.
    + intros _. exists m. now left.
Qed.

Lemma NoDup_map_inv' {A B : Type} (f : A -> B) l :
  NoDup (map f l) -> NoDup l.
Proof.
  induction l as [|x l IH]; intros H; [constructor|].
  cbn in H. inversion H as [|? ? Hx Hl]; subst.
  constructor; [|now apply IH]. intros Hin. apply Hx. now apply in_map.
Qed.

(** X13. The edges [visualize_graph] draws in orange are pairwise distinct
    edges of the graph, all taken in their own direction, and they close up:
    the head of each is the tail of one of them (of itself for a
    self-loop).  No two of them leave the same node. *)
Theorem highlighted_edges_form_a_cycle :
  forall g c,
    identify_circular_dependencies g = Ok c ->
    (forall u v, In (u, v) (circular_edges c) ->
                 has_edge g u v
                 /\ exists w, In (v, w) (circular_edges c))
    /\ NoDup (map fst (circular_edges c))
    /\ NoDup (circular_edges c)
    /\ c = map (fun p => (fst p, snd p, forward)) (circular_edges c).
Proof.
  intros g c Hc. destruct c as [|e c'].
  - split; [intros u v []|]. repeat split; constructor.
  - destruct (reported_cycle_simple g _ Hc) as [[_ [a Hw]] Hnd]; [discriminate|].
    destruct (walk_circular_edges g a _ a Hw) as (H1 & H2 & H3).
    assert (Htails : NoDup (map fst (circular_edges (e :: c')))).
    { unfold circular_edges. rewrite map_map. exact Hnd. }
    split; [|split; [exact Htails|split; [|exact H2]]].
    + intros u v Hin. destruct (H1 u v Hin) as [He [->|Hnext]];
        (split; [exact He|]); [apply H3; discriminate|exact Hnext].
    + exact (NoDup_map_inv' fst _ Htails).
Qed.

Lemma highlighted_edges_form_a_cycle_witness :
  NoDup (circular_edges [("a", "b", forward); ("b", "a", forward)])
  /\ has_edge (graph_of two_cycles) "b" "a".
Proof.
  assert (Hc : identify_circular_dependencies (graph_of two_cycles)
               = Ok [("a", "b", forward); ("b", "a", forward)])
    by (vm_compute; reflexivity).
  destruct (highlighted_edges_form_a_cycle _ _ Hc) as (H1 & _ & H3 & _).
  split; [exact H3|]. apply (H1 "b" "a"). right. now left.
Defined.

End AnalysisExtras.
